(** * atomic-stream-terminal: a shallow embedding of the stream client core

    The development follows the TypeScript sources:
    - [src/state/buffers/ring-buffer.ts]        -> Module [Ring]
    - [src/state/store.ts]                      -> Module [Store]
    - [src/data/streams/x402.ts], the protocol guards ([isRecord],
      [isNetworkV2], [isWsX402Event], ...)      -> Module [Protocol]
    - [src/data/streams/x402.ts], the payment helpers
      ([parseSchemaVersion], [toCorePaymentRequired], ...)
                                                -> Module [X402]
    - [src/data/streams/x402.ts], [class StreamClient]
                                                -> Module [Client]
    - [src/app.ts], the spend ledger of [DashboardApp]
                                                -> Module [Ledger]

    JavaScript values are modelled as the code has them: a string is the
    sequence of its UTF-16 code units; a [number] that only ever holds an
    array index is a natural number or NaN; a [number] that holds a price or
    a capacity is an IEEE-754 binary64 float; a millisecond reading of
    [Date.now()] is an integer; a [bigint] is an integer; a [Map] is a finite
    map; a [Set] is the list of its members in insertion order; a thrown
    exception is the left summand of the result.

    An [async] method is split at its [await]s: the part up to the first
    [await] is a function that returns the call it waits for, and each
    continuation is a function of what the call settles with. The calls
    into the payment library, [fetch], [URL] and [JSON.parse] are inputs.

    The modules [WatchSpec], [ProtocolSpec] and [RingSpec] hold the
    vocabulary of the properties; the second part of the file proves them. *)

From Stdlib Require Import ZArith NArith Floats.
From stdpp Require Import gmap strings list.

Set Default Proof Using "Type".
Set Warnings "-clear-no-such-hyp".

(** ** JavaScript preliminaries *)

Module JS.

(** A JavaScript string: the list of its UTF-16 code units. *)
Abbreviation jsstring := (list N).

(** A string literal of the source (ASCII only). *)
Definition js (s : string) : jsstring :=
  (λ a, Ascii.N_of_ascii a) <$> String.list_ascii_of_string s.

(** [WhiteSpace] and [LineTerminator] code points of ECMAScript; this is
    the set stripped by [String.prototype.trim] and matched by [\s]. *)
Definition is_whitespace (c : N) : bool :=
  bool_decide (c ∈ [9; 10; 11; 12; 13; 32; 160; 5760; 8232; 8233; 8239; 8287; 12288; 65279]%N)
  || ((8192 <=? c) && (c <=? 8202))%N.

Fixpoint trimStart (s : jsstring) : jsstring :=
  match s with
  | c :: s' => if is_whitespace c then trimStart s' else s
  | [] => []
  end.

Definition trimEnd (s : jsstring) : jsstring := reverse (trimStart (reverse s)).

(** [s.trim()] *)
Definition trim (s : jsstring) : jsstring := trimEnd (trimStart s).

(** Truthiness of a string: [Boolean(s)] is false only for the empty string. *)
Definition truthy (s : jsstring) : bool :=
  match s with [] => false | _ => true end.

(** [s.indexOf(c)] for a one-character needle; [-1] when absent. *)
Fixpoint indexOf (c : N) (s : jsstring) : Z :=
  match s with
  | [] => -1
  | d :: s' =>
      if bool_decide (d = c) then 0
      else let r := indexOf c s' in if (r <? 0)%Z then -1 else (r + 1)%Z
  end.

(** [s.startsWith(p)] *)
Fixpoint startsWith (p s : jsstring) : bool :=
  match p, s with
  | [], _ => true
  | c :: p', d :: s' => bool_decide (c = d) && startsWith p' s'
  | _ :: _, [] => false
  end.

(** [s.split(c)] for a one-character separator: the pieces between the
    occurrences of [c]; a string without [c] is returned whole. *)
Fixpoint split (c : N) (s : jsstring) : list jsstring :=
  match s with
  | [] => [[]]
  | d :: s' =>
      match split c s' with
      | p :: ps => if bool_decide (d = c) then [] :: p :: ps else (d :: p) :: ps
      | [] => [[d]]
      end
  end.

(** [s.split(/\s+/)]: the pieces between maximal runs of white space. An
    empty piece appears only at the ends (leading or trailing white
    space) or when [s] is empty. *)
Fixpoint split_ws_aux (s : jsstring) (cur : jsstring) (in_ws : bool) : list jsstring :=
  match s with
  | [] => [reverse cur]
  | c :: s' =>
      if is_whitespace c then
        if in_ws then split_ws_aux s' cur true
        else reverse cur :: split_ws_aux s' [] true
      else split_ws_aux s' (c :: cur) false
  end.

Definition split_ws (s : jsstring) : list jsstring := split_ws_aux s [] false.

(** *** Numbers used as array indices

    [head] and [tail] of the ring buffer are JavaScript numbers that hold
    either a non-negative integer or, after a remainder by zero, NaN. *)
Abbreviation index := (option N).
Abbreviation NaN := (@None N).

(** [i + 1] *)
Definition succ (i : index) : index := (λ n, n + 1)%N <$> i.

(** [i + j] *)
Definition plus (i : index) (j : N) : index := (λ n, n + j)%N <$> i.

(** [i % c]: NaN when the divisor is zero or the dividend is NaN. *)
Definition rem (i : index) (c : N) : index :=
  i ≫= λ n, if (c =? 0)%N then None else Some (n mod c)%N.

(** *** Binary64 numbers *)

(** [Number.isFinite(x)] *)
Definition Number_isFinite (x : float) : bool := PrimFloat.is_finite x.

(** The integer [Math.floor(x)] of a finite number [x]. *)
Definition Math_floor (x : float) : Z :=
  match Prim2SF x with
  | S754_finite s m e =>
      let v := if s then Z.neg m else Z.pos m in
      if (0 <=? e)%Z then (v * 2 ^ e)%Z else (v `div` 2 ^ (- e))%Z
  | _ => 0%Z
  end.

(** *** BigInt(string): [StringToBigInt] of ECMAScript.

    White space is stripped at both ends; the empty string is [0n]; a
    decimal literal may carry a sign; [0x], [0o] and [0b] literals may not.
    Anything else is a SyntaxError, rendered as [None]. *)
Definition digit_value (c : N) : option Z :=
  if ((48 <=? c) && (c <=? 57))%N then Some (Z.of_N c - 48)%Z
  else if ((97 <=? c) && (c <=? 102))%N then Some (Z.of_N c - 87)%Z
  else if ((65 <=? c) && (c <=? 70))%N then Some (Z.of_N c - 55)%Z
  else None.

Fixpoint digits (radix : Z) (acc : Z) (s : jsstring) : option Z :=
  match s with
  | [] => Some acc
  | c :: s' =>
      match digit_value c with
      | Some d => if (d <? radix)%Z then digits radix (acc * radix + d)%Z s' else None
      | None => None
      end
  end.

(** One or more digits in the given radix. *)
Definition number (radix : Z) (s : jsstring) : option Z :=
  match s with [] => None | _ => digits radix 0 s end.

Definition BigInt (s : jsstring) : option Z :=
  match trim s with
  | [] => Some 0%Z
  | 48%N :: x :: rest =>
      if bool_decide (x ∈ [120; 88]%N) then number 16 rest
      else if bool_decide (x ∈ [111; 79]%N) then number 8 rest
      else if bool_decide (x ∈ [98; 66]%N) then number 2 rest
      else number 10 (48%N :: x :: rest)
  | 43%N :: rest => number 10 rest
  | 45%N :: rest => Z.opp <$> number 10 rest
  | t => number 10 t
  end.

End JS.

Import JS.

(** A thrown exception: the constructor of the error and its message. *)
Inductive exn :=
  | Error (message : jsstring)
  | RangeError (message : jsstring)
  | TypeError (message : jsstring)
  | SyntaxError (message : jsstring).

#[global] Instance exn_eq_dec : EqDecision exn.
Proof. solve_decision. Defined.

(** ** [src/state/buffers/ring-buffer.ts] *)

Module Ring.

(** The fields of [class RingBuffer<T>]. [buffer] is a JavaScript array
    with holes: a finite map from property keys to items, where a missing
    key reads as [undefined]. An item of type [T] is a defined value. *)
Record RingBuffer (T : Type) := mkRingBuffer {
  buffer : gmap index T;
  head : index;
  tail : index;
  count : N;
  capacity : N
}.
Arguments mkRingBuffer {T}.
Arguments buffer {T}.
Arguments head {T}.
Arguments tail {T}.
Arguments count {T}.
Arguments capacity {T}.

(** The largest length [new Array(n)] accepts; beyond it the array
    constructor throws a RangeError. *)
Definition max_array_length : Z := 2 ^ 32 - 1.

Section Operations.
Context {T : Type}.

(** [constructor(capacity: number)] *)
Definition new (cap : float) : exn + RingBuffer T :=
  if negb (Number_isFinite cap) || (cap <=? 0)%float then
    inl (Error (js "RingBuffer capacity must be a positive number"))
  else
    let c := Math_floor cap in
    if (max_array_length <? c)%Z then inl (RangeError (js "Invalid array length"))
    else inr (mkRingBuffer ∅ (Some 0%N) (Some 0%N) 0 (Z.to_N c)).

(** [push(item: T): void] *)
Definition push (item : T) (rb : RingBuffer T) : RingBuffer T :=
  let buffer' := <[tail rb := item]> (buffer rb) in
  let '(head', count') :=
    if (count rb =? capacity rb)%N
    then (rem (succ (head rb)) (capacity rb), count rb)
    else (head rb, (count rb + 1)%N) in
  mkRingBuffer buffer' head' (rem (succ (tail rb)) (capacity rb)) count' (capacity rb).

(** The loop of [toArray()], from counter [i], for [n] more rounds. *)
Fixpoint toArray_from (rb : RingBuffer T) (i : N) (n : nat) : list T :=
  match n with
  | O => []
  | S n' =>
      let idx := rem (plus (head rb) i) (capacity rb) in
      match buffer rb !! idx with
      | Some item => item :: toArray_from rb (i + 1)%N n'
      | None => toArray_from rb (i + 1)%N n'
      end
  end.

(** [toArray(): T[]] *)
Definition toArray (rb : RingBuffer T) : list T :=
  toArray_from rb 0 (N.to_nat (count rb)).

(** [get length(): number] *)
Definition length (rb : RingBuffer T) : N := count rb.

(** [get size(): number] *)
Definition size (rb : RingBuffer T) : N := capacity rb.

(** [isFull(): boolean] *)
Definition isFull (rb : RingBuffer T) : bool := (count rb =? capacity rb)%N.

(** [isEmpty(): boolean] *)
Definition isEmpty (rb : RingBuffer T) : bool := (count rb =? 0)%N.

(** [clear(): void] *)
Definition clear (rb : RingBuffer T) : RingBuffer T :=
  mkRingBuffer ∅ (Some 0%N) (Some 0%N) 0 (capacity rb).

(** The loop of the iterator, at position [index], for [n] more rounds;
    the list of the values it yields. *)
Fixpoint iterate_from (rb : RingBuffer T) (idx : index) (n : nat) : list T :=
  match n with
  | O => []
  | S n' =>
      let rest := iterate_from rb (rem (succ idx) (capacity rb)) n' in
      match buffer rb !! idx with
      | Some item => item :: rest
      | None => rest
      end
  end.

(** [*[Symbol.iterator]()] *)
Definition iterate (rb : RingBuffer T) : list T :=
  iterate_from rb (head rb) (N.to_nat (count rb)).

(** [push] once per item, in order. *)
Definition pushAll (items : list T) (rb : RingBuffer T) : RingBuffer T :=
  foldl (λ b x, push x b) rb items.

(** The calls a client of the class can make on an instance. *)
Inductive call :=
  | Push (item : T)
  | Clear
  | ToArray
  | Iterate.

Definition run (c : call) (rb : RingBuffer T) : RingBuffer T :=
  match c with
  | Push item => push item rb
  | Clear => clear rb
  | ToArray => rb
  | Iterate => rb
  end.

Definition runAll (cs : list call) (rb : RingBuffer T) : RingBuffer T :=
  foldl (λ b c, run c b) rb cs.

End Operations.

End Ring.

(** ** [src/state/store.ts] *)

Module Store.

(** [type DexId] *)
Inductive DexId := raydium | orca | meteora | pumpfun.

(** [interface PriceData] *)
Record PriceData := mkPriceData {
  pairKey : jsstring;
  pairLabel : jsstring;
  price : float;
  dex : DexId;
  slot : float;
  changePct : option float
}.

(** [interface DashboardStats] *)
Record DashboardStats := mkStats {
  totalSwaps : N;
  totalSwapAlerts : N;
  totalNotionalUsd : float;
  swapsPerMinute : N;
  alertsPerMinute : N;
  largestSwapUsd : option float
}.

(** [interface StoreConfig] *)
Record StoreConfig := mkStoreConfig {
  cfgPriceHistoryLength : option float;
  cfgSwapHistoryLength : option float;
  cfgPoolHistoryLength : option float
}.

(** An entry of the per-pair price history: [{ price, timestamp }]. *)
Record PricePoint := mkPricePoint { pointPrice : float; pointTimestamp : Z }.

Section Store.
(** The event payloads are stored and forwarded as they are; the store
    reads only [notionalUsd] of a swap quote and [pool] of a reserves
    snapshot. *)
Context {WsSwapQuoteEvent WsPoolCreatedEvent WsPoolReservesEvent : Type}.
Context (notionalUsd : WsSwapQuoteEvent → option float).
Context (pool : WsPoolReservesEvent → jsstring).

(** The fields of [class DashboardStore]. *)
Record DashboardStore := mkStore {
  prices : gmap jsstring PriceData;
  priceHistory : gmap jsstring (Ring.RingBuffer PricePoint);
  swaps : Ring.RingBuffer WsSwapQuoteEvent;
  swapAlerts : Ring.RingBuffer WsSwapQuoteEvent;
  pools : Ring.RingBuffer WsPoolCreatedEvent;
  reserves : gmap jsstring WsPoolReservesEvent;
  stats : DashboardStats;
  swapTimestamps : Ring.RingBuffer Z;
  alertTimestamps : Ring.RingBuffer Z;
  priceHistoryLength : float
}.

(** What the store emits to its listeners ([interface StoreEvents]). *)
Inductive StoreEvent :=
  | price_update (data : PriceData)
  | swap_quote (swap : WsSwapQuoteEvent)
  | swap_alert (swap : WsSwapQuoteEvent)
  | pool_created (p : WsPoolCreatedEvent)
  | pool_reserves (r : WsPoolReservesEvent)
  | stats_update (s : DashboardStats).

(** [constructor(config: StoreConfig = {})] *)
Definition new (config : StoreConfig) : exn + DashboardStore :=
  let priceHistoryLength := default 300%float (cfgPriceHistoryLength config) in
  let swapHistoryLength := default 1000%float (cfgSwapHistoryLength config) in
  let poolHistoryLength := default 100%float (cfgPoolHistoryLength config) in
  match Ring.new swapHistoryLength with
  | inl e => inl e
  | inr swaps =>
  match Ring.new swapHistoryLength with
  | inl e => inl e
  | inr swapAlerts =>
  match Ring.new poolHistoryLength with
  | inl e => inl e
  | inr pools =>
  match Ring.new 1000%float with
  | inl e => inl e
  | inr swapTimestamps =>
  match Ring.new 1000%float with
  | inl e => inl e
  | inr alertTimestamps =>
      inr (mkStore ∅ ∅ swaps swapAlerts pools ∅
             (mkStats 0 0 0%float 0 0 None)
             swapTimestamps alertTimestamps priceHistoryLength)
  end end end end end.

(** The percentage computed by [updatePrice] from the entry found in
    [this.prices] (if any) and the incoming price. *)
Definition computeChangePct (previous : option PriceData) (data : PriceData) : option float :=
  match previous with
  | Some previous =>
      if (0 <? price previous)%float
      then Some (((price data - price previous) / price previous) * 100)%float
      else None
  | None => None
  end.

(** [updatePrice(data: PriceData): void], with the reading [now] of
    [Date.now()]. The result is the store afterwards, what was emitted,
    and the exception thrown (by the ring constructor), if any. *)
Definition updatePrice (now : Z) (data : PriceData) (st : DashboardStore)
    : DashboardStore * list StoreEvent * option exn :=
  let previous := prices st !! pairKey data in
  let changePct := computeChangePct previous data in
  let next := mkPriceData (pairKey data) (pairLabel data) (price data)
                (dex data) (slot data) changePct in
  let prices' := <[pairKey data := next]> (prices st) in
  let st1 := mkStore prices' (priceHistory st) (swaps st) (swapAlerts st)
               (pools st) (reserves st) (stats st) (swapTimestamps st)
               (alertTimestamps st) (priceHistoryLength st) in
  let created :=
    match priceHistory st !! pairKey data with
    | Some rb => inr rb
    | None => Ring.new (priceHistoryLength st)
    end in
  match created with
  | inl e => (st1, [], Some e)
  | inr rb =>
      let rb' := Ring.push (mkPricePoint (price data) now) rb in
      let st2 := mkStore prices' (<[pairKey data := rb']> (priceHistory st))
                   (swaps st) (swapAlerts st) (pools st) (reserves st) (stats st)
                   (swapTimestamps st) (alertTimestamps st) (priceHistoryLength st) in
      (st2, [price_update next], None)
  end.

(** [getPrice(pairKey: string): PriceData | undefined] *)
Definition getPrice (key : jsstring) (st : DashboardStore) : option PriceData :=
  prices st !! key.

(** [getPriceHistory(pairKey: string)] *)
Definition getPriceHistory (key : jsstring) (st : DashboardStore) : list PricePoint :=
  match priceHistory st !! key with
  | Some rb => Ring.toArray rb
  | None => []
  end.

(** The count taken by [updateSwapsPerMinute] and [updateAlertsPerMinute]:
    [timestamps.filter((t) => t > oneMinuteAgo).length] with
    [oneMinuteAgo = now - 60000]. *)
Definition recent (now : Z) (timestamps : list Z) : list Z :=
  let oneMinuteAgo := (now - 60000)%Z in
  filter (λ t, (oneMinuteAgo < t)%Z) timestamps.

Definition recentCount (now : Z) (timestamps : Ring.RingBuffer Z) : N :=
  N.of_nat (List.length (recent now (Ring.toArray timestamps))).

Definition with_stats (s : DashboardStats) (st : DashboardStore) : DashboardStore :=
  mkStore (prices st) (priceHistory st) (swaps st) (swapAlerts st) (pools st)
    (reserves st) s (swapTimestamps st) (alertTimestamps st) (priceHistoryLength st).

(** [private updateSwapsPerMinute(): void], with the reading [now]. *)
Definition updateSwapsPerMinute (now : Z) (st : DashboardStore) : DashboardStore :=
  let s := stats st in
  with_stats (mkStats (totalSwaps s) (totalSwapAlerts s) (totalNotionalUsd s)
                (recentCount now (swapTimestamps st)) (alertsPerMinute s)
                (largestSwapUsd s)) st.

(** [private updateAlertsPerMinute(): void], with the reading [now]. *)
Definition updateAlertsPerMinute (now : Z) (st : DashboardStore) : DashboardStore :=
  let s := stats st in
  with_stats (mkStats (totalSwaps s) (totalSwapAlerts s) (totalNotionalUsd s)
                (swapsPerMinute s) (recentCount now (alertTimestamps st))
                (largestSwapUsd s)) st.

(** [addSwapQuote(swap): void]; [now1] is the reading of [Date.now()]
    pushed on the timestamp ring, [now2] the later reading taken by
    [updateSwapsPerMinute]. *)
Definition addSwapQuote (now1 now2 : Z) (swap : WsSwapQuoteEvent) (st : DashboardStore)
    : DashboardStore * list StoreEvent :=
  let s := stats st in
  let '(total, largest) :=
    match notionalUsd swap with
    | Some n =>
        if Number_isFinite n then
          ((totalNotionalUsd s + n)%float,
           match largestSwapUsd s with
           | None => Some n
           | Some l => if (l <? n)%float then Some n else Some l
           end)
        else (totalNotionalUsd s, largestSwapUsd s)
    | None => (totalNotionalUsd s, largestSwapUsd s)
    end in
  let s1 := mkStats (totalSwaps s + 1) (totalSwapAlerts s) total
              (swapsPerMinute s) (alertsPerMinute s) largest in
  let st1 := mkStore (prices st) (priceHistory st) (Ring.push swap (swaps st))
               (swapAlerts st) (pools st) (reserves st) s1
               (Ring.push now1 (swapTimestamps st)) (alertTimestamps st)
               (priceHistoryLength st) in
  let st2 := updateSwapsPerMinute now2 st1 in
  (st2, [swap_quote swap; stats_update (stats st2)]).

(** [addSwapAlert(swap): void] *)
Definition addSwapAlert (now1 now2 : Z) (swap : WsSwapQuoteEvent) (st : DashboardStore)
    : DashboardStore * list StoreEvent :=
  let s := stats st in
  let s1 := mkStats (totalSwaps s) (totalSwapAlerts s + 1) (totalNotionalUsd s)
              (swapsPerMinute s) (alertsPerMinute s) (largestSwapUsd s) in
  let st1 := mkStore (prices st) (priceHistory st) (swaps st)
               (Ring.push swap (swapAlerts st)) (pools st) (reserves st) s1
               (swapTimestamps st) (Ring.push now1 (alertTimestamps st))
               (priceHistoryLength st) in
  let st2 := updateAlertsPerMinute now2 st1 in
  (st2, [swap_alert swap; stats_update (stats st2)]).

(** [addPool(pool): void] *)
Definition addPool (p : WsPoolCreatedEvent) (st : DashboardStore)
    : DashboardStore * list StoreEvent :=
  (mkStore (prices st) (priceHistory st) (swaps st) (swapAlerts st)
     (Ring.push p (pools st)) (reserves st) (stats st) (swapTimestamps st)
     (alertTimestamps st) (priceHistoryLength st),
   [pool_created p]).

(** [updateReserves(reserves): void] *)
Definition updateReserves (r : WsPoolReservesEvent) (st : DashboardStore)
    : DashboardStore * list StoreEvent :=
  (mkStore (prices st) (priceHistory st) (swaps st) (swapAlerts st) (pools st)
     (<[pool r := r]> (reserves st)) (stats st) (swapTimestamps st)
     (alertTimestamps st) (priceHistoryLength st),
   [pool_reserves r]).

(** [getStats(): DashboardStats] *)
Definition getStats (st : DashboardStore) : DashboardStats := stats st.

End Store.

End Store.


(** ** [src/data/streams/protocol.ts] *)

Module Protocol.

(** A decoded JSON value ([unknown] in the source). An object is the
    finite map of its own properties; a property that is absent reads as
    [undefined], rendered as [None]. *)
#[warnings="-register-all"]
Inductive value :=
  | VNull
  | VBool (b : bool)
  | VNum (x : float)
  | VStr (s : jsstring)
  | VArr (items : list value)
  | VObj (fields : gmap jsstring value).

(** [value[key]] on a value known to be a record. *)
Definition get (v : value) (key : jsstring) : option value :=
  match v with
  | VObj fields => fields !! key
  | _ => None
  end.

(** [!v]: the falsy values are [null], [false], [0], [-0], [NaN] and the
    empty string. *)
Definition falsy (v : value) : bool :=
  match v with
  | VNull => true
  | VBool b => negb b
  | VNum x => (x =? 0)%float || PrimFloat.is_nan x
  | VStr s => negb (JS.truthy s)
  | VArr _ | VObj _ => false
  end.

Definition STREAM_IDS : list jsstring :=
  js <$> ["mempool-sniff"; "new-mints"; "whale-alert"; "smart-money";
          "wallet-balance"; "token-ticker"; "swap-quotes"; "swap-alerts";
          "liquidity-changes"; "infrastructure-pulse"; "sniper-feed";
          "pool-creations"; "rug-detection"; "market-depth"; "pool-reserves";
          "token2022-extensions"; "program-logs"; "program-errors";
          "trending-leaderboard"; "account-data"].

(** [isRecord(value)] *)
Definition isRecord (v : option value) : bool :=
  match v with
  | Some (VObj _) => true
  | _ => false
  end.

(** [isString(value)], also [typeof value === "string"] *)
Definition isString (v : option value) : bool :=
  match v with
  | Some (VStr _) => true
  | _ => false
  end.

(** [typeof value === "number"] *)
Definition typeofNumber (v : option value) : bool :=
  match v with
  | Some (VNum _) => true
  | _ => false
  end.

(** [isNumber(value)] *)
Definition isNumber (v : option value) : bool :=
  match v with
  | Some (VNum x) => Number_isFinite x
  | _ => false
  end.

(** [isNetworkV2(value: string): boolean] *)
Definition isNetworkV2 (v : jsstring) : bool :=
  let idx := indexOf 58 v in
  bool_decide (0 < idx)%Z && bool_decide (idx < Z.of_nat (List.length v) - 1)%Z.

(** [isStreamId(value)] *)
Definition isStreamId (v : jsstring) : bool := bool_decide (v ∈ STREAM_IDS).

(** [isWsX402Event(value)] *)
Definition isWsX402Event (v : value) : bool :=
  if negb (isRecord (Some v)) then false
  else match get v (js "op") with
       | Some (VStr op) =>
           bool_decide (op ∈ js <$> ["hello"; "renewal_reminder"; "payment_required";
                                      "renewed"; "error"])
       | _ => false
       end.

(** [isWsStatusEvent(value)] *)
Definition isWsStatusEvent (v : value) : bool :=
  if negb (isRecord (Some v)) then false
  else match get v (js "type") with
       | Some (VStr t) => bool_decide (t = js "status") && isString (get v (js "now"))
       | _ => false
       end.

(** [isWsEvent(value)] *)
Definition isWsEvent (v : value) : bool :=
  if negb (isRecord (Some v)) then false
  else isString (get v (js "type")).

(** [isResourceInfo(value)] *)
Definition isResourceInfo (v : option value) : bool :=
  match v with
  | Some (VObj _ as r) =>
      isString (get r (js "url")) && isString (get r (js "description"))
      && isString (get r (js "mimeType"))
  | _ => false
  end.

(** [isPaymentRequirementsV1(value)] *)
Definition isPaymentRequirementsV1 (v : option value) : bool :=
  match v with
  | Some (VObj _ as r) =>
      isString (get r (js "scheme")) && isString (get r (js "network"))
      && isString (get r (js "maxAmountRequired")) && isString (get r (js "resource"))
      && isString (get r (js "description")) && isString (get r (js "mimeType"))
      && isRecord (get r (js "outputSchema")) && isString (get r (js "payTo"))
      && isNumber (get r (js "maxTimeoutSeconds")) && isString (get r (js "asset"))
      && isRecord (get r (js "extra"))
  | _ => false
  end.

(** [isPaymentRequirementsV2(value)] *)
Definition isPaymentRequirementsV2 (v : option value) : bool :=
  match v with
  | Some (VObj _ as r) =>
      isString (get r (js "scheme"))
      && match get r (js "network") with
         | Some (VStr network) => isNetworkV2 network
         | _ => false
         end
      && isString (get r (js "amount")) && isString (get r (js "asset"))
      && isString (get r (js "payTo")) && isNumber (get r (js "maxTimeoutSeconds"))
      && isRecord (get r (js "extra"))
  | _ => false
  end.

(** [value.x402Version === n] *)
Definition versionIs (n : float) (v : value) : bool :=
  match get v (js "x402Version") with
  | Some (VNum x) => (x =? n)%float
  | _ => false
  end.

(** [value.k === undefined || check(value.k)] *)
Definition optional (check : option value → bool) (v : option value) : bool :=
  match v with
  | None => true
  | Some _ => check v
  end.

(** [isPaymentPayloadV1(value)] *)
Definition isPaymentPayloadV1 (v : option value) : bool :=
  match v with
  | Some (VObj _ as r) =>
      versionIs 1 r && isString (get r (js "scheme")) && isString (get r (js "network"))
      && isRecord (get r (js "payload"))
  | _ => false
  end.

(** [isPaymentPayloadV2(value)] *)
Definition isPaymentPayloadV2 (v : option value) : bool :=
  match v with
  | Some (VObj _ as r) =>
      versionIs 2 r && isResourceInfo (get r (js "resource"))
      && isPaymentRequirementsV2 (get r (js "accepted"))
      && isRecord (get r (js "payload"))
      && optional isRecord (get r (js "extensions"))
  | _ => false
  end.

(** [Array.isArray(v) && v.every(check)] *)
Definition arrayOf (check : option value → bool) (v : option value) : bool :=
  match v with
  | Some (VArr items) => forallb (λ item, check (Some item)) items
  | _ => false
  end.

(** [isPaymentRequiredV1(value)] *)
Definition isPaymentRequiredV1 (v : option value) : bool :=
  match v with
  | Some (VObj _ as r) =>
      versionIs 1 r && arrayOf isPaymentRequirementsV1 (get r (js "accepts"))
      && optional isString (get r (js "error"))
  | _ => false
  end.

(** [isPaymentRequiredV2(value)] *)
Definition isPaymentRequiredV2 (v : option value) : bool :=
  match v with
  | Some (VObj _ as r) =>
      versionIs 2 r && isResourceInfo (get r (js "resource"))
      && arrayOf isPaymentRequirementsV2 (get r (js "accepts"))
      && optional isRecord (get r (js "extensions"))
      && optional isString (get r (js "error"))
  | _ => false
  end.

Definition isPaymentRequired (v : option value) : bool :=
  isPaymentRequiredV1 v || isPaymentRequiredV2 v.

Definition isPaymentPayload (v : option value) : bool :=
  isPaymentPayloadV1 v || isPaymentPayloadV2 v.

Definition isPaymentRequirements (v : option value) : bool :=
  isPaymentRequirementsV1 v || isPaymentRequirementsV2 v.

End Protocol.

(** ** [src/data/streams/x402.ts] *)

Module X402.
Import Protocol.

(** [type RenewMethod] *)
Inductive RenewMethod := http | inband.

(** [type X402SchemaVersion] *)
Inductive X402SchemaVersion := v1 | v2.

#[global] Instance RenewMethod_eq_dec : EqDecision RenewMethod.
Proof. solve_decision. Defined.
#[global] Instance X402SchemaVersion_eq_dec : EqDecision X402SchemaVersion.
Proof. solve_decision. Defined.

Definition versionName (v : X402SchemaVersion) : jsstring :=
  match v with v1 => js "v1" | v2 => js "v2" end.

(** The resource descriptor of a version-2 challenge. *)
Record ResourceInfo := mkResourceInfo {
  url : jsstring;
  description : jsstring;
  mimeType : jsstring
}.

(** [type PaymentRequirementsV1Compat] *)
Record PaymentRequirementsV1Compat := mkRequirementsV1 {
  schemeV1 : jsstring;
  networkV1 : jsstring;
  maxAmountRequired : jsstring;
  resourceV1 : jsstring;
  descriptionV1 : jsstring;
  mimeTypeV1 : jsstring;
  outputSchema : value;
  payToV1 : jsstring;
  maxTimeoutSecondsV1 : float;
  assetV1 : jsstring;
  extraV1 : value
}.

(** [type PaymentRequirementsV2Compat] *)
Record PaymentRequirementsV2Compat := mkRequirementsV2 {
  scheme : jsstring;
  network : jsstring;
  amount : jsstring;
  asset : jsstring;
  payTo : jsstring;
  maxTimeoutSeconds : float;
  extra : value
}.

(** [type PaymentRequiredV1Compat]; its [x402Version] is [1]. *)
Record PaymentRequiredV1Compat := mkRequiredV1 {
  acceptsV1 : list PaymentRequirementsV1Compat;
  errorV1 : option jsstring
}.

(** [type PaymentRequiredV2Compat]; its [x402Version] is [2]. *)
Record PaymentRequiredV2Compat := mkRequiredV2 {
  resource : ResourceInfo;
  accepts : list PaymentRequirementsV2Compat;
  extensions : option value;
  error : option jsstring
}.

(** [PaymentRequiredV1Compat | PaymentRequiredV2Compat] *)
Inductive PaymentRequired :=
  | RequiredV1 (r : PaymentRequiredV1Compat)
  | RequiredV2 (r : PaymentRequiredV2Compat).

Definition x402Version (p : PaymentRequired) : N :=
  match p with RequiredV1 _ => 1 | RequiredV2 _ => 2 end.

(** [PaymentRequired] of the payment library: the version-2 shape whose
    requirements carry a network of type [Network]. *)
Record CorePaymentRequired := mkCoreRequired {
  coreVersion : N;
  coreResource : ResourceInfo;
  coreAccepts : list PaymentRequirementsV2Compat;
  coreExtensions : option value;
  coreError : option jsstring
}.

(** The result of [renewHttp]. *)
Record RenewResponse := mkRenewResponse {
  token : jsstring;
  expiresAt : jsstring;
  sliceSeconds : float
}.

(** [isCoreNetwork(value)] *)
Definition isCoreNetwork (v : jsstring) : bool := isNetworkV2 v.

(** The callback of [value.accepts.map] in [toCorePaymentRequired]. *)
Definition toCoreRequirement (requirement : PaymentRequirementsV2Compat)
    : exn + PaymentRequirementsV2Compat :=
  if negb (isCoreNetwork (network requirement))
  then inl (Error (js "invalid payment network: " ++ network requirement))
  else inr (mkRequirementsV2 (scheme requirement) (network requirement)
              (amount requirement) (asset requirement) (payTo requirement)
              (maxTimeoutSeconds requirement) (extra requirement)).

(** [accepts.map(callback)]: the callback runs on the requirements in
    order and the first exception ends the loop. *)
Fixpoint mapRequirements (l : list PaymentRequirementsV2Compat)
    : exn + list PaymentRequirementsV2Compat :=
  match l with
  | [] => inr []
  | requirement :: rest =>
      match toCoreRequirement requirement with
      | inl e => inl e
      | inr r =>
          match mapRequirements rest with
          | inl e => inl e
          | inr rs => inr (r :: rs)
          end
      end
  end.

(** [toCorePaymentRequired(value: PaymentRequiredV2Compat)] *)
Definition toCorePaymentRequired (v : PaymentRequiredV2Compat) : exn + CorePaymentRequired :=
  match mapRequirements (accepts v) with
  | inl e => inl e
  | inr accepts' =>
      inr (mkCoreRequired 2 (resource v) accepts'
             (match extensions v with
              | Some x => if falsy x then None else Some x
              | None => None
              end)
             (match error v with
              | Some e => if JS.truthy e then Some e else None
              | None => None
              end))
  end.

Section Urls.
(** [new URL(s).pathname], [None] when the constructor throws. *)
Context (URL_pathname : jsstring → option jsstring).
(** [new URL(path, base).toString()], [None] when the constructor throws. *)
Context (URL_resolve : jsstring → jsstring → option jsstring).

(** [parseSchemaVersion(schemaPath)]; the regular expression
    [/^\/(v1|v2)\//] is a test on the first four characters. *)
Definition parseSchemaVersion (schemaPath : jsstring) : X402SchemaVersion :=
  let rawPath :=
    if negb (startsWith (js "http://") schemaPath)
       && negb (startsWith (js "https://") schemaPath)
    then schemaPath
    else match URL_pathname schemaPath with
         | Some p => p
         | None => schemaPath
         end in
  if startsWith (js "/v1/") rawPath then v1
  else if startsWith (js "/v2/") rawPath then v2
  else v1.

(** [buildRenewUrl(httpBase, streamId, version)] *)
Definition buildRenewUrl (httpBase streamId : jsstring) (version : X402SchemaVersion)
    : option jsstring :=
  URL_resolve (js "/" ++ versionName version ++ js "/renew/stream/" ++ streamId) httpBase.
End Urls.

End X402.

(** ** [src/data/streams/client.ts] *)

Module Client.
Import Protocol X402.

(** *** [Set<string>]: the members in insertion order, without repetition *)

(** [set.has(v)] *)
Definition Set_has (v : jsstring) (s : list jsstring) : bool := bool_decide (v ∈ s).

(** [set.add(v)] *)
Definition Set_add (v : jsstring) (s : list jsstring) : list jsstring :=
  if Set_has v s then s else s ++ [v].

(** [set.delete(v)]: the set afterwards and whether [v] was a member. *)
Definition Set_delete (v : jsstring) (s : list jsstring) : list jsstring * bool :=
  (filter (λ w, w ≠ v) s, Set_has v s).

(** [new Set(values)] *)
Definition Set_new (values : list jsstring) : list jsstring :=
  foldl (λ s v, Set_add v s) [] values.

(** *** Messages, events and configuration *)

(** [type EventFormat] *)
Inductive EventFormat := format_raw | format_enhanced.

(** [Partial<ClientOptions>] *)
Record ClientOptions := mkClientOptions {
  includeAccounts : option bool;
  includeTokenBalanceChanges : option bool;
  includeLogs : option bool;
  includeInstructions : option bool;
  eventFormat : option EventFormat;
  filterTokenBalances : option bool
}.

(** [type ClientMsg] *)
Inductive ClientMsg :=
  | msg_resume (clientId : jsstring)
  | msg_renew_token (token : jsstring)
  | msg_renew_inband
      (paymentRequirements : PaymentRequirementsV1Compat + PaymentRequirementsV2Compat)
      (paymentPayload : value)
  | msg_setAccounts (accounts : list jsstring)
  | msg_setPrograms (programs : list jsstring)
  | msg_addAccounts (accounts : list jsstring)
  | msg_removeAccounts (accounts : list jsstring)
  | msg_setMints (mints : list jsstring)
  | msg_addMints (mints : list jsstring)
  | msg_removeMints (mints : list jsstring)
  | msg_setOptions (options : ClientOptions)
  | msg_getState
  | msg_ping.

(** [interface StreamClientEvents]: what the client emits. *)
Inductive ClientEvent :=
  | ev_event (event : value)
  | ev_status (event : value)
  | ev_x402 (event : value)
  | ev_lease (token : jsstring)
  | ev_connected
  | ev_disconnected
  | ev_error (message : jsstring).

(** The asynchronous calls of [handleX402], with their arguments. *)
Inductive ExternalCall :=
  | call_renewHttp (renewUrl oldToken : jsstring)
  | call_renewInband (renewUrl oldToken : jsstring)
  | call_createPaymentPayload (required : CorePaymentRequired).

(** What a run of client code does to the outside, in order: a frame
    written on the socket, an event emitted, an asynchronous call started,
    an exception thrown to the caller. *)
Inductive Output :=
  | Sent (message : ClientMsg)
  | Emitted (event : ClientEvent)
  | Called (call : ExternalCall)
  | Thrown (e : exn).

(** [interface StreamClientConfig], without the signing context. *)
Record StreamClientConfig := mkConfig {
  httpBase : jsstring;
  schemaPath : jsstring;
  renewMethod : RenewMethod;
  streamId : jsstring;
  options : option ClientOptions;
  watchAccounts : option (list jsstring);
  watchPrograms : option (list jsstring);
  watchMints : option (list jsstring)
}.

(** [WebSocket.readyState] *)
Inductive ReadyState := CONNECTING | OPEN | CLOSING | CLOSED.

#[global] Instance ReadyState_eq_dec : EqDecision ReadyState.
Proof. solve_decision. Defined.

(** The fields of [class StreamClient]. *)
Record StreamClient := mkClient {
  config : StreamClientConfig;
  ws : option ReadyState;
  currentToken : option jsstring;
  renewUrl : option jsstring;
  schemaVersion : X402SchemaVersion
}.

Definition with_config (cfg : StreamClientConfig) (c : StreamClient) : StreamClient :=
  mkClient cfg (ws c) (currentToken c) (renewUrl c) (schemaVersion c).

Definition with_watchMints (l : list jsstring) (cfg : StreamClientConfig) :=
  mkConfig (httpBase cfg) (schemaPath cfg) (renewMethod cfg) (streamId cfg)
    (options cfg) (watchAccounts cfg) (watchPrograms cfg) (Some l).

Definition with_watchAccounts (l : list jsstring) (cfg : StreamClientConfig) :=
  mkConfig (httpBase cfg) (schemaPath cfg) (renewMethod cfg) (streamId cfg)
    (options cfg) (Some l) (watchPrograms cfg) (watchMints cfg).

(** A string or [null] used as a condition. *)
Definition present (s : option jsstring) : bool :=
  match s with
  | Some s => JS.truthy s
  | None => false
  end.

(** *** Watch lists *)

(** [send(message: ClientMsg): void] *)
Definition send (message : ClientMsg) (c : StreamClient) : list Output :=
  if bool_decide (ws c = Some OPEN) then [Sent message] else [].

(** [private normalizeList(values)] *)
Definition normalizeList (values : list jsstring) : list jsstring :=
  List.filter JS.truthy (trim <$> values).

(** [private mergeList(current, incoming)]: the pair [(next, added)]. *)
Definition mergeList (current : option (list jsstring)) (incoming : list jsstring)
    : list jsstring * list jsstring :=
  foldl (λ '(nextSet, added) v,
           if negb (Set_has v nextSet) then (Set_add v nextSet, added ++ [v])
           else (nextSet, added))
        (Set_new (default [] current), []) incoming.

(** [private subtractList(current, incoming)]: the pair [(next, removed)]. *)
Definition subtractList (current : option (list jsstring)) (incoming : list jsstring)
    : list jsstring * list jsstring :=
  foldl (λ '(nextSet, removed) v,
           let '(nextSet', deleted) := Set_delete v nextSet in
           if deleted then (nextSet', removed ++ [v]) else (nextSet', removed))
        (Set_new (default [] current), []) incoming.

(** [addMints(mints: string[]): void] *)
Definition addMints (mints : list jsstring) (c : StreamClient) : StreamClient * list Output :=
  let normalized := normalizeList mints in
  if bool_decide (normalized = []) then (c, [])
  else
    let '(next, added) := mergeList (watchMints (config c)) normalized in
    if bool_decide (added = []) then (c, [])
    else
      let c' := with_config (with_watchMints next (config c)) c in
      (c', send (msg_addMints added) c').

(** [removeMints(mints: string[]): void] *)
Definition removeMints (mints : list jsstring) (c : StreamClient) : StreamClient * list Output :=
  let normalized := normalizeList mints in
  if bool_decide (normalized = []) then (c, [])
  else
    let '(next, removed) := subtractList (watchMints (config c)) normalized in
    if bool_decide (removed = []) then (c, [])
    else
      let c' := with_config (with_watchMints next (config c)) c in
      (c', send (msg_removeMints removed) c').

(** [addAccounts(accounts: string[]): void] *)
Definition addAccounts (accounts : list jsstring) (c : StreamClient)
    : StreamClient * list Output :=
  let normalized := normalizeList accounts in
  if bool_decide (normalized = []) then (c, [])
  else
    let '(next, added) := mergeList (watchAccounts (config c)) normalized in
    if bool_decide (added = []) then (c, [])
    else
      let c' := with_config (with_watchAccounts next (config c)) c in
      (c', send (msg_addAccounts added) c').

(** [removeAccounts(accounts: string[]): void] *)
Definition removeAccounts (accounts : list jsstring) (c : StreamClient)
    : StreamClient * list Output :=
  let normalized := normalizeList accounts in
  if bool_decide (normalized = []) then (c, [])
  else
    let '(next, removed) := subtractList (watchAccounts (config c)) normalized in
    if bool_decide (removed = []) then (c, [])
    else
      let c' := with_config (with_watchAccounts next (config c)) c in
      (c', send (msg_removeAccounts removed) c').

(** [list?.length] used as a condition *)
Definition nonEmpty (l : option (list jsstring)) : bool :=
  match l with
  | Some (_ :: _) => true
  | _ => false
  end.

(** [private applyOptionsAndWatchlists(): void] *)
Definition applyOptionsAndWatchlists (c : StreamClient) : list Output :=
  let cfg := config c in
  (match options cfg with Some o => send (msg_setOptions o) c | None => [] end)
  ++ (if nonEmpty (watchAccounts cfg)
      then send (msg_setAccounts (default [] (watchAccounts cfg))) c else [])
  ++ (if nonEmpty (watchPrograms cfg)
      then send (msg_setPrograms (default [] (watchPrograms cfg))) c else [])
  ++ (if nonEmpty (watchMints cfg)
      then send (msg_setMints (default [] (watchMints cfg))) c else []).

(** The four watch-list calls of the public interface. *)
Inductive WatchCall :=
  | AddMints (mints : list jsstring)
  | RemoveMints (mints : list jsstring)
  | AddAccounts (accounts : list jsstring)
  | RemoveAccounts (accounts : list jsstring).

Definition watch (call : WatchCall) (c : StreamClient) : StreamClient * list Output :=
  match call with
  | AddMints l => addMints l c
  | RemoveMints l => removeMints l c
  | AddAccounts l => addAccounts l c
  | RemoveAccounts l => removeAccounts l c
  end.

(** A sequence of watch-list calls: for each call, the client before it,
    the call, the client after it and what the call put out. *)
Fixpoint watchAll (calls : list WatchCall) (c : StreamClient)
    : list (StreamClient * WatchCall * StreamClient * list Output) :=
  match calls with
  | [] => []
  | call :: rest =>
      let '(c', out) := watch call c in
      (c, call, c', out) :: watchAll rest c'
  end.

(** *** Frame dispatch and lease renewal *)

(** [private setLeaseToken(token: string): void] *)
Definition setLeaseToken (token : jsstring) (c : StreamClient)
    : StreamClient * list Output :=
  (mkClient (config c) (ws c) (Some token) (renewUrl c) (schemaVersion c),
   [Emitted (ev_lease token)]).

(** Where a run of [handleX402] is suspended at an [await]. *)
Inductive Pending :=
  | AwaitRenewHttp
  | AwaitRenewInband
  | AwaitCreatePayload (paymentRequired : PaymentRequiredV2Compat).

(** What an awaited call settles with. *)
Inductive Settled :=
  | SettledRenew (renewed : RenewResponse)
  | SettledRequired (paymentRequired : PaymentRequired)
  | SettledPayload (paymentPayload : value).

Definition message_of (e : exn) : jsstring :=
  match e with
  | Error m | RangeError m | TypeError m | SyntaxError m => m
  end.

(** The [catch] clause of [handleX402]. *)
Definition caught (e : exn) : list Output := [Emitted (ev_error (message_of e))].

(** [private async handleX402(event)], up to its first [await]: the
    outputs and, when the run is suspended, where. *)
Definition handleX402 (event : value) (c : StreamClient) : list Output * option Pending :=
  if negb (present (renewUrl c)) || negb (present (currentToken c)) then ([], None)
  else
    match get event (js "op") with
    | Some (VStr op) =>
        if bool_decide (op ≠ js "renewal_reminder")
           && bool_decide (op ≠ js "payment_required") then ([], None)
        else if bool_decide (renewMethod (config c) = http) then
          ([Called (call_renewHttp (default [] (renewUrl c)) (default [] (currentToken c)))],
           Some AwaitRenewHttp)
        else if bool_decide (schemaVersion c ≠ v2) then
          ([Emitted (ev_error (js "inband renewal requires v2 schema"))], None)
        else
          ([Called (call_renewInband (default [] (renewUrl c)) (default [] (currentToken c)))],
           Some AwaitRenewInband)
    | _ => ([], None)
    end.

(** [handleX402] after [await renewHttp(...)]. *)
Definition afterRenewHttp (r : exn + RenewResponse) (c : StreamClient)
    : StreamClient * list Output :=
  match r with
  | inl e => (c, caught e)
  | inr renewed =>
      let '(c', out) := setLeaseToken (token renewed) c in
      (c', out ++ send (msg_renew_token (token renewed)) c')
  end.

(** [handleX402] after [await renewInband(...)], up to the next [await]. *)
Definition afterRenewInband (r : exn + PaymentRequired) (c : StreamClient)
    : list Output * option Pending :=
  match r with
  | inl e => (caught e, None)
  | inr (RequiredV1 p) =>
      (caught (Error (js "unsupported payment version: 1")), None)
  | inr (RequiredV2 p) =>
      if bool_decide (accepts p = []) then
        (caught (Error (js "payment-required missing accepts")), None)
      else
        match toCorePaymentRequired p with
        | inl e => (caught e, None)
        | inr coreRequired =>
            ([Called (call_createPaymentPayload coreRequired)],
             Some (AwaitCreatePayload p))
        end
  end.

(** [handleX402] after [await createPaymentPayload(...)]. *)
Definition afterCreatePayload (paymentRequired : PaymentRequiredV2Compat)
    (r : exn + value) (c : StreamClient) : list Output :=
  match r with
  | inl e => caught e
  | inr paymentPayload =>
      if negb (isPaymentPayload (Some paymentPayload)) then
        caught (Error (js "payment payload shape invalid"))
      else if negb (versionIs 2 paymentPayload) then
        caught (Error (js "unexpected payment payload version: 1"))
      else
        match accepts paymentRequired with
        | [] => caught (Error (js "payment-required missing accepts"))
        | selected :: _ => send (msg_renew_inband (inr selected) paymentPayload) c
        end
  end.

(** The handler of the socket's [message] event, from the decoded frame
    on: the outputs and the suspended run of [handleX402], if any. *)
Definition dispatch (decoded : value) (c : StreamClient) : list Output * option Pending :=
  if falsy decoded then ([], None)
  else if isWsX402Event decoded then
    let '(out, k) := handleX402 decoded c in
    (Emitted (ev_x402 decoded) :: out, k)
  else
    ((if isWsStatusEvent decoded then [Emitted (ev_status decoded)] else [])
     ++ (if isWsEvent decoded then [Emitted (ev_event decoded)] else []),
     None).

Section Session.
Context (URL_pathname : jsstring → option jsstring).
Context (URL_resolve : jsstring → jsstring → option jsstring).
(** [JSON.parse(raw)], [None] when it throws. *)
Context (JSON_parse : jsstring → option value).

(** [constructor(config: StreamClientConfig)] *)
Definition new (cfg : StreamClientConfig) : exn + StreamClient :=
  inr (mkClient cfg None None None (parseSchemaVersion URL_pathname (schemaPath cfg))).

(** [safeJsonParse(raw)] *)
Definition safeJsonParse (raw : jsstring) : value :=
  match JSON_parse raw with
  | Some v => v
  | None => VNull
  end.

(** The handler of the socket's [message] event; [raw] is the result
    of [decodeMessage]. *)
Definition onMessage (raw : option jsstring) (c : StreamClient)
    : list Output * option Pending :=
  match raw with
  | Some raw => if JS.truthy raw then dispatch (safeJsonParse raw) c else ([], None)
  | None => ([], None)
  end.

(** [connect()] after [await requestStreamSchema(...)] has returned
    [{ wsUrl, token, streamId }], when [new WebSocket(wsUrl)] creates the
    socket; [connectRejected] and [connectedNoSocket] below are the two
    other ways the call can go. *)
Definition connected (wsUrl token id : jsstring) (c : StreamClient)
    : StreamClient * list Output :=
  if bool_decide (id ≠ streamId (config c)) then
    (c, [Thrown (Error (js "schema stream mismatch: expected " ++ streamId (config c)
                          ++ js " got " ++ id))])
  else
    let '(c1, out) := setLeaseToken token c in
    match buildRenewUrl URL_resolve (httpBase (config c1)) id (schemaVersion c1) with
    | None => (c1, out ++ [Thrown (TypeError (js "Invalid URL"))])
    | Some u =>
        (mkClient (config c1) (Some CONNECTING) (currentToken c1) (Some u)
           (schemaVersion c1), out)
    end.

(** [connect()] when [await requestStreamSchema(...)] rejects with [e]:
    the rejection is that of [connect()], and nothing was done before it. *)
Definition connectRejected (e : exn) (c : StreamClient) : StreamClient * list Output :=
  (c, [Thrown e]).

(** [connect()] after [await requestStreamSchema(...)] has returned
    [{ wsUrl, token, streamId }], when [new WebSocket(wsUrl)] throws [e]:
    the lease token and the renewal URL are set by then, [this.ws] is not
    assigned and no handler is registered. *)
Definition connectedNoSocket (wsUrl token id : jsstring) (e : exn) (c : StreamClient)
    : StreamClient * list Output :=
  if bool_decide (id ≠ streamId (config c)) then
    (c, [Thrown (Error (js "schema stream mismatch: expected " ++ streamId (config c)
                          ++ js " got " ++ id))])
  else
    let '(c1, out) := setLeaseToken token c in
    match buildRenewUrl URL_resolve (httpBase (config c1)) id (schemaVersion c1) with
    | None => (c1, out ++ [Thrown (TypeError (js "Invalid URL"))])
    | Some u =>
        (mkClient (config c1) (ws c1) (currentToken c1) (Some u) (schemaVersion c1),
         out ++ [Thrown e])
    end.

(** [disconnect(): void] *)
Definition disconnect (c : StreamClient) : StreamClient :=
  mkClient (config c) None (currentToken c) (renewUrl c) (schemaVersion c).

(** The handler of the socket's [open] event. *)
Definition onOpen (c : StreamClient) : list Output :=
  Emitted ev_connected :: applyOptionsAndWatchlists c ++ send msg_getState c.

(** A session: the client and the runs of [handleX402] that are
    suspended at an [await]. *)
Record Session := mkSession {
  client : StreamClient;
  inflight : list Pending
}.

(** What happens to a session.

    A call of [connect()] is one of [InConnectRejected] (the schema request
    rejects), [InConnected] (the schema request returns and the socket is
    created) and [InConnectedNoSocket] (the schema request returns and
    [new WebSocket] throws).

    [InOpen] and [InClose] are the [open] and [close] events of the socket
    that [this.ws] holds, whose [readyState] they change. The handlers of
    a socket stay registered when a later [connect()] replaces [this.ws]
    or [disconnect()] clears it: the [open] and [close] events of such an
    earlier socket are [InStaleOpen] and [InStaleClose], which run the same
    handlers and leave [this.ws] and its [readyState] alone. The [message]
    and [error] handlers do not look at the socket, so [InMessage] and
    [InError] stand for those events of any socket. *)
Inductive Input :=
  | InConnected (wsUrl token id : jsstring)
  | InOpen
  | InMessage (raw : option jsstring)
  | InClose
  | InError (message : jsstring)
  | InDisconnect
  | InWatch (call : WatchCall)
  | InSettle (i : nat) (r : exn + Settled)
  | InConnectRejected (e : exn)
  | InConnectedNoSocket (wsUrl token id : jsstring) (e : exn)
  | InStaleOpen
  | InStaleClose.

Definition suspend (k : option Pending) (l : list Pending) : list Pending :=
  match k with
  | Some k => l ++ [k]
  | None => l
  end.

Definition set_ws (state : option ReadyState) (c : StreamClient) : StreamClient :=
  mkClient (config c) state (currentToken c) (renewUrl c) (schemaVersion c).

(** The continuation of a suspended run when its call settles. A
    settlement of the wrong kind for the call is not an event of the
    system and is skipped (second component [false]). *)
Definition resume (k : Pending) (r : exn + Settled) (c : StreamClient)
    : (StreamClient * list Output * option Pending) * bool :=
  match k, r with
  | AwaitRenewHttp, inl e => (afterRenewHttp (inl e) c, None, true)
  | AwaitRenewHttp, inr (SettledRenew renewed) =>
      (afterRenewHttp (inr renewed) c, None, true)
  | AwaitRenewInband, inl e =>
      let '(out, k') := afterRenewInband (inl e) c in ((c, out, k'), true)
  | AwaitRenewInband, inr (SettledRequired p) =>
      let '(out, k') := afterRenewInband (inr p) c in ((c, out, k'), true)
  | AwaitCreatePayload p, inl e => ((c, afterCreatePayload p (inl e) c, None), true)
  | AwaitCreatePayload p, inr (SettledPayload v) =>
      ((c, afterCreatePayload p (inr v) c, None), true)
  | _, _ => ((c, [], None), false)
  end.

(** One step of a session. *)
Definition step (i : Input) (s : Session) : Session * list Output :=
  let c := client s in
  match i with
  | InConnected wsUrl token id =>
      let '(c', out) := connected wsUrl token id c in
      (mkSession c' (inflight s), out)
  | InOpen =>
      match ws c with
      | Some _ => let c' := set_ws (Some OPEN) c in (mkSession c' (inflight s), onOpen c')
      | None => (s, [])
      end
  | InMessage raw =>
      let '(out, k) := onMessage raw c in
      (mkSession c (suspend k (inflight s)), out)
  | InClose =>
      (mkSession (match ws c with Some _ => set_ws (Some CLOSED) c | None => c end)
         (inflight s),
       [Emitted ev_disconnected])
  | InError message => (s, [Emitted (ev_error message)])
  | InDisconnect => (mkSession (disconnect c) (inflight s), [])
  | InWatch call =>
      let '(c', out) := watch call c in (mkSession c' (inflight s), out)
  | InSettle n r =>
      match inflight s !! n with
      | Some k =>
          let '((c', out, k'), ok) := resume k r c in
          if ok then (mkSession c' (suspend k' (delete n (inflight s))), out)
          else (s, [])
      | None => (s, [])
      end
  | InConnectRejected e =>
      let '(c', out) := connectRejected e c in (mkSession c' (inflight s), out)
  | InConnectedNoSocket wsUrl token id e =>
      let '(c', out) := connectedNoSocket wsUrl token id e c in
      (mkSession c' (inflight s), out)
  | InStaleOpen => (s, onOpen c)
  | InStaleClose => (s, [Emitted ev_disconnected])
  end.

(** A run of a session: for each input, the session before it and the
    outputs of the step. *)
Fixpoint run (inputs : list Input) (s : Session) : list (Session * Input * list Output) :=
  match inputs with
  | [] => []
  | i :: rest =>
      let '(s', out) := step i s in
      (s, i, out) :: run rest s'
  end.

(** The session after a run. *)
Definition final (inputs : list Input) (s : Session) : Session :=
  foldl (λ s i, (step i s).1) s inputs.

End Session.

End Client.

(** ** The watch-list deltas, as the specification words them *)

Module WatchSpec.
Import Client.

(** The list without repetitions, each member at its first occurrence. *)
Fixpoint first_occurrences (l : list jsstring) : list jsstring :=
  match l with
  | [] => []
  | v :: l' => v :: filter (λ w, w ≠ v) (first_occurrences l')
  end.

(** The watch-set a call works on. *)
Definition watched (call : WatchCall) (c : StreamClient) : list jsstring :=
  match call with
  | AddMints _ | RemoveMints _ => default [] (watchMints (config c))
  | AddAccounts _ | RemoveAccounts _ => default [] (watchAccounts (config c))
  end.

(** The delta of a call against the current watch-set: for an add, the
    normalized incoming items not already present; for a remove, the
    normalized incoming items actually present. *)
Definition delta (call : WatchCall) (c : StreamClient) : list jsstring :=
  match call with
  | AddMints l | AddAccounts l =>
      first_occurrences (filter (λ v, v ∉ watched call c) (normalizeList l))
  | RemoveMints l | RemoveAccounts l =>
      first_occurrences (filter (λ v, v ∈ watched call c) (normalizeList l))
  end.

(** The wire message of a call that carries the items [d]. *)
Definition message (call : WatchCall) (d : list jsstring) : ClientMsg :=
  match call with
  | AddMints _ => msg_addMints d
  | RemoveMints _ => msg_removeMints d
  | AddAccounts _ => msg_addAccounts d
  | RemoveAccounts _ => msg_removeAccounts d
  end.

(** Membership in the watch-set after a call with delta [d]. *)
Definition updated (call : WatchCall) (before d : list jsstring) (v : jsstring) : Prop :=
  match call with
  | AddMints _ | AddAccounts _ => v ∈ before ∨ v ∈ d
  | RemoveMints _ | RemoveAccounts _ => v ∈ before ∧ v ∉ d
  end.

(** What the claim asks of one call: at most one message, carrying
    exactly the delta; nothing sent and nothing changed when the delta is
    empty; the message is sent when the socket is open; and the watch-set
    moves by the delta. *)
Definition sends_exact_delta (pre : StreamClient) (call : WatchCall)
    (post : StreamClient) (out : list Output) : Prop :=
  let d := delta call pre in
  (out = [] ∨ (d ≠ [] ∧ out = [Sent (message call d)]))
  ∧ (d = [] → out = [] ∧ post = pre)
  ∧ (d ≠ [] → ws pre = Some OPEN → out = [Sent (message call d)])
  ∧ (d ≠ [] → ∀ v, v ∈ watched call post ↔ updated call (watched call pre) d v)
  ∧ ws post = ws pre.

End WatchSpec.

(** ** [src/app.ts]: the spend ledger of [DashboardApp] *)

Module Ledger.
Import X402.

Abbreviation StreamId := jsstring.

(** [type X402PriceHint] *)
Record X402PriceHint := mkPriceHint {
  amountRaw : Z;
  hintAsset : jsstring
}.

(** [type X402SpendState] *)
Record X402SpendState := mkSpendState {
  totalRaw : Z;
  spendAsset : jsstring
}.

(** [type StreamRuntimeState] *)
Record StreamRuntimeState := mkRuntimeState {
  stateStreamId : StreamId;
  enabled : bool;
  connected : bool;
  watchedAccounts : option float;
  watchedMints : option float;
  lastError : option jsstring
}.

(** One side of [type RenewHints]; the handler reads [priceHint] only,
    through optional chaining. *)
Record RenewHint := mkRenewHint {
  endpoint : jsstring;
  priceHint : option jsstring
}.

(** [type RenewHints] *)
Record RenewHints := mkRenewHints {
  hintHttp : option RenewHint;
  hintInband : option RenewHint
}.

(** [type WsX402Event] *)
Inductive WsX402Event :=
  | hello (clientId expiresAt : jsstring) (sliceSeconds : float)
  | renewal_reminder (expiresAt : jsstring) (msUntilExpiry : float) (renew : option RenewHints)
  | payment_required (renew : option RenewHints)
  | renewed (expiresAt : jsstring) (method : RenewMethod)
  | error (message : jsstring).

(** The ledger fields of [class DashboardApp]. *)
Record DashboardApp := mkApp {
  pendingCharges : gmap StreamId X402PriceHint;
  spendTotals : gmap StreamId X402SpendState;
  streamStates : gmap StreamId StreamRuntimeState
}.

(** The loop of [parsePriceHint] over the parts of the hint. *)
Definition scanPart (acc : option jsstring * option jsstring) (part : jsstring)
    : option jsstring * option jsstring :=
  let '(amount, asset) := acc in
  match split 61 part with
  | key :: value :: _ =>
      if negb (JS.truthy key) || negb (JS.truthy value) then acc
      else if bool_decide (key = js "amount") || bool_decide (key = js "maxAmount")
      then (Some value, asset)
      else if bool_decide (key = js "asset") then (amount, Some value)
      else acc
  | _ => acc
  end.

(** [private parsePriceHint(hint: string): X402PriceHint | null] *)
Definition parsePriceHint (hint : jsstring) : option X402PriceHint :=
  let parts := split_ws (trim hint) in
  match foldl scanPart (None, None) parts with
  | (Some amount, Some asset) =>
      if negb (JS.truthy amount) || negb (JS.truthy asset) then None
      else match BigInt amount with
           | Some n => Some (mkPriceHint n asset)
           | None => None
           end
  | _ => None
  end.

(** [event.renew?.http?.priceHint ?? event.renew?.inband?.priceHint] *)
Definition selectHint (renew : option RenewHints) : option jsstring :=
  match renew with
  | Some r =>
      match from_option priceHint None (hintHttp r) with
      | Some h => Some h
      | None => from_option priceHint None (hintInband r)
      end
  | None => None
  end.

(** [private updateStreamState(streamId, patch)] for the patch
    [{ lastError }]. *)
Definition updateLastError (streamId : StreamId) (message : jsstring) (app : DashboardApp)
    : DashboardApp :=
  let existing :=
    default (mkRuntimeState streamId false false None None None)
            (streamStates app !! streamId) in
  let next := mkRuntimeState streamId (enabled existing) (connected existing)
                (watchedAccounts existing) (watchedMints existing) (Some message) in
  mkApp (pendingCharges app) (spendTotals app) (<[streamId := next]> (streamStates app)).

(** The branch of [handleX402Event] for [renewal_reminder] and
    [payment_required]. *)
Definition recordPending (streamId : StreamId) (renew : option RenewHints)
    (app : DashboardApp) : DashboardApp :=
  match selectHint renew with
  | Some hint =>
      if JS.truthy hint then
        match parsePriceHint hint with
        | Some parsed =>
            mkApp (<[streamId := parsed]> (pendingCharges app))
              (match spendTotals app !! streamId with
               | Some _ => spendTotals app
               | None => <[streamId := mkSpendState 0 (hintAsset parsed)]> (spendTotals app)
               end)
              (streamStates app)
        | None => app
        end
      else app
  | None => app
  end.

(** [private handleX402Event(streamId, event): void] *)
Definition handleX402Event (streamId : StreamId) (event : WsX402Event) (app : DashboardApp)
    : DashboardApp :=
  match event with
  | renewal_reminder _ _ renew | payment_required renew => recordPending streamId renew app
  | renewed _ _ =>
      match pendingCharges app !! streamId with
      | None => app
      | Some pending =>
          let current :=
            default (mkSpendState 0 (hintAsset pending)) (spendTotals app !! streamId) in
          let total := (totalRaw current + amountRaw pending)%Z in
          mkApp (delete streamId (pendingCharges app))
            (<[streamId := mkSpendState total (hintAsset pending)]> (spendTotals app))
            (streamStates app)
      end
  | error message => updateLastError streamId message app
  | hello _ _ _ => app
  end.

(** [private applySpendCharge(streamId, charge): void], run by the
    payment hook. *)
Definition applySpendCharge (streamId : StreamId) (charge : X402PriceHint)
    (app : DashboardApp) : DashboardApp :=
  let current := spendTotals app !! streamId in
  let total := (from_option totalRaw 0 current + amountRaw charge)%Z in
  let asset := from_option spendAsset (hintAsset charge) current in
  mkApp (pendingCharges app) (<[streamId := mkSpendState total asset]> (spendTotals app))
    (streamStates app).

(** The total shown for a stream by [updateSpendPanel]:
    [spend?.totalRaw ?? 0n]. *)
Definition confirmedTotal (streamId : StreamId) (app : DashboardApp) : Z :=
  from_option totalRaw 0%Z (spendTotals app !! streamId).

(** The events of a run, each with the stream whose client emitted it. *)
Definition handleAll (events : list (StreamId * WsX402Event)) (app : DashboardApp)
    : DashboardApp :=
  foldl (λ a e, handleX402Event e.1 e.2 a) app events.

End Ledger.

(** ** The properties of dispatch, renewal and network identifiers, as the
    specification words them *)

Module ProtocolSpec.
Import Protocol X402 Client.

(** The three categories of inbound frames. *)
Inductive Category := LeaseControl | Status | DomainEvent.

#[global] Instance Category_eq_dec : EqDecision Category.
Proof. solve_decision. Defined.

Definition category (o : Output) : option Category :=
  match o with
  | Emitted (ev_x402 _) => Some LeaseControl
  | Emitted (ev_status _) => Some Status
  | Emitted (ev_event _) => Some DomainEvent
  | _ => None
  end.

(** The categories a frame was dispatched under, in order. *)
Definition categories (out : list Output) : list Category := omap category out.

Definition is_error (o : Output) : bool :=
  match o with
  | Emitted (ev_error _) | Thrown _ => true
  | _ => false
  end.

(** The token a renewal call is given. *)
Definition renewal_token (o : Output) : option jsstring :=
  match o with
  | Called (call_renewHttp _ t) | Called (call_renewInband _ t) => Some t
  | _ => None
  end.

(** The token a lease announcement carries. *)
Definition lease_token (o : Output) : option jsstring :=
  match o with
  | Emitted (ev_lease t) => Some t
  | _ => None
  end.

(** The most recent lease token announced in a log of outputs. *)
Definition last_lease (log : list Output) : option jsstring :=
  last (omap lease_token log).

(** The outputs carry no lease announcement and no renewal call. *)
Definition silent (out : list Output) : Prop :=
  omap lease_token out = [] ∧ omap renewal_token out = [].

(** Every renewal call in the outputs is given the token [current]. *)
Definition renewals_use (current : option jsstring) (out : list Output) : Prop :=
  ∀ t : jsstring, t ∈ omap renewal_token out → current = Some t.

(** The outputs of a run, step after step. *)
Definition log (steps : list (Session * Input * list Output)) : list Output :=
  concat (snd <$> steps).

(** A two-part composite identifier: a non-empty namespace, the separator
    [:], and a non-empty reference. The namespace is what precedes the
    separator, so it holds no separator itself. *)
Definition composite_identifier (s : jsstring) : Prop :=
  ∃ namespace reference : jsstring,
    s = namespace ++ 58%N :: reference
    ∧ namespace ≠ [] ∧ reference ≠ [] ∧ 58%N ∉ namespace.

End ProtocolSpec.

(** ** Sample values used to exercise the model *)

Module Samples.
Import Store.

(** A ring as the constructor leaves it. *)
Definition empty_ring {T} (c : N) : Ring.RingBuffer T :=
  Ring.mkRingBuffer ∅ (Some 0%N) (Some 0%N) 0 c.

(** [new DashboardStore()] as built by [DashboardApp]. *)
Definition fresh_store : @DashboardStore unit unit unit :=
  mkStore ∅ ∅ (empty_ring 1000) (empty_ring 1000) (empty_ring 100) ∅
    (mkStats 0 0 0%float 0 0 None) (empty_ring 1000) (empty_ring 1000) 300%float.

Definition sample_price (p : float) : PriceData :=
  mkPriceData (js "SOL/USDC") (js "SOL/USDC") p raydium 1%float None.

(** A [renewal_reminder] whose HTTP hint prices the renewal at 500 units
    of asset [X]. *)
Definition sample_reminder : Ledger.WsX402Event :=
  Ledger.renewal_reminder (js "2026-01-01T00:00:00Z") 30000%float
    (Some (Ledger.mkRenewHints
             (Some (Ledger.mkRenewHint (js "/v2/renew/stream/token-ticker")
                      (Some (js "amount=500 asset=X"))))
             None)).

Definition sample_renewed : Ledger.WsX402Event :=
  Ledger.renewed (js "2026-01-01T00:05:00Z") X402.http.

(** A [payment_required] whose in-band hint prices the renewal at 700
    units of asset [Y]. *)
Definition sample_payment_required : Ledger.WsX402Event :=
  Ledger.payment_required
    (Some (Ledger.mkRenewHints None
             (Some (Ledger.mkRenewHint (js "/v2/renew/stream/token-ticker")
                      (Some (js "amount=700 asset=Y")))))).

Definition empty_app : Ledger.DashboardApp := Ledger.mkApp ∅ ∅ ∅.

(** A client configured for in-band renewal against a version-1 schema
    path, connected and holding a lease. *)
Definition inband_v1_config : Client.StreamClientConfig :=
  Client.mkConfig (js "https://api.example") (js "/v1/schema/stream/token-ticker")
    X402.inband (js "token-ticker") None None None None.

Definition inband_v1_client : Client.StreamClient :=
  Client.mkClient inband_v1_config (Some Client.OPEN) (Some (js "lease-1"))
    (Some (js "https://api.example/v1/renew/stream/token-ticker")) X402.v1.

(** A status frame: [{ "type": "status", "now": "2026-01-01T00:00:00Z" }]. *)
Definition status_frame : Protocol.value :=
  Protocol.VObj {[ js "type" := Protocol.VStr (js "status");
                   js "now" := Protocol.VStr (js "2026-01-01T00:00:00Z") ]}.

(** A reminder frame: [{ "op": "renewal_reminder" }]. *)
Definition reminder_frame : Protocol.value :=
  Protocol.VObj {[ js "op" := Protocol.VStr (js "renewal_reminder") ]}.

(** A version-2 challenge with one requirement on [solana:mainnet]. *)
Definition mainnet_required : X402.PaymentRequiredV2Compat :=
  X402.mkRequiredV2
    (X402.mkResourceInfo (js "/v2/renew/stream/token-ticker") (js "renew") (js "application/json"))
    [X402.mkRequirementsV2 (js "exact") (js "solana:mainnet") (js "1000000") (js "USDC")
       (js "payee") 60%float (Protocol.VObj ∅)]
    None None.

(** A client configured for HTTP renewal on a version-2 schema path. *)
Definition http_v2_config : Client.StreamClientConfig :=
  Client.mkConfig (js "https://api.example") (js "/v2/schema/stream/token-ticker")
    X402.http (js "token-ticker") None None None (Some [js "mintA"]).

(** A session of that client: connect, open, two reminders, the first
    renewal settles with a new token, a third reminder. *)
Definition http_session_inputs : list Client.Input :=
  [Client.InConnected (js "wss://api.example/ws?t=lease-1") (js "lease-1") (js "token-ticker");
   Client.InOpen;
   Client.InMessage (Some (js "reminder"));
   Client.InMessage (Some (js "reminder"));
   Client.InSettle 0 (inr (Client.SettledRenew
                             (X402.mkRenewResponse (js "lease-2") (js "later") 60%float)));
   Client.InMessage (Some (js "reminder"))].

(** Every frame decodes to the reminder frame. *)
Definition parse_reminder : jsstring → option Protocol.value := λ _, Some reminder_frame.

(** URLs resolve by concatenation. *)
Definition resolve_concat : jsstring → jsstring → option jsstring :=
  λ path base, Some (base ++ path).

(** [new DashboardStore()] whose swap quotes are numbers. *)
Definition numbered_store : @Store.DashboardStore nat unit unit :=
  Store.mkStore ∅ ∅ (empty_ring 1000) (empty_ring 1000) (empty_ring 100) ∅
    (Store.mkStats 0 0 0%float 0 0 None) (empty_ring 1000) (empty_ring 1000) 300%float.

(** [new DashboardStore({ priceHistoryLength: n })] whose swap quotes are
    numbers. *)
Definition history_store (n : float) : @Store.DashboardStore nat unit unit :=
  Store.mkStore ∅ ∅ (empty_ring 1000) (empty_ring 1000) (empty_ring 100) ∅
    (Store.mkStats 0 0 0%float 0 0 None) (empty_ring 1000) (empty_ring 1000) n.

(** A version-2 requirement of 1000000 units of USDC on [solana:mainnet],
    as a decoded JSON object. *)
Definition usdc_requirement : Protocol.value :=
  Protocol.VObj {[ js "scheme" := Protocol.VStr (js "exact");
                   js "network" := Protocol.VStr (js "solana:mainnet");
                   js "amount" := Protocol.VStr (js "1000000");
                   js "asset" := Protocol.VStr (js "USDC");
                   js "payTo" := Protocol.VStr (js "payee");
                   js "maxTimeoutSeconds" := Protocol.VNum 60%float;
                   js "extra" := Protocol.VObj ∅ ]}.

(** A version-2 payment payload for that requirement, as a decoded JSON
    object. *)
Definition usdc_payload : Protocol.value :=
  Protocol.VObj {[ js "x402Version" := Protocol.VNum 2%float;
                   js "resource" :=
                     Protocol.VObj {[ js "url" := Protocol.VStr (js "/v2/renew/stream/token-ticker");
                                      js "description" := Protocol.VStr (js "renew");
                                      js "mimeType" := Protocol.VStr (js "application/json") ]};
                   js "accepted" := usdc_requirement;
                   js "payload" := Protocol.VObj ∅ ]}.

(** A client with in-band renewal on a version-2 schema, open and holding
    a lease. *)
Definition inband_v2_client : Client.StreamClient :=
  Client.mkClient
    (Client.mkConfig (js "https://api.example") (js "/v2/schema/stream/token-ticker")
       X402.inband (js "token-ticker") None None None None)
    (Some Client.OPEN) (Some (js "lease-1"))
    (Some (js "https://api.example/v2/renew/stream/token-ticker")) X402.v2.

(** No URL parses. *)
Definition no_url : jsstring → option jsstring := λ _, None.

End Samples.

(** ** The contents of a ring, as a list *)

Module RingSpec.
Import Ring.

(** The last [n] elements of [l]. *)
Definition keep_last {T} (n : nat) (l : list T) : list T :=
  drop (List.length l - n) l.

(** [repr rb l]: the ring holds exactly the items [l], oldest first. *)
Definition repr {T} (rb : RingBuffer T) (l : list T) : Prop :=
  count rb = N.of_nat (List.length l) ∧
  (count rb ≤ capacity rb)%N ∧
  ((0 < capacity rb)%N →
   ∃ h : N, head rb = Some h ∧ (h < capacity rb)%N ∧
            tail rb = Some ((h + count rb) mod capacity rb)%N ∧
            ∀ (i : nat) (x : T), l !! i = Some x →
              buffer rb !! Some ((h + N.of_nat i) mod capacity rb)%N = Some x).

End RingSpec.

(** ** [src/state/store.ts]: the readers, and runs of store calls *)

Module StoreOps.
Import Store.

(** [array.slice(start)] for an integer [start]: a negative [start] counts
    from the end. *)
Definition Array_slice {A} (start : Z) (l : list A) : list A :=
  let len := Z.of_nat (List.length l) in
  if (start <? 0)%Z then drop (Z.to_nat (Z.max (len + start) 0)) l
  else drop (Z.to_nat (Z.min start len)) l.

Section StoreOps.
Context {WsSwapQuoteEvent WsPoolCreatedEvent WsPoolReservesEvent : Type}.
Context (notionalUsd : WsSwapQuoteEvent → option float).
Context (pool : WsPoolReservesEvent → jsstring).

Abbreviation DashboardStore :=
  (@DashboardStore WsSwapQuoteEvent WsPoolCreatedEvent WsPoolReservesEvent).

(** [getRecentSwaps(count = 50)], for an integer [count]. *)
Definition getRecentSwaps (count : Z) (st : DashboardStore) : list WsSwapQuoteEvent :=
  Array_slice (- count) (Ring.toArray (swaps st)).

(** [getRecentPools(count = 20)], for an integer [count]. *)
Definition getRecentPools (count : Z) (st : DashboardStore) : list WsPoolCreatedEvent :=
  Array_slice (- count) (Ring.toArray (pools st)).

(** A call of one of the mutators of the store, with the readings of
    [Date.now()] it takes. *)
Inductive StoreCall :=
  | UpdatePrice (now : Z) (data : PriceData)
  | AddSwapQuote (now1 now2 : Z) (swap : WsSwapQuoteEvent)
  | AddSwapAlert (now1 now2 : Z) (swap : WsSwapQuoteEvent)
  | AddPool (p : WsPoolCreatedEvent)
  | UpdateReserves (r : WsPoolReservesEvent).

(** The store after a call; an exception thrown by [updatePrice] leaves the
    store as the call had changed it up to there. *)
Definition apply (call : StoreCall) (st : DashboardStore) : DashboardStore :=
  match call with
  | UpdatePrice now data => (updatePrice now data st).1.1
  | AddSwapQuote now1 now2 swap => (addSwapQuote notionalUsd now1 now2 swap st).1
  | AddSwapAlert now1 now2 swap => (addSwapAlert now1 now2 swap st).1
  | AddPool p => (addPool p st).1
  | UpdateReserves r => (updateReserves pool r st).1
  end.

Definition applyAll (calls : list StoreCall) (st : DashboardStore) : DashboardStore :=
  foldl (λ s call, apply call s) st calls.

(** The swap quotes, the alerts, the pools and the price points of one pair
    that a sequence of calls inserts, in order. *)
Definition quotesOf (calls : list StoreCall) : list WsSwapQuoteEvent :=
  omap (λ call, match call with AddSwapQuote _ _ swap => Some swap | _ => None end) calls.

Definition alertsOf (calls : list StoreCall) : list WsSwapQuoteEvent :=
  omap (λ call, match call with AddSwapAlert _ _ swap => Some swap | _ => None end) calls.

Definition poolsOf (calls : list StoreCall) : list WsPoolCreatedEvent :=
  omap (λ call, match call with AddPool p => Some p | _ => None end) calls.

Definition pointsOf (key : jsstring) (calls : list StoreCall) : list PricePoint :=
  omap (λ call, match call with
                | UpdatePrice now data =>
                    if bool_decide (pairKey data = key)
                    then Some (mkPricePoint (price data) now) else None
                | _ => None
                end) calls.

(** The finite notionals that a sequence of calls adds to the statistics,
    in order: those that pass the test of [addSwapQuote]. *)
Definition notionalsOf (calls : list StoreCall) : list float :=
  omap (λ call, match call with
                | AddSwapQuote _ _ swap =>
                    match notionalUsd swap with
                    | Some n => if Number_isFinite n then Some n else None
                    | None => None
                    end
                | _ => None
                end) calls.

End StoreOps.

End StoreOps.

(** ** [src/app.ts]: the payment hook of [DashboardApp] *)

Module Spend.
Import JS Protocol Ledger.

(** [s.includes(needle)] *)
Fixpoint includes (needle s : jsstring) : bool :=
  startsWith needle s
  || match s with
     | [] => false
     | _ :: s' => includes needle s'
     end.

(** [s.indexOf(needle)] for a needle of any length; [-1] when absent. *)
Fixpoint indexOfString (needle s : jsstring) : Z :=
  if startsWith needle s then 0
  else match s with
       | [] => -1
       | _ :: s' =>
           let r := indexOfString needle s' in if (r <? 0)%Z then -1 else (r + 1)%Z
       end.

(** [type PaymentCreatedContext], the three fields the hook reads. *)
Record PaymentCreatedContext := mkContext {
  paymentRequired : value;
  selectedRequirements : value;
  paymentPayload : value
}.

(** [private extractResourceUrlFromPayload(value: unknown): string | null] *)
Definition extractResourceUrlFromPayload (v : value) : option jsstring :=
  if negb (isRecord (Some v)) then None
  else
    let resource := get v (js "resource") in
    if negb (isRecord resource) then None
    else match resource ≫= λ r, get r (js "url") with
         | Some (VStr url) => Some url
         | _ => None
         end.

(** [private extractResourceUrlFromRequirements(value: unknown): string | null] *)
Definition extractResourceUrlFromRequirements (v : value) : option jsstring :=
  if negb (isRecord (Some v)) then None
  else match get v (js "resource") with
       | Some (VStr resource) => Some resource
       | _ => None
       end.

(** [private extractX402ResourceUrl(context): string | null] *)
Definition extractX402ResourceUrl (context : PaymentCreatedContext) : option jsstring :=
  let fromRequired := extractResourceUrlFromPayload (paymentRequired context) in
  if Client.present fromRequired then fromRequired
  else
    let fromPayload := extractResourceUrlFromPayload (paymentPayload context) in
    if Client.present fromPayload then fromPayload
    else extractResourceUrlFromRequirements (selectedRequirements context).

(** [private parsePaymentCharge(value: unknown): X402PriceHint | null] *)
Definition parsePaymentCharge (v : value) : option X402PriceHint :=
  if negb (isPaymentRequirements (Some v)) then None
  else
    let asset := match get v (js "asset") with Some (VStr a) => a | _ => [] end in
    let amount :=
      match get v (js "amount") with
      | Some (VStr a) => Some a
      | _ => match get v (js "maxAmountRequired") with
             | Some (VStr a) => Some a
             | _ => None
             end
      end in
    if negb (Client.present amount) || negb (truthy asset) then None
    else match BigInt (default [] amount) with
         | Some n => Some (mkPriceHint n asset)
         | None => None
         end.

(** [private disableStream(streamId): void], on the ledger: the pending
    charge is dropped and the runtime state patched with
    [{ enabled: false, connected: false }]. *)
Definition disableStream (streamId : StreamId) (app : DashboardApp) : DashboardApp :=
  let existing :=
    default (mkRuntimeState streamId false false None None None)
            (streamStates app !! streamId) in
  let next := mkRuntimeState streamId false false (watchedAccounts existing)
                (watchedMints existing) (lastError existing) in
  mkApp (delete streamId (pendingCharges app)) (spendTotals app)
    (<[streamId := next]> (streamStates app)).

Section Hook.
(** [new URL(resourceUrl, "http://localhost").pathname], [None] when the
    constructor throws. *)
Context (URL_pathname_at_localhost : jsstring → option jsstring).

(** [private normalizeResourcePath(resourceUrl: string): string] *)
Definition normalizeResourcePath (resourceUrl : jsstring) : jsstring :=
  match URL_pathname_at_localhost resourceUrl with
  | Some pathname => pathname
  | None => resourceUrl
  end.

(** [private parseSchemaStreamId(resourceUrl: string): StreamId | null] *)
Definition parseSchemaStreamId (resourceUrl : jsstring) : option StreamId :=
  let path := normalizeResourcePath resourceUrl in
  if includes (js "/renew/") path then None
  else
    let marker := js "/schema/stream/" in
    let idx := indexOfString marker path in
    if (idx =? -1)%Z then None
    else
      let streamId :=
        default [] (head (split 47 (StoreOps.Array_slice
                                      (idx + Z.of_nat (List.length marker)) path))) in
      if negb (truthy streamId) then None
      else if isStreamId streamId then Some streamId else None.

(** [private recordSchemaSpend(context: PaymentCreatedContext): void], the
    body of the hook registered by [registerX402PaymentHooks]. *)
Definition recordSchemaSpend (context : PaymentCreatedContext) (app : DashboardApp)
    : DashboardApp :=
  match extractX402ResourceUrl context with
  | Some resourceUrl =>
      if negb (truthy resourceUrl) then app
      else match parseSchemaStreamId resourceUrl with
           | Some streamId =>
               match parsePaymentCharge (selectedRequirements context) with
               | Some charge => applySpendCharge streamId charge app
               | None => app
               end
           | None => app
           end
  | None => app
  end.

End Hook.

End Spend.

(** ** [src/utils/mints.ts]: pair keys *)

Module Mints.
Import JS.

(** [{ baseMint: string; quoteMint: string }] *)
Record MintPair := mkMintPair {
  baseMint : jsstring;
  quoteMint : jsstring
}.

(** [pairKey(baseMint, quoteMint): string] *)
Definition pairKey (baseMint quoteMint : jsstring) : jsstring :=
  baseMint ++ js "/" ++ quoteMint.

(** [parsePairKey(value: string)] *)
Definition parsePairKey (value : jsstring) : option MintPair :=
  match split 47 value with
  | [baseMint; quoteMint] =>
      if negb (truthy baseMint) || negb (truthy quoteMint) then None
      else Some (mkMintPair baseMint quoteMint)
  | _ => None
  end.

End Mints.

(** ** The pending charge of a stream, as the specification words it *)

Module LedgerSpec.
Import Ledger.

(** The charge an event announces: the parsed price hint of a
    [renewal_reminder] or [payment_required] event; none for the other
    events, and none when the hint is absent, empty or does not parse. *)
Definition announced (ev : WsX402Event) : option X402PriceHint :=
  match ev with
  | renewal_reminder _ _ renew | payment_required renew =>
      match selectHint renew with
      | Some hint => if JS.truthy hint then parsePriceHint hint else None
      | None => None
      end
  | _ => None
  end.

Definition is_renewed (ev : WsX402Event) : bool :=
  match ev with
  | renewed _ _ => true
  | _ => false
  end.

(** An event that comes between an announcement for stream [s] and its
    confirmation without standing in for either: an event of another
    stream, or an event of [s] that neither announces a charge nor is a
    [renewed]. *)
Definition leaves_pending (s : StreamId) (e : StreamId * WsX402Event) : Prop :=
  e.1 ≠ s ∨ (announced e.2 = None ∧ is_renewed e.2 = false).

End LedgerSpec.

(** ** When [connect()] throws, as a property of one call *)

Module ClientSpec.
Import X402 Client.

Section Connect.
Context (URL_resolve : jsstring → jsstring → option jsstring).

(** The schema names another stream than the configured one. *)
Definition stream_mismatch (c : StreamClient) (id : jsstring) (e : exn) : Prop :=
  id ≠ streamId (config c)
  ∧ e = Error (js "schema stream mismatch: expected " ++ streamId (config c)
                 ++ js " got " ++ id).

(** The renewal URL cannot be built from [httpBase]. *)
Definition renew_url_invalid (c : StreamClient) (id : jsstring) (e : exn) : Prop :=
  id = streamId (config c)
  ∧ buildRenewUrl URL_resolve (httpBase (config c)) id (schemaVersion c) = None
  ∧ e = TypeError (js "Invalid URL").

(** Input [i] on client [c] is a call of [connect()] that throws [e]: the
    schema request rejects with [e], the schema names another stream, the
    renewal URL cannot be built, or the socket constructor throws [e]. *)
Definition connect_throws (i : Input) (c : StreamClient) (e : exn) : Prop :=
  match i with
  | InConnectRejected e' => e = e'
  | InConnected _ _ id => stream_mismatch c id e ∨ renew_url_invalid c id e
  | InConnectedNoSocket _ _ id e' =>
      stream_mismatch c id e ∨ renew_url_invalid c id e
      ∨ (id = streamId (config c)
         ∧ buildRenewUrl URL_resolve (httpBase (config c)) id (schemaVersion c) ≠ None
         ∧ e = e')
  | _ => False
  end.

End Connect.

End ClientSpec.

(** * Properties *)

(** ** The JavaScript primitives on concrete inputs *)

Module Examples.
Import Protocol Ledger.

Example floor_fraction : Math_floor 2.5%float = 2%Z.
Proof. reflexivity. Qed.

Example floor_below_one : Math_floor 0.5%float = 0%Z.
Proof. reflexivity. Qed.

Example floor_negative : Math_floor (-2.5)%float = (-3)%Z.
Proof. reflexivity. Qed.

Example floor_integer : Math_floor 4294967296%float = 4294967296%Z.
Proof. reflexivity. Qed.

Example trim_both_ends : trim (js "  mint A ") = js "mint A".
Proof. reflexivity. Qed.

Example split_equals : split 61 (js "amount=500") = [js "amount"; js "500"].
Proof. reflexivity. Qed.

Example split_spaces :
  split_ws (js "amount=500   asset=X") = [js "amount=500"; js "asset=X"].
Proof. reflexivity. Qed.

Example BigInt_decimal : BigInt (js "500") = Some 500%Z.
Proof. reflexivity. Qed.

Example BigInt_negative : BigInt (js "-12") = Some (-12)%Z.
Proof. reflexivity. Qed.

Example BigInt_hex : BigInt (js "0x1f") = Some 31%Z.
Proof. reflexivity. Qed.

Example BigInt_fraction : BigInt (js "1.5") = None.
Proof. reflexivity. Qed.

Example BigInt_empty : BigInt (js "") = Some 0%Z.
Proof. reflexivity. Qed.

Example hint_parsed :
  parsePriceHint (js "amount=500 asset=X") = Some (mkPriceHint 500 (js "X")).
Proof. reflexivity. Qed.

Example hint_last_amount_wins :
  parsePriceHint (js "amount=5 asset=X maxAmount=7") = Some (mkPriceHint 7 (js "X")).
Proof. reflexivity. Qed.

Example hint_without_asset : parsePriceHint (js "amount=500") = None.
Proof. reflexivity. Qed.

Example hint_not_an_integer : parsePriceHint (js "amount=1.5 asset=X") = None.
Proof. reflexivity. Qed.

Example network_mainnet : isNetworkV2 (js "solana:mainnet") = true.
Proof. reflexivity. Qed.

Example network_no_namespace : isNetworkV2 (js ":mainnet") = false.
Proof. reflexivity. Qed.

Example network_no_reference : isNetworkV2 (js "solana:") = false.
Proof. reflexivity. Qed.

Example network_version_1_name : isNetworkV2 (js "solana-devnet") = false.
Proof. reflexivity. Qed.

Example ring_wraps :
  Ring.toArray (Ring.pushAll [1; 2; 3; 4; 5]%nat (Samples.empty_ring 3)) = [3; 4; 5]%nat.
Proof. reflexivity. Qed.

Example ring_iterates_like_toArray :
  Ring.iterate (Ring.pushAll [1; 2; 3; 4; 5]%nat (Samples.empty_ring 3)) = [3; 4; 5]%nat.
Proof. reflexivity. Qed.

Example ring_of_capacity_zero_stays_empty :
  Ring.toArray (Ring.pushAll [1; 2]%nat (Samples.empty_ring 0)) = []
  ∧ Ring.head (Ring.pushAll [1; 2]%nat (Samples.empty_ring 0)) = NaN.
Proof. split; reflexivity. Qed.

Example version_from_path :
  X402.parseSchemaVersion Samples.no_url (js "/v2/schema/stream/swap-quotes") = X402.v2.
Proof. reflexivity. Qed.

Example version_defaults_to_v1 :
  X402.parseSchemaVersion Samples.no_url (js "schema/stream/swap-quotes") = X402.v1.
Proof. reflexivity. Qed.

Example merge_reports_new_items_once :
  Client.mergeList (Some [js "a"]) [js "b"; js "a"; js "b"; js "c"]
  = ([js "a"; js "b"; js "c"], [js "b"; js "c"]).
Proof. reflexivity. Qed.

Example subtract_reports_present_items_once :
  Client.subtractList (Some [js "a"; js "b"]) [js "b"; js "z"; js "b"]
  = ([js "a"], [js "b"]).
Proof. reflexivity. Qed.

End Examples.

(** ** The ring buffer *)

Module RingProofs.
Import Ring RingSpec.

Section Arith.
Local Open Scope N_scope.

Lemma rem_add_inj (c h i j : N) :
  i < c → j < c → (h + i) mod c = (h + j) mod c → i = j.
Proof.
  intros Hi Hj H.
  pose proof (N.Div0.div_mod (h + i) c) as E1.
  pose proof (N.Div0.div_mod (h + j) c) as E2.
  rewrite H in E1.
  set (q1 := (h + i) / c) in *. set (q2 := (h + j) / c) in *.
  set (r := (h + j) mod c) in *. clearbody q1 q2 r.
  destruct (N.lt_trichotomy q1 q2) as [?|[?|?]]; nia.
Qed.

Lemma rem_wrap (c h : N) : h < c → (h + c) mod c = h.
Proof.
  intros. rewrite <- (N.mul_1_l c) at 1.
  rewrite N.Div0.mod_add. apply N.mod_small. lia.
Qed.

Lemma rem_step (c a b : N) : (a mod c + b) mod c = (a + b) mod c.
Proof. by rewrite N.Div0.add_mod_idemp_l. Qed.
End Arith.

Lemma keep_last_all {T} (n : nat) (l : list T) :
  (List.length l ≤ n)%nat → keep_last n l = l.
Proof. intros H. unfold keep_last. by replace (List.length l - n)%nat with 0%nat by lia. Qed.

Lemma keep_last_length {T} (n : nat) (l : list T) :
  (List.length (keep_last n l) ≤ n)%nat.
Proof. unfold keep_last. rewrite length_drop. lia. Qed.

Lemma keep_last_app_l {T} (n : nat) (l k : list T) :
  keep_last n (keep_last n l ++ k) = keep_last n (l ++ k).
Proof.
  unfold keep_last.
  rewrite !drop_app, drop_drop, !length_app, !length_drop.
  f_equal; f_equal; lia.
Qed.

Section Representation.
Context {T : Type}.
Implicit Types (rb : RingBuffer T) (l : list T).

Lemma repr_new (c : float) rb : new c = inr rb → repr rb [].
Proof.
  unfold new. intros H.
  destruct (negb _ || _); [done|].
  destruct (_ <? _)%Z; [done|].
  injection H as <-. split; [done|]. split; [simpl; lia|]. simpl.
  intros Hc. exists 0%N. split; [done|]. split; [done|]. split; [|done].
  reflexivity.
Qed.

Lemma repr_clear rb l : repr rb l → repr (clear rb) [].
Proof.
  intros _. split; [done|]. split; [simpl; lia|]. simpl.
  intros Hc. exists 0%N. split; [done|]. split; [done|]. split; [|done].
  reflexivity.
Qed.

Lemma capacity_push (x : T) rb : capacity (push x rb) = capacity rb.
Proof. unfold push. by destruct (_ =? _)%N. Qed.

Lemma capacity_pushAll (xs : list T) rb : capacity (pushAll xs rb) = capacity rb.
Proof.
  revert rb. induction xs as [|x xs IH]; intros rb; [done|].
  unfold pushAll in *. simpl. by rewrite IH, capacity_push.
Qed.

Lemma capacity_run (c : call) rb : capacity (run c rb) = capacity rb.
Proof. destruct c; simpl; auto using capacity_push. Qed.

Lemma capacity_runAll (cs : list call) rb : capacity (runAll cs rb) = capacity rb.
Proof.
  revert rb. induction cs as [|c cs IH]; intros rb; [done|].
  unfold runAll in *. simpl. by rewrite IH, capacity_run.
Qed.

Lemma repr_push (x : T) rb l :
  repr rb l → repr (push x rb) (keep_last (N.to_nat (capacity rb)) (l ++ [x])).
Proof.
  intros (Hcount & Hle & Hpos). unfold push.
  destruct (count rb =? capacity rb)%N eqn:Hfull.
  - (* full: the oldest item is overwritten *)
    apply N.eqb_eq in Hfull.
    assert (Hlen : List.length l = N.to_nat (capacity rb)) by lia.
    unfold keep_last. rewrite length_app, Hlen. simpl.
    replace (N.to_nat (capacity rb) + 1 - N.to_nat (capacity rb))%nat with 1%nat by lia.
    split; [|split]; simpl.
    + rewrite length_drop, length_app. simpl. lia.
    + lia.
    + intros Hc. destruct (Hpos Hc) as (h & Hh & Hhc & Ht & Hbuf).
      exists ((h + 1) mod capacity rb)%N. rewrite Hh, Ht. simpl.
      assert (Hc0 : (capacity rb =? 0)%N = false) by (apply N.eqb_neq; lia).
      rewrite Hc0, Hfull. rewrite (rem_wrap _ h Hhc).
      split; [done|]. split; [|split].
      * apply N.mod_upper_bound. lia.
      * rewrite rem_wrap; [done|]. apply N.mod_upper_bound. lia.
      * intros i y Hi. rewrite lookup_drop in Hi.
        rewrite rem_step.
        destruct (decide (1 + i < List.length l)%nat) as [Hlt|Hge].
        -- rewrite lookup_app_l in Hi by done.
           rewrite lookup_insert_ne.
           ++ apply Hbuf in Hi.
              by replace (h + 1 + N.of_nat i)%N with (h + N.of_nat (1 + i))%N by lia.
           ++ intros E. injection E as E.
              rewrite <- (N.mod_small h (capacity rb)) in E at 1 by done.
              replace h with (h + 0)%N in E at 1 by lia.
              rewrite <- N.add_assoc in E.
              apply rem_add_inj in E; lia.
        -- assert (Hi' := Hi). apply lookup_lt_Some in Hi'.
           rewrite length_app in Hi'. simpl in Hi'.
           assert (1 + i = List.length l)%nat as Heq by lia.
           rewrite Heq in Hi. rewrite list_lookup_middle in Hi by done.
           injection Hi as <-.
           replace (h + 1 + N.of_nat i)%N with (h + capacity rb)%N by lia.
           rewrite rem_wrap by done. apply lookup_insert_eq.
  - (* room left: the item is appended *)
    apply N.eqb_neq in Hfull.
    rewrite keep_last_all by (rewrite length_app; simpl; lia).
    split; [|split]; simpl.
    + rewrite length_app. simpl. lia.
    + lia.
    + intros Hc. destruct (Hpos Hc) as (h & Hh & Hhc & Ht & Hbuf).
      exists h. rewrite Ht. simpl.
      assert (Hc0 : (capacity rb =? 0)%N = false) by (apply N.eqb_neq; lia).
      rewrite Hc0. split; [done|]. split; [done|]. split.
      * f_equal. rewrite rem_step. f_equal. lia.
      * intros i y Hi.
        destruct (decide (i < List.length l)%nat) as [Hlt|Hge].
        -- rewrite lookup_app_l in Hi by done.
           rewrite lookup_insert_ne; [by apply Hbuf|].
           intros E. injection E as E. apply rem_add_inj in E; lia.
        -- assert (Hi' := Hi). apply lookup_lt_Some in Hi'.
           rewrite length_app in Hi'. simpl in Hi'.
           assert (i = List.length l)%nat as -> by lia.
           rewrite list_lookup_middle in Hi by done. injection Hi as <-.
           rewrite Hcount. apply lookup_insert_eq.
Qed.

Lemma repr_pushAll (xs : list T) rb l :
  repr rb l → repr (pushAll xs rb) (keep_last (N.to_nat (capacity rb)) (l ++ xs)).
Proof.
  revert rb l. induction xs as [|x xs IH]; intros rb l Hrb.
  - rewrite app_nil_r. simpl. rewrite keep_last_all; [done|].
    destruct Hrb as (? & ? & _). lia.
  - apply (repr_push x) in Hrb. apply IH in Hrb.
    rewrite capacity_push, keep_last_app_l, <- app_assoc in Hrb. exact Hrb.
Qed.

Lemma repr_run (c : call) rb l : repr rb l → ∃ l', repr (run c rb) l'.
Proof.
  intros Hrb. destruct c; simpl; eauto using repr_push, repr_clear.
Qed.

Lemma repr_runAll (cs : list call) rb l : repr rb l → ∃ l', repr (runAll cs rb) l'.
Proof.
  revert rb l. induction cs as [|c cs IH]; intros rb l Hrb; [by exists l|].
  destruct (repr_run c _ _ Hrb) as [l' Hl']. exact (IH _ _ Hl').
Qed.

Lemma toArray_from_repr rb l (n i : nat) :
  repr rb l → (i + n = List.length l)%nat →
  toArray_from rb (N.of_nat i) n = drop i l.
Proof.
  intros (Hcount & Hle & Hpos). revert i.
  induction n as [|n IH]; intros i Hin.
  - rewrite drop_ge by lia. done.
  - assert (Hc : (0 < capacity rb)%N) by lia.
    destruct (Hpos Hc) as (h & Hh & Hhc & _ & Hbuf).
    destruct (lookup_lt_is_Some_2 l i) as [x Hx]; [lia|].
    simpl. rewrite Hh. simpl.
    assert (Hc0 : (capacity rb =? 0)%N = false) by (apply N.eqb_neq; lia).
    rewrite Hc0, (Hbuf _ _ Hx).
    replace (N.of_nat i + 1)%N with (N.of_nat (S i)) by lia.
    rewrite IH by lia. symmetry. by apply drop_S.
Qed.

Lemma toArray_repr rb l : repr rb l → toArray rb = l.
Proof.
  intros Hrb. unfold toArray.
  rewrite (toArray_from_repr rb l _ 0 Hrb); [done|].
  destruct Hrb as (Hcount & _). lia.
Qed.

Lemma iterate_from_repr rb l (h : N) (n i : nat) :
  repr rb l → head rb = Some h → (i + n = List.length l)%nat →
  iterate_from rb (Some ((h + N.of_nat i) mod capacity rb)%N) n = drop i l.
Proof.
  intros (Hcount & Hle & Hpos) Hh. revert i.
  induction n as [|n IH]; intros i Hin.
  - rewrite drop_ge by lia. done.
  - assert (Hc : (0 < capacity rb)%N) by lia.
    destruct (Hpos Hc) as (h' & Hh' & Hhc & _ & Hbuf).
    assert (h' = h) as -> by congruence.
    destruct (lookup_lt_is_Some_2 l i) as [x Hx]; [lia|].
    simpl.
    assert (Hc0 : (capacity rb =? 0)%N = false) by (apply N.eqb_neq; lia).
    rewrite Hc0, (Hbuf _ _ Hx), rem_step.
    replace (h + N.of_nat i + 1)%N with (h + N.of_nat (S i))%N by lia.
    rewrite IH by lia. symmetry. by apply drop_S.
Qed.

Lemma iterate_repr rb l : repr rb l → iterate rb = l.
Proof.
  intros Hrb. unfold iterate.
  destruct (decide (count rb = 0%N)) as [Hz|Hnz].
  - rewrite Hz. simpl. destruct Hrb as (Hcount & _).
    destruct l; [done|]. simpl in Hcount. lia.
  - pose proof Hrb as (Hcount & Hle & Hpos).
    destruct Hpos as (h & Hh & Hhc & _); [lia|].
    rewrite Hh.
    replace (Some h) with (Some ((h + N.of_nat 0) mod capacity rb)%N).
    + rewrite (iterate_from_repr rb l h _ 0 Hrb Hh); [done|lia].
    + f_equal. rewrite N.add_0_r. by apply N.mod_small.
Qed.

End Representation.

(** On binary64 numbers, [0 < c] excludes [c <= 0]. *)
Lemma float_pos_not_le (c : float) : (0 <? c)%float = true → (c <=? 0)%float = false.
Proof.
  rewrite FloatAxioms.ltb_spec, FloatAxioms.leb_spec.
  change (Prim2SF 0) with (S754_zero false).
  unfold SFltb, SFleb.
  destruct (Prim2SF c) as [s|s| |s m e]; simpl; try done; by destruct s.
Qed.

Lemma new_ok {T} (c : float) :
  Number_isFinite c = true → (0 <? c)%float = true →
  (Math_floor c ≤ max_array_length)%Z →
  new (T:=T) c = inr (mkRingBuffer ∅ (Some 0%N) (Some 0%N) 0 (Z.to_N (Math_floor c))).
Proof.
  intros Hfin Hpos Hmax. unfold new.
  rewrite Hfin, (float_pos_not_le c Hpos). simpl.
  by rewrite (proj2 (Z.ltb_ge _ _) Hmax).
Qed.

(** C3: after [N+1] pushes [x1, x2, ..., x(N+1)] into a ring of capacity
    [N] (freshly built or already used), [toArray()] returns
    [x2, ..., x(N+1)]: the oldest item is evicted and insertion order is
    kept; and after any sequence of pushes [length] is at most the
    capacity. *)
Theorem ring_overflow_evicts_oldest {T} (c : float) (rb0 : RingBuffer T)
    (cs : list call) (x1 : T) (rest : list T) :
  new c = inr rb0 →
  N.of_nat (List.length rest) = capacity rb0 →
  toArray (pushAll (x1 :: rest) (runAll cs rb0)) = rest
  ∧ ∀ items : list T,
      (Ring.length (pushAll items (runAll cs rb0)) ≤ capacity rb0)%N.
Proof.
  intros Hnew Hlen.
  destruct (repr_runAll cs rb0 [] (repr_new c rb0 Hnew)) as [l Hl].
  pose proof (capacity_runAll cs rb0) as Hcap.
  split.
  - rewrite (toArray_repr _ _ (repr_pushAll (x1 :: rest) _ _ Hl)).
    rewrite Hcap. unfold keep_last. rewrite length_app. simpl.
    replace (List.length l + S (List.length rest) - N.to_nat (capacity rb0))%nat
      with (List.length l + 1)%nat by lia.
    by rewrite drop_app_add.
  - intros items.
    destruct (repr_pushAll items _ _ Hl) as (_ & Hle & _).
    unfold Ring.length. by rewrite capacity_pushAll, Hcap in Hle.
Qed.

Lemma ring_overflow_evicts_oldest_witness :
  toArray (pushAll [1; 2; 3; 4]%nat
             (runAll [Push 9%nat; Clear; Push 7%nat]
                (mkRingBuffer ∅ (Some 0%N) (Some 0%N) 0 3))) = [2; 3; 4]%nat
  ∧ ∀ items : list nat,
      (Ring.length (pushAll items
         (runAll [Push 9%nat; Clear; Push 7%nat]
            (mkRingBuffer ∅ (Some 0%N) (Some 0%N) 0 3))) ≤ 3)%N.
Proof.
  apply (ring_overflow_evicts_oldest 3.5%float
           (mkRingBuffer ∅ (Some 0%N) (Some 0%N) 0 3)
           [Push 9%nat; Clear; Push 7%nat] 1%nat [2; 3; 4]%nat).
  - vm_compute. reflexivity.
  - reflexivity.
Defined.

(** C10 (as amended): a capacity that is not finite or is [<= 0] makes the
    constructor throw; a finite capacity [c > 0] with
    [floor(c) <= 2^32 - 1] gives a buffer of capacity [floor(c)] on which
    every sequence of [push], [clear], [toArray] and iteration keeps
    [0 <= length <= floor(c)] (and [toArray] and the iterator list exactly
    [length] items); a finite capacity with [floor(c) > 2^32 - 1] makes
    the constructor throw a RangeError from [new Array]. *)
Theorem ring_capacity_bounds {T} (c : float) :
  (Number_isFinite c = false ∨ (c <=? 0)%float = true →
     new (T:=T) c = inl (Error (js "RingBuffer capacity must be a positive number")))
  ∧ (Number_isFinite c = true → (0 <? c)%float = true →
     (Math_floor c ≤ max_array_length)%Z →
     ∃ rb : RingBuffer T,
       new c = inr rb ∧ capacity rb = Z.to_N (Math_floor c) ∧
       ∀ cs : list call,
         (0 ≤ Ring.length (runAll cs rb) ≤ Z.to_N (Math_floor c))%N
         ∧ N.of_nat (List.length (toArray (runAll cs rb))) = Ring.length (runAll cs rb)
         ∧ iterate (runAll cs rb) = toArray (runAll cs rb))
  ∧ (Number_isFinite c = true → (0 <? c)%float = true →
     (max_array_length < Math_floor c)%Z →
     new (T:=T) c = inl (RangeError (js "Invalid array length"))).
Proof.
  split; [|split].
  - intros [Hfin|Hle]; unfold new.
    + by rewrite Hfin.
    + rewrite Hle. by rewrite orb_true_r.
  - intros Hfin Hpos Hmax.
    eexists. split; [by apply new_ok|]. split; [done|].
    intros cs.
    set (rb0 := mkRingBuffer _ _ _ _ _).
    destruct (repr_runAll cs rb0 [] (repr_new c rb0 (new_ok c Hfin Hpos Hmax)))
      as [l Hl].
    pose proof (capacity_runAll cs rb0) as Hcap.
    rewrite (iterate_repr _ _ Hl), (toArray_repr _ _ Hl).
    destruct Hl as (Hcount & Hle & _). unfold Ring.length.
    rewrite Hcap in Hle. simpl in Hle.
    split; [lia|]. split; [by rewrite Hcount|done].
  - intros Hfin Hpos Hmax. unfold new.
    rewrite Hfin, (float_pos_not_le c Hpos). simpl.
    by rewrite (proj2 (Z.ltb_lt _ _) Hmax).
Qed.

Lemma ring_capacity_bounds_witness :
  ∃ rb : RingBuffer nat,
    new 2.5%float = inr rb ∧ capacity rb = 2%N ∧
    ∀ cs : list call,
      (0 ≤ Ring.length (runAll cs rb) ≤ 2)%N
      ∧ N.of_nat (List.length (toArray (runAll cs rb))) = Ring.length (runAll cs rb)
      ∧ iterate (runAll cs rb) = toArray (runAll cs rb).
Proof.
  apply (proj1 (proj2 (ring_capacity_bounds 2.5%float))).
  - reflexivity.
  - reflexivity.
  - vm_compute. discriminate.
Defined.

(** C10 as stated fails at capacity [2^32]: the number is finite and
    positive, yet no buffer of capacity [floor(2^32)] is built. *)
Lemma ring_capacity_floor_fails_at_2_pow_32 :
  Number_isFinite 4294967296%float = true
  ∧ (0 <? 4294967296)%float = true
  ∧ ¬ ∃ rb : RingBuffer nat,
        new 4294967296%float = inr rb
        ∧ capacity rb = Z.to_N (Math_floor 4294967296%float).
Proof.
  split; [reflexivity|]. split; [reflexivity|].
  intros (rb & Hnew & _). vm_compute in Hnew. discriminate.
Qed.

End RingProofs.

(** ** The dashboard store *)

Module StoreProofs.
Import Store.

Lemma float_zero_not_pos (p : float) : (p =? 0)%float = true → (0 <? p)%float = false.
Proof.
  rewrite FloatAxioms.eqb_spec, FloatAxioms.ltb_spec.
  change (Prim2SF 0) with (S754_zero false).
  unfold SFeqb, SFltb.
  destruct (Prim2SF p) as [s|s| |s m e]; simpl; try done; by destruct s.
Qed.

Section Prices.
Context {WsSwapQuoteEvent WsPoolCreatedEvent WsPoolReservesEvent : Type}.
Abbreviation DashboardStore :=
  (@DashboardStore WsSwapQuoteEvent WsPoolCreatedEvent WsPoolReservesEvent).
Implicit Types (st : DashboardStore) (data : PriceData).

(** The entry stored by [updatePrice], whether or not the history ring
    could be built afterwards. *)
Lemma updatePrice_stored (now : Z) data st :
  getPrice (pairKey data) (updatePrice now data st).1.1
  = Some (mkPriceData (pairKey data) (pairLabel data) (price data) (dex data)
            (slot data) (computeChangePct (prices st !! pairKey data) data)).
Proof.
  unfold updatePrice, getPrice.
  destruct (priceHistory st !! pairKey data) as [rb|]; simpl.
  - apply lookup_insert_eq.
  - destruct (Ring.new _); simpl; apply lookup_insert_eq.
Qed.

(** C6: the stored [changePct] is [(new - old) / old * 100] against the
    price stored before the update when that price is positive, and
    undefined when there is no previous entry or the previous price is
    zero; a price of 100 followed by 110 for the same pair stores
    exactly 10. *)
Theorem price_change_against_previous (now now' : Z) data st :
  let stored := getPrice (pairKey data) (updatePrice now data st).1.1 in
  (∀ previous : PriceData,
     getPrice (pairKey data) st = Some previous →
     (0 <? price previous)%float = true →
     changePct <$> stored
     = Some (Some (((price data - price previous) / price previous) * 100)%float))
  ∧ (getPrice (pairKey data) st = None → changePct <$> stored = Some None)
  ∧ (∀ previous : PriceData,
     getPrice (pairKey data) st = Some previous →
     (price previous =? 0)%float = true →
     changePct <$> stored = Some None)
  ∧ (∀ data' : PriceData,
     pairKey data' = pairKey data →
     (0 <? price data)%float = true →
     changePct <$> getPrice (pairKey data)
                     (updatePrice now' data' (updatePrice now data st).1.1).1.1
     = Some (Some (((price data' - price data) / price data) * 100)%float))
  ∧ (∀ data' : PriceData,
     pairKey data' = pairKey data →
     price data = 100%float → price data' = 110%float →
     changePct <$> getPrice (pairKey data)
                     (updatePrice now' data' (updatePrice now data st).1.1).1.1
     = Some (Some 10%float)).
Proof.
  assert (Hseq : ∀ data' : PriceData,
     pairKey data' = pairKey data →
     (0 <? price data)%float = true →
     changePct <$> getPrice (pairKey data)
                     (updatePrice now' data' (updatePrice now data st).1.1).1.1
     = Some (Some (((price data' - price data) / price data) * 100)%float)).
  { intros data' Hkey Hpos. rewrite <- Hkey.
    rewrite updatePrice_stored. simpl. f_equal.
    rewrite Hkey.
    pose proof (updatePrice_stored now data st) as Hfirst.
    unfold getPrice in Hfirst. rewrite Hfirst. simpl. by rewrite Hpos. }
  cbv zeta. rewrite updatePrice_stored. unfold getPrice in *.
  split; [|split; [|split; [|split]]].
  - intros previous -> Hpos. simpl. by rewrite Hpos.
  - by intros ->.
  - intros previous -> Hzero. simpl. by rewrite (float_zero_not_pos _ Hzero).
  - exact Hseq.
  - intros data' Hkey H100 H110. rewrite Hseq; [|done|by rewrite H100].
    by rewrite H100, H110.
Qed.

End Prices.

Import Samples.

Lemma price_change_against_previous_witness :
  changePct <$> getPrice (js "SOL/USDC")
                  (updatePrice 2000 (sample_price 110)
                     (updatePrice 1000 (sample_price 100) fresh_store).1.1).1.1
  = Some (Some 10%float).
Proof.
  apply (proj2 (proj2 (proj2 (proj2
           (price_change_against_previous 1000 2000 (sample_price 100) fresh_store))))
           (sample_price 110)); reflexivity.
Defined.

Section Rates.
Context {WsSwapQuoteEvent WsPoolCreatedEvent WsPoolReservesEvent : Type}.
Context (notionalUsd : WsSwapQuoteEvent → option float).
Abbreviation Store :=
  (@DashboardStore WsSwapQuoteEvent WsPoolCreatedEvent WsPoolReservesEvent).
Implicit Types (st : Store) (swap : WsSwapQuoteEvent).

Lemma addSwapQuote_timestamps (now1 now2 : Z) swap st :
  swapTimestamps (addSwapQuote notionalUsd now1 now2 swap st).1
  = Ring.push now1 (swapTimestamps st).
Proof.
  unfold addSwapQuote.
  destruct (notionalUsd swap) as [n|]; [destruct (Number_isFinite n)|]; done.
Qed.

Lemma addSwapQuote_rate (now1 now2 : Z) swap st :
  swapsPerMinute (stats (addSwapQuote notionalUsd now1 now2 swap st).1)
  = recentCount now2 (Ring.push now1 (swapTimestamps st)).
Proof.
  unfold addSwapQuote.
  destruct (notionalUsd swap) as [n|]; [destruct (Number_isFinite n)|]; done.
Qed.

Lemma new_swapTimestamps (config : StoreConfig) st :
  Store.new config = inr st → swapTimestamps st = Samples.empty_ring 1000.
Proof.
  unfold Store.new. intros H.
  repeat match type of H with
         | match ?x with _ => _ end = _ => destruct x eqn:?; [done|]
         end.
  injection H as <-. simpl.
  match goal with E : Ring.new 1000%float = inr _ |- _ =>
    vm_compute in E; by injection E as <- end.
Qed.

Lemma addSwapAlert_timestamps (now1 now2 : Z) swap st :
  alertTimestamps (addSwapAlert now1 now2 swap st).1
  = Ring.push now1 (alertTimestamps st).
Proof. done. Qed.

Lemma addSwapAlert_rate (now1 now2 : Z) swap st :
  alertsPerMinute (stats (addSwapAlert now1 now2 swap st).1)
  = recentCount now2 (Ring.push now1 (alertTimestamps st)).
Proof. done. Qed.

Lemma new_alertTimestamps (config : StoreConfig) st :
  Store.new config = inr st → alertTimestamps st = Samples.empty_ring 1000.
Proof.
  unfold Store.new. intros H.
  repeat match type of H with
         | match ?x with _ => _ end = _ => destruct x eqn:?; [done|]
         end.
  injection H as <-. simpl.
  match goal with E : Ring.new 1000%float = inr ?r |- ?r = _ =>
    vm_compute in E; by injection E as <- end.
Qed.

(** The timestamp ring of a fresh store after insertions at [t],
    [t + 30s] and [t + 61s], and what the last insertion counts. *)
Lemma three_timestamps (t : Z) :
  Ring.toArray (Ring.push (t + 61000)%Z (Ring.push (t + 30000)%Z
                  (Ring.push t (Samples.empty_ring 1000))))
  = [t; t + 30000; t + 61000]%Z
  ∧ recent (t + 61000) [t; t + 30000; t + 61000]%Z = [t + 30000; t + 61000]%Z.
Proof.
  split.
  - apply RingProofs.toArray_repr.
    apply (RingProofs.repr_pushAll [t; t + 30000; t + 61000]%Z
             (Samples.empty_ring 1000) []).
    apply (RingProofs.repr_new 1000%float). by vm_compute.
  - unfold recent. rewrite filter_cons_False by lia.
    rewrite filter_cons_True by lia. by rewrite filter_cons_True by lia.
Qed.

(** C7: for both rolling rates, swaps per minute and alerts per minute,
    the rate stored by an insertion is the number of timestamps in the
    ring of that rate that are strictly newer than [now - 60000], so an
    entry at or before that boundary is not counted; after insertions at
    [t] and [t + 30s], the insertion at [t + 61s] counts [t + 30s] (and
    itself) but not [t]. *)
Theorem rolling_rate_excludes_old (config : StoreConfig) (st0 st : Store)
    (t now1 now2 : Z) (q q1 q2 q3 : WsSwapQuoteEvent) :
  Store.new config = inr st0 →
  let st' := (addSwapQuote notionalUsd now1 now2 q st).1 in
  let st3 :=
    (addSwapQuote notionalUsd (t + 61000) (t + 61000) q3
       (addSwapQuote notionalUsd (t + 30000) (t + 30000) q2
          (addSwapQuote notionalUsd t t q1 st0).1).1).1 in
  let sta' := (addSwapAlert now1 now2 q st).1 in
  let sta3 :=
    (addSwapAlert (t + 61000) (t + 61000) q3
       (addSwapAlert (t + 30000) (t + 30000) q2
          (addSwapAlert t t q1 st0).1).1).1 in
  (swapsPerMinute (stats st')
   = N.of_nat (List.length (recent now2 (Ring.toArray (swapTimestamps st'))))
   ∧ (∀ u : Z, u ∈ recent now2 (Ring.toArray (swapTimestamps st'))
               ↔ u ∈ Ring.toArray (swapTimestamps st') ∧ (now2 - 60000 < u)%Z)
   ∧ Ring.toArray (swapTimestamps st3) = [t; t + 30000; t + 61000]%Z
   ∧ recent (t + 61000) (Ring.toArray (swapTimestamps st3)) = [t + 30000; t + 61000]%Z
   ∧ swapsPerMinute (stats st3) = 2%N)
  ∧ (alertsPerMinute (stats sta')
     = N.of_nat (List.length (recent now2 (Ring.toArray (alertTimestamps sta'))))
     ∧ (∀ u : Z, u ∈ recent now2 (Ring.toArray (alertTimestamps sta'))
                 ↔ u ∈ Ring.toArray (alertTimestamps sta') ∧ (now2 - 60000 < u)%Z)
     ∧ Ring.toArray (alertTimestamps sta3) = [t; t + 30000; t + 61000]%Z
     ∧ recent (t + 61000) (Ring.toArray (alertTimestamps sta3))
       = [t + 30000; t + 61000]%Z
     ∧ alertsPerMinute (stats sta3) = 2%N).
Proof.
  intros Hnew st' st3 sta' sta3.
  destruct (three_timestamps t) as [Hring Hrecent].
  assert (Hts : Ring.toArray (swapTimestamps st3) = [t; t + 30000; t + 61000]%Z).
  { unfold st3. by rewrite !addSwapQuote_timestamps, (new_swapTimestamps _ _ Hnew). }
  assert (Hta : Ring.toArray (alertTimestamps sta3) = [t; t + 30000; t + 61000]%Z).
  { unfold sta3. by rewrite !addSwapAlert_timestamps, (new_alertTimestamps _ _ Hnew). }
  split; (split; [|split; [|split; [|split]]]).
  - unfold st'. by rewrite addSwapQuote_rate, addSwapQuote_timestamps.
  - intros u. unfold recent. by rewrite list_elem_of_filter, (comm (∧)).
  - exact Hts.
  - by rewrite Hts.
  - unfold st3. rewrite addSwapQuote_rate, !addSwapQuote_timestamps.
    rewrite (new_swapTimestamps _ _ Hnew). unfold recentCount.
    by rewrite Hring, Hrecent.
  - unfold sta'. by rewrite addSwapAlert_rate, addSwapAlert_timestamps.
  - intros u. unfold recent. by rewrite list_elem_of_filter, (comm (∧)).
  - exact Hta.
  - by rewrite Hta.
  - unfold sta3. rewrite addSwapAlert_rate, !addSwapAlert_timestamps.
    rewrite (new_alertTimestamps _ _ Hnew). unfold recentCount.
    by rewrite Hring, Hrecent.
Qed.

End Rates.

Lemma rolling_rate_excludes_old_witness :
  let st3 :=
    (addSwapQuote (λ _ : unit, None) 62000 62000 tt
       (addSwapQuote (λ _ : unit, None) 31000 31000 tt
          (addSwapQuote (λ _ : unit, None) 1000 1000 tt fresh_store).1).1).1 in
  let sta3 :=
    (addSwapAlert 62000 62000 tt
       (addSwapAlert 31000 31000 tt (addSwapAlert 1000 1000 tt fresh_store).1).1).1 in
  (Ring.toArray (swapTimestamps st3) = [1000; 31000; 62000]%Z
   ∧ recent 62000 (Ring.toArray (swapTimestamps st3)) = [31000; 62000]%Z
   ∧ swapsPerMinute (stats st3) = 2%N)
  ∧ (Ring.toArray (alertTimestamps sta3) = [1000; 31000; 62000]%Z
     ∧ recent 62000 (Ring.toArray (alertTimestamps sta3)) = [31000; 62000]%Z
     ∧ alertsPerMinute (stats sta3) = 2%N).
Proof.
  pose proof (rolling_rate_excludes_old (λ _ : unit, None)
                (mkStoreConfig None None None) fresh_store fresh_store
                1000 0 0 tt tt tt tt) as H.
  destruct H as ((_ & _ & H1 & H2 & H3) & (_ & _ & H4 & H5 & H6)); [by vm_compute|].
  exact (conj (conj H1 (conj H2 H3)) (conj H4 (conj H5 H6))).
Defined.

End StoreProofs.

(** ** Watch-list deltas *)

Module WatchProofs.
Import Client WatchSpec.

Implicit Types (v w : jsstring) (l s : list jsstring).

Lemma Set_add_elem v w s : w ∈ Set_add v s ↔ w ∈ s ∨ w = v.
Proof.
  unfold Set_add, Set_has. case_bool_decide.
  - naive_solver.
  - rewrite elem_of_app, list_elem_of_singleton. done.
Qed.

Lemma Set_fold_elem l s w :
  w ∈ foldl (λ s v, Set_add v s) s l ↔ w ∈ s ∨ w ∈ l.
Proof.
  revert s. induction l as [|v l IH]; intros s; simpl.
  - rewrite elem_of_nil. naive_solver.
  - rewrite IH, Set_add_elem, elem_of_cons. naive_solver.
Qed.

Lemma Set_new_elem l w : w ∈ Set_new l ↔ w ∈ l.
Proof. unfold Set_new. rewrite Set_fold_elem, elem_of_nil. naive_solver. Qed.

Lemma first_occurrences_elem l w : w ∈ first_occurrences l ↔ w ∈ l.
Proof.
  induction l as [|v l IH]; simpl; [done|].
  rewrite !elem_of_cons, list_elem_of_filter, IH.
  destruct (decide (w = v)); naive_solver.
Qed.

Lemma first_occurrences_snoc l v :
  first_occurrences (l ++ [v])
  = if decide (v ∈ l) then first_occurrences l else first_occurrences l ++ [v].
Proof.
  induction l as [|w l IH].
  - by rewrite decide_False by apply not_elem_of_nil.
  - simpl. rewrite IH. destruct (decide (v ∈ l)) as [Hin|Hin].
    + rewrite decide_True by (apply elem_of_cons; auto). done.
    + rewrite filter_app, filter_cons, filter_nil.
      destruct (decide (v = w)) as [->|Hne].
      * rewrite (decide_False (P := w ≠ w)) by naive_solver.
        rewrite decide_True by (apply elem_of_cons; auto).
        by rewrite app_nil_r.
      * rewrite (decide_True (P := v ≠ w)) by done.
        by rewrite decide_False by (rewrite elem_of_cons; naive_solver).
Qed.

Lemma filter_id (P : jsstring → Prop) `{!∀ x, Decision (P x)} s :
  (∀ w, w ∈ s → P w) → filter P s = s.
Proof.
  induction s as [|w s IH]; intros HP; [done|].
  rewrite filter_cons, decide_True by (apply HP; left).
  rewrite IH; [done|]. intros x Hx. apply HP. by right.
Qed.

Lemma filter_ne_id v s : v ∉ s → filter (λ w, w ≠ v) s = s.
Proof. intros Hv. apply filter_id. intros w Hw ->. done. Qed.

(** [mergeList] returns the watch-set extended by the delta, and the delta. *)
Lemma mergeList_spec (current : option (list jsstring)) (incoming : list jsstring) :
  let d := first_occurrences (filter (λ v, v ∉ default [] current) incoming) in
  mergeList current incoming = (Set_new (default [] current) ++ d, d).
Proof.
  simpl. unfold mergeList. set (cur := default [] current).
  induction incoming as [|v l IH] using rev_ind; simpl.
  - by rewrite app_nil_r.
  - rewrite foldl_app, IH. simpl.
    rewrite filter_app, filter_cons, filter_nil.
    set (fl := filter (λ v0, v0 ∉ cur) l).
    unfold Set_has, Set_add, Set_has.
    destruct (decide (v ∉ cur)) as [Hout|Hin].
    + rewrite first_occurrences_snoc.
      destruct (decide (v ∈ fl)) as [Hfl|Hfl].
      * rewrite bool_decide_true; [done|].
        apply elem_of_app. right. by apply first_occurrences_elem.
      * rewrite bool_decide_false; [by rewrite app_assoc|].
        rewrite elem_of_app, Set_new_elem, first_occurrences_elem. naive_solver.
    + rewrite app_nil_r. rewrite bool_decide_true; [done|].
      apply elem_of_app. left. apply Set_new_elem.
      by destruct (decide (v ∈ cur)).
Qed.

(** [subtractList] returns the watch-set without the delta, and the delta. *)
Lemma subtractList_spec (current : option (list jsstring)) (incoming : list jsstring) :
  let d := first_occurrences (filter (λ v, v ∈ default [] current) incoming) in
  subtractList current incoming
  = (filter (λ v, v ∉ d) (Set_new (default [] current)), d).
Proof.
  simpl. unfold subtractList. set (cur := default [] current).
  induction incoming as [|v l IH] using rev_ind.
  - simpl. f_equal. symmetry. apply filter_id. intros ? _. apply not_elem_of_nil.
  - rewrite foldl_app, IH. simpl.
    rewrite filter_app, filter_cons, filter_nil.
    set (fl := filter (λ v0, v0 ∈ cur) l).
    unfold Set_has.
    destruct (decide (v ∈ cur)) as [Hin|Hout].
    + rewrite first_occurrences_snoc.
      destruct (decide (v ∈ fl)) as [Hfl|Hfl].
      * rewrite bool_decide_false.
        2:{ rewrite list_elem_of_filter, first_occurrences_elem. naive_solver. }
        f_equal. apply filter_ne_id.
        rewrite list_elem_of_filter, first_occurrences_elem. naive_solver.
      * rewrite bool_decide_true.
        2:{ rewrite list_elem_of_filter, first_occurrences_elem, Set_new_elem. done. }
        f_equal. rewrite list_filter_filter. apply list_filter_iff.
        intros w. rewrite not_elem_of_app, list_elem_of_singleton. naive_solver.
    + rewrite app_nil_r.
      rewrite bool_decide_false.
      2:{ rewrite list_elem_of_filter, Set_new_elem. naive_solver. }
      f_equal. apply filter_ne_id.
      rewrite list_elem_of_filter, Set_new_elem. naive_solver.
Qed.

Lemma send_cases (m : ClientMsg) (c : StreamClient) :
  (ws c = Some OPEN ∧ send m c = [Sent m]) ∨ (ws c ≠ Some OPEN ∧ send m c = []).
Proof. unfold send. case_bool_decide; auto. Qed.

(** The five parts of [sends_exact_delta] once the delta is known to be
    non-empty and [send] has been resolved. *)
Local Ltac finish_call membership :=
  simpl in *;
  split; [first [by left | by right]|];
  split; [by intros ?|];
  split; [by intros|];
  split; [intros _ ?; membership|done].

Local Ltac solve_call spec membership :=
  rewrite spec; cbv zeta; cbv beta iota;
  case_bool_decide as Hd;
  [ by (repeat split; auto)
  | match goal with |- context [send ?m ?c'] =>
      destruct (send_cases m c') as [[Hopen ->]|[Hclosed ->]] end;
    finish_call membership ].

Local Ltac add_membership := by rewrite elem_of_app, Set_new_elem.
Local Ltac remove_membership :=
  by rewrite list_elem_of_filter, Set_new_elem, (comm (∧)).

Lemma watch_sends_exact_delta (call : WatchCall) (c : StreamClient) :
  sends_exact_delta c call (watch call c).1 (watch call c).2.
Proof.
  unfold sends_exact_delta, delta, watched.
  destruct call as [l|l|l|l]; simpl;
    unfold addMints, removeMints, addAccounts, removeAccounts;
    (case_bool_decide as Hn;
     [ rewrite Hn; simpl; by (repeat split; auto) | ]).
  - solve_call mergeList_spec add_membership.
  - solve_call subtractList_spec remove_membership.
  - solve_call mergeList_spec add_membership.
  - solve_call subtractList_spec remove_membership.
Qed.

(** C1: in every sequence of [addMints], [removeMints], [addAccounts] and
    [removeAccounts] calls, each call sends at most one message, whose
    items are exactly the delta against the watch-set at that moment (the
    normalized incoming items not already present for an add, those
    actually present for a remove); a call with an empty delta sends
    nothing and leaves the client unchanged. *)
Theorem watch_calls_send_exact_delta (calls : list WatchCall) (c : StreamClient) :
  Forall (λ step : StreamClient * WatchCall * StreamClient * list Output,
            sends_exact_delta step.1.1.1 step.1.1.2 step.1.2 step.2)
         (watchAll calls c).
Proof.
  revert c. induction calls as [|call calls IH]; intros c; simpl; [constructor|].
  pose proof (watch_sends_exact_delta call c) as Hcall.
  destruct (watch call c) as [c' out]. constructor; [exact Hcall|apply IH].
Qed.

End WatchProofs.

(** ** The spend ledger *)

Module LedgerProofs.
Import X402 Ledger LedgerSpec.

Implicit Types (s : StreamId) (app : DashboardApp) (ev : WsX402Event).

Lemma parsePriceHint_nonempty (hint : jsstring) (p : X402PriceHint) :
  parsePriceHint hint = Some p → JS.truthy hint = true.
Proof. destruct hint; [by vm_compute|done]. Qed.

(** An event of another stream leaves the two ledger entries of [s] alone. *)
Lemma handle_other s s' ev app :
  s' ≠ s →
  pendingCharges (handleX402Event s' ev app) !! s = pendingCharges app !! s
  ∧ spendTotals (handleX402Event s' ev app) !! s = spendTotals app !! s.
Proof.
  intros Hne.
  assert (Hrec : ∀ renew,
    pendingCharges (recordPending s' renew app) !! s = pendingCharges app !! s
    ∧ spendTotals (recordPending s' renew app) !! s = spendTotals app !! s).
  { intros renew. unfold recordPending.
    destruct (selectHint renew) as [hint|]; [|done].
    destruct (JS.truthy hint); [|done].
    destruct (parsePriceHint hint) as [parsed|]; [|done]. simpl.
    rewrite lookup_insert_ne by done. split; [done|].
    destruct (spendTotals app !! s'); [done|]. by rewrite lookup_insert_ne. }
  destruct ev; simpl; try done; try apply Hrec.
  destruct (pendingCharges app !! s') as [pending|]; [|done]. simpl.
  by rewrite lookup_delete_ne, lookup_insert_ne.
Qed.

Lemma handleAll_other s (events : list (StreamId * WsX402Event)) app :
  Forall (λ e, e.1 ≠ s) events →
  pendingCharges (handleAll events app) !! s = pendingCharges app !! s
  ∧ spendTotals (handleAll events app) !! s = spendTotals app !! s.
Proof.
  intros Hall. revert app.
  induction Hall as [|[s' ev] events Hne _ IH]; intros app; [done|].
  unfold handleAll in *. simpl.
  destruct (IH (handleX402Event s' ev app)) as [-> ->].
  by apply handle_other.
Qed.

Lemma recordPending_parsed s (renew : option RenewHints) (hint : jsstring)
    (p : X402PriceHint) app :
  selectHint renew = Some hint → parsePriceHint hint = Some p →
  pendingCharges (recordPending s renew app) !! s = Some p
  ∧ ∀ s', confirmedTotal s' (recordPending s renew app) = confirmedTotal s' app.
Proof.
  intros Hsel Hparse. unfold recordPending.
  rewrite Hsel, (parsePriceHint_nonempty _ _ Hparse), Hparse. simpl.
  split; [apply lookup_insert_eq|].
  intros s'. unfold confirmedTotal. simpl.
  destruct (spendTotals app !! s) eqn:Hs; [done|].
  destruct (decide (s = s')) as [<-|Hne].
  - by rewrite lookup_insert_eq, Hs.
  - by rewrite lookup_insert_ne.
Qed.

Lemma renewed_unmatched s (expiresAt : jsstring) (method : RenewMethod) app :
  pendingCharges app !! s = None →
  handleX402Event s (renewed expiresAt method) app = app.
Proof. intros H. simpl. by rewrite H. Qed.

Lemma renewed_matched s (expiresAt : jsstring) (method : RenewMethod)
    (p : X402PriceHint) app :
  pendingCharges app !! s = Some p →
  let app' := handleX402Event s (renewed expiresAt method) app in
  confirmedTotal s app' = (confirmedTotal s app + amountRaw p)%Z
  ∧ spendAsset <$> spendTotals app' !! s = Some (hintAsset p)
  ∧ pendingCharges app' !! s = None.
Proof.
  intros H. simpl. rewrite H. unfold confirmedTotal. simpl.
  rewrite lookup_insert_eq, lookup_delete_eq. simpl.
  by destruct (spendTotals app !! s).
Qed.

(** An event that leaves the pending charge of [s] alone leaves its two
    ledger entries alone. *)
Lemma handle_leaves s (e : StreamId * WsX402Event) app :
  leaves_pending s e →
  pendingCharges (handleX402Event e.1 e.2 app) !! s = pendingCharges app !! s
  ∧ spendTotals (handleX402Event e.1 e.2 app) !! s = spendTotals app !! s.
Proof.
  destruct e as [s' ev]. intros [Hne|[Hnone Hrenewed]]; [by apply handle_other|].
  simpl in *. destruct ev as [c e sl|e ms renew|renew|e m|msg]; simpl in *; try done.
  - unfold recordPending. destruct (selectHint renew) as [hint|]; [|done].
    destruct (JS.truthy hint); [|done]. by rewrite Hnone.
  - unfold recordPending. destruct (selectHint renew) as [hint|]; [|done].
    destruct (JS.truthy hint); [|done]. by rewrite Hnone.
Qed.

Lemma handleAll_leaves s (events : list (StreamId * WsX402Event)) app :
  Forall (leaves_pending s) events →
  pendingCharges (handleAll events app) !! s = pendingCharges app !! s
  ∧ spendTotals (handleAll events app) !! s = spendTotals app !! s.
Proof.
  intros Hall. revert app.
  induction Hall as [|e events He _ IH]; intros app; [done|].
  unfold handleAll in *. simpl.
  destruct (IH (handleX402Event e.1 e.2 app)) as [-> ->].
  by apply handle_leaves.
Qed.

(** C2 (as amended): a [renewal_reminder] or [payment_required] event
    whose price hint parses to amount [A] of asset [X] records [A] of [X]
    as the pending charge of the stream, in place of any earlier one, and
    leaves every confirmed total as it was; when the events that follow are
    events of other streams, or events of the same stream that neither
    announce a charge nor are a [renewed], the next [renewed] event of the
    stream adds exactly [A] to the confirmed total, labels it with [X] and
    clears the pending entry; a [renewed] event with no pending entry
    changes nothing. *)
Theorem spend_pending_then_confirmed s ev (expiresAt expiresAt' : jsstring)
    (ms : float) (renew : option RenewHints) (hint : jsstring) (A : Z) (X : jsstring)
    (method : RenewMethod) (between : list (StreamId * WsX402Event)) app :
  ev = renewal_reminder expiresAt ms renew ∨ ev = payment_required renew →
  selectHint renew = Some hint →
  parsePriceHint hint = Some (mkPriceHint A X) →
  Forall (leaves_pending s) between →
  let app1 := handleX402Event s ev app in
  let app2 := handleAll between app1 in
  let app3 := handleX402Event s (renewed expiresAt' method) app2 in
  pendingCharges app1 !! s = Some (mkPriceHint A X)
  ∧ (∀ s', confirmedTotal s' app1 = confirmedTotal s' app)
  ∧ confirmedTotal s app3 = (confirmedTotal s app + A)%Z
  ∧ spendAsset <$> spendTotals app3 !! s = Some X
  ∧ pendingCharges app3 !! s = None
  ∧ handleX402Event s (renewed expiresAt' method) app3 = app3
  ∧ (∀ app', pendingCharges app' !! s = None →
             handleX402Event s (renewed expiresAt' method) app' = app').
Proof.
  intros Hev Hsel Hparse Hbetween app1 app2 app3.
  assert (Happ1 : app1 = recordPending s renew app).
  { unfold app1. by destruct Hev as [-> | ->]. }
  destruct (recordPending_parsed s renew hint _ app Hsel Hparse) as [Hpend Htotal].
  rewrite <- Happ1 in Hpend, Htotal.
  destruct (handleAll_leaves s between app1 Hbetween) as [Hp2 Ht2].
  fold app2 in Hp2, Ht2. rewrite Hpend in Hp2.
  destruct (renewed_matched s expiresAt' method _ app2 Hp2) as (H3 & Hasset & Hclear).
  fold app3 in H3, Hasset, Hclear.
  split; [done|]. split; [done|].
  split.
  { rewrite H3. simpl. unfold confirmedTotal at 1. rewrite Ht2.
    fold (confirmedTotal s app1). by rewrite Htotal. }
  split; [done|]. split; [done|].
  split; [by apply renewed_unmatched|].
  intros app'. apply renewed_unmatched.
Qed.

Lemma spend_pending_then_confirmed_witness :
  let app1 := handleX402Event (js "token-ticker") Samples.sample_reminder Samples.empty_app in
  let app3 := handleX402Event (js "token-ticker") Samples.sample_renewed
                (handleAll [(js "swap-quotes", Samples.sample_renewed);
                            (js "token-ticker", error (js "late"))] app1) in
  pendingCharges app1 !! js "token-ticker" = Some (mkPriceHint 500 (js "X"))
  ∧ confirmedTotal (js "token-ticker") app1 = 0%Z
  ∧ confirmedTotal (js "token-ticker") app3 = 500%Z
  ∧ pendingCharges app3 !! js "token-ticker" = None
  ∧ handleX402Event (js "token-ticker") Samples.sample_renewed app3 = app3.
Proof.
  destruct (spend_pending_then_confirmed (js "token-ticker") Samples.sample_reminder
              (js "2026-01-01T00:00:00Z") (js "2026-01-01T00:05:00Z") 30000%float
              (Some (mkRenewHints
                       (Some (mkRenewHint (js "/v2/renew/stream/token-ticker")
                                (Some (js "amount=500 asset=X"))))
                       None))
              (js "amount=500 asset=X") 500 (js "X") http
              [(js "swap-quotes", Samples.sample_renewed);
               (js "token-ticker", error (js "late"))] Samples.empty_app)
    as (H1 & H2 & H3 & _ & H5 & H6 & _).
  - by left.
  - reflexivity.
  - by vm_compute.
  - constructor; [left; by vm_compute|]. constructor; [right; by split|]. constructor.
  - exact (conj H1 (conj (H2 (js "token-ticker")) (conj H3 (conj H5 H6)))).
Defined.

(** C2 as stated fails when a second announcement for the same stream
    comes before the confirmation: after a reminder hinting 500 of [X] and
    a [payment_required] hinting 700 of [Y], the next [renewed] event adds
    700 of [Y], not 500 of [X]. *)
Lemma spend_later_hint_replaces_pending :
  let s := js "token-ticker" in
  let app1 := handleX402Event s Samples.sample_reminder Samples.empty_app in
  let app2 := handleX402Event s Samples.sample_payment_required app1 in
  let app3 := handleX402Event s Samples.sample_renewed app2 in
  announced Samples.sample_reminder = Some (mkPriceHint 500 (js "X"))
  ∧ pendingCharges app1 !! s = Some (mkPriceHint 500 (js "X"))
  ∧ confirmedTotal s app3 = 700%Z
  ∧ spendAsset <$> spendTotals app3 !! s = Some (js "Y")
  ∧ confirmedTotal s app3 ≠ (confirmedTotal s Samples.empty_app + 500)%Z.
Proof.
  assert (confirmedTotal (js "token-ticker")
            (handleX402Event (js "token-ticker") Samples.sample_renewed
               (handleX402Event (js "token-ticker") Samples.sample_payment_required
                  (handleX402Event (js "token-ticker") Samples.sample_reminder
                     Samples.empty_app)))
          = 700%Z) as Htotal by (by vm_compute).
  cbv zeta. rewrite Htotal.
  split; [by vm_compute|]. split; [by vm_compute|]. split; [done|].
  split; [by vm_compute|]. by vm_compute.
Qed.

End LedgerProofs.

(** ** Network identifiers and payment normalization *)

Module NetworkProofs.
Import Protocol X402 Client ProtocolSpec.

Lemma indexOf_absent (c : N) (s : jsstring) : c ∉ s → indexOf c s = (-1)%Z.
Proof.
  induction s as [|d s IH]; intros Hc; [done|].
  rewrite not_elem_of_cons in Hc. destruct Hc as [Hne Hc]. simpl.
  rewrite bool_decide_false by done. by rewrite IH.
Qed.

Lemma indexOf_first (c : N) (pre post : jsstring) :
  c ∉ pre → indexOf c (pre ++ c :: post) = Z.of_nat (List.length pre).
Proof.
  induction pre as [|d pre IH]; intros Hc; simpl.
  - by rewrite bool_decide_true.
  - rewrite not_elem_of_cons in Hc. destruct Hc as [Hne Hc].
    rewrite bool_decide_false by done. rewrite IH by done.
    destruct (Z.ltb_spec (Z.of_nat (List.length pre)) 0); lia.
Qed.

Lemma indexOf_found (c : N) (s : jsstring) :
  (0 ≤ indexOf c s)%Z →
  ∃ pre post, s = pre ++ c :: post ∧ c ∉ pre.
Proof.
  induction s as [|d s IH]; simpl; [lia|].
  case_bool_decide as Hd.
  - intros _. exists [], s. subst. split; [done|]. apply not_elem_of_nil.
  - destruct (Z.ltb_spec (indexOf c s) 0) as [Hneg|Hpos]; [lia|].
    intros _. destruct (IH Hpos) as (pre & post & -> & Hpre).
    exists (d :: pre), post. split; [done|].
    apply not_elem_of_cons. split; [congruence|done].
Qed.

(** [isNetworkV2] accepts exactly the two-part composite identifiers. *)
Lemma isNetworkV2_composite (s : jsstring) :
  isNetworkV2 s = true ↔ composite_identifier s.
Proof.
  unfold isNetworkV2, composite_identifier. split.
  - intros H. apply andb_prop in H. destruct H as [H1 H2].
    apply bool_decide_eq_true in H1, H2.
    destruct (indexOf_found 58 s) as (pre & post & -> & Hpre); [lia|].
    rewrite indexOf_first in H1, H2 by done.
    rewrite length_app in H2. simpl in H2.
    exists pre, post. split; [done|].
    split; [by destruct pre|]. split; [|done].
    destruct post; [simpl in H2; lia|done].
  - intros (ns & ref & -> & Hns & Href & Hsep).
    rewrite indexOf_first by done. rewrite length_app. simpl.
    apply andb_true_intro. split; apply bool_decide_eq_true.
    + destruct ns; [done|simpl; lia].
    + destruct ref; [done|simpl; lia].
Qed.

Lemma toCoreRequirement_valid (r : PaymentRequirementsV2Compat) :
  isNetworkV2 (network r) = true → toCoreRequirement r = inr r.
Proof. intros H. unfold toCoreRequirement, isCoreNetwork. rewrite H. by destruct r. Qed.

Lemma mapRequirements_valid (l : list PaymentRequirementsV2Compat) :
  (∀ r, r ∈ l → isNetworkV2 (network r) = true) → mapRequirements l = inr l.
Proof.
  induction l as [|r l IH]; intros Hall; [done|]. simpl.
  rewrite toCoreRequirement_valid by (apply Hall; left).
  rewrite IH; [done|]. intros r' Hr'. apply Hall. by right.
Qed.

Lemma mapRequirements_invalid (l : list PaymentRequirementsV2Compat) :
  (∃ r, r ∈ l ∧ isNetworkV2 (network r) = false) →
  ∃ r, r ∈ l ∧ isNetworkV2 (network r) = false
       ∧ mapRequirements l = inl (Error (js "invalid payment network: " ++ network r)).
Proof.
  induction l as [|r l IH]; intros (r0 & Hin & Hbad).
  - by apply elem_of_nil in Hin.
  - simpl. destruct (isNetworkV2 (network r)) eqn:Hr.
    + rewrite toCoreRequirement_valid by done.
      destruct IH as (r1 & Hin1 & Hbad1 & ->).
      { apply elem_of_cons in Hin. destruct Hin as [->|Hin]; [congruence|eauto]. }
      exists r1. split; [by right|done].
    + exists r. split; [left|]. split; [done|].
      unfold toCoreRequirement, isCoreNetwork. by rewrite Hr.
Qed.

(** C9: normalizing a version-2 payment-required set fails with an error
    as soon as one requirement's network is not a two-part composite
    identifier (and the client then reports the error instead of building a
    payload); it succeeds, keeping every requirement, when all of them are
    such identifiers. *)
Theorem invalid_network_fails_payment (v : PaymentRequiredV2Compat) (c : StreamClient) :
  (∀ s : jsstring, isNetworkV2 s = true ↔ composite_identifier s)
  ∧ ((∃ r, r ∈ accepts v ∧ ¬ composite_identifier (network r)) →
     (∃ r, r ∈ accepts v ∧ ¬ composite_identifier (network r)
           ∧ toCorePaymentRequired v
             = inl (Error (js "invalid payment network: " ++ network r)))
     ∧ ∃ message : jsstring,
         afterRenewInband (inr (RequiredV2 v)) c = ([Emitted (ev_error message)], None))
  ∧ ((∀ r, r ∈ accepts v → composite_identifier (network r)) →
     ∃ core : CorePaymentRequired,
       toCorePaymentRequired v = inr core
       ∧ coreAccepts core = accepts v ∧ coreResource core = resource v
       ∧ coreVersion core = 2%N).
Proof.
  split; [exact isNetworkV2_composite|]. split.
  - intros (r0 & Hin0 & Hbad0).
    destruct (mapRequirements_invalid (accepts v)) as (r & Hin & Hbad & Hmap).
    { exists r0. split; [done|].
      destruct (isNetworkV2 (network r0)) eqn:E; [|done].
      by apply isNetworkV2_composite in E. }
    assert (Hcore : toCorePaymentRequired v
                    = inl (Error (js "invalid payment network: " ++ network r))).
    { unfold toCorePaymentRequired. by rewrite Hmap. }
    split.
    + exists r. split; [done|]. split; [|done].
      intros Hc. apply isNetworkV2_composite in Hc. congruence.
    + eexists. unfold afterRenewInband.
      rewrite bool_decide_false by (intros E; rewrite E in Hin; by apply elem_of_nil in Hin).
      rewrite Hcore. reflexivity.
  - intros Hall. unfold toCorePaymentRequired.
    rewrite mapRequirements_valid.
    + eexists. split; [reflexivity|]. done.
    + intros r Hr. apply isNetworkV2_composite. by apply Hall.
Qed.

Lemma invalid_network_fails_payment_witness :
  ∃ core : CorePaymentRequired,
    toCorePaymentRequired Samples.mainnet_required = inr core
    ∧ coreAccepts core = accepts Samples.mainnet_required
    ∧ coreResource core = resource Samples.mainnet_required
    ∧ coreVersion core = 2%N.
Proof.
  apply (proj2 (proj2 (invalid_network_fails_payment Samples.mainnet_required
                         Samples.inband_v1_client))).
  intros r Hr. apply list_elem_of_singleton in Hr. subst r.
  apply isNetworkV2_composite. reflexivity.
Defined.

End NetworkProofs.

(** ** Frame dispatch *)

Module DispatchProofs.
Import Protocol X402 Client ProtocolSpec.

Lemma record_truthy (v : value) : isRecord (Some v) = true → falsy v = false.
Proof. by destruct v. Qed.

Lemma x402_is_record (v : value) : isWsX402Event v = true → isRecord (Some v) = true.
Proof. unfold isWsX402Event. by destruct (isRecord (Some v)). Qed.

Lemma status_is_record (v : value) : isWsStatusEvent v = true → isRecord (Some v) = true.
Proof. unfold isWsStatusEvent. by destruct (isRecord (Some v)). Qed.

Lemma event_is_record (v : value) : isWsEvent v = true → isRecord (Some v) = true.
Proof. unfold isWsEvent. by destruct (isRecord (Some v)). Qed.

(** A status frame also passes the guard of domain events. *)
Lemma status_is_event (v : value) : isWsStatusEvent v = true → isWsEvent v = true.
Proof.
  unfold isWsStatusEvent, isWsEvent. destruct (isRecord (Some v)); simpl; [|done].
  by destruct (get v (js "type")) as [[]|].
Qed.

(** [handleX402] emits under none of the three categories. *)
Lemma handleX402_categories (event : value) (c : StreamClient) :
  categories (handleX402 event c).1 = [].
Proof.
  unfold handleX402.
  repeat match goal with
         | |- context [if ?b then _ else _] => destruct b
         | |- context [match ?x with _ => _ end] => destruct x
         end; done.
Qed.

(** C4 (as amended): a frame that passes the lease-control guard is
    dispatched as lease-control only; any other frame is dispatched as a
    domain event when its [type] is a string, and as status too (first)
    when it is a status frame, so a status frame goes out under two
    categories; a frame that passes no guard produces no output at all, in
    particular no error. *)
Theorem frame_dispatch_categories (decoded : value) (c : StreamClient) :
  let out := (dispatch decoded c).1 in
  (isWsX402Event decoded = true →
     categories out = [LeaseControl] ∧ head out = Some (Emitted (ev_x402 decoded)))
  ∧ (isWsX402Event decoded = false → isWsStatusEvent decoded = true →
     out = [Emitted (ev_status decoded); Emitted (ev_event decoded)]
     ∧ categories out = [Status; DomainEvent])
  ∧ (isWsX402Event decoded = false → isWsStatusEvent decoded = false →
     isWsEvent decoded = true →
     out = [Emitted (ev_event decoded)] ∧ categories out = [DomainEvent])
  ∧ (isWsX402Event decoded = false → isWsStatusEvent decoded = false →
     isWsEvent decoded = false →
     dispatch decoded c = ([], None)).
Proof.
  unfold dispatch. split; [|split; [|split]].
  - intros Hx. rewrite (record_truthy _ (x402_is_record _ Hx)), Hx.
    pose proof (handleX402_categories decoded c) as Hcat.
    destruct (handleX402 decoded c) as [out k]. simpl in *.
    unfold categories in *. simpl. by rewrite Hcat.
  - intros Hx Hs. rewrite (record_truthy _ (status_is_record _ Hs)), Hx, Hs.
    by rewrite (status_is_event _ Hs).
  - intros Hx Hs He. by rewrite (record_truthy _ (event_is_record _ He)), Hx, Hs, He.
  - intros Hx Hs He. rewrite Hx, Hs, He. by destruct (falsy decoded).
Qed.

Lemma frame_dispatch_categories_witness :
  (dispatch Samples.status_frame Samples.inband_v1_client).1
  = [Emitted (ev_status Samples.status_frame); Emitted (ev_event Samples.status_frame)]
  ∧ categories (dispatch Samples.status_frame Samples.inband_v1_client).1
    = [Status; DomainEvent].
Proof.
  apply (proj1 (proj2 (frame_dispatch_categories Samples.status_frame
                         Samples.inband_v1_client))).
  - by vm_compute.
  - by vm_compute.
Defined.

(** C4 as stated fails on a status frame: it is dispatched under two
    categories, not under exactly one. *)
Lemma status_frame_dispatched_twice :
  categories (dispatch Samples.status_frame Samples.inband_v1_client).1
  = [Status; DomainEvent]
  ∧ ¬ ∃ k : Category,
        categories (dispatch Samples.status_frame Samples.inband_v1_client).1 = [k].
Proof.
  assert (H : categories (dispatch Samples.status_frame Samples.inband_v1_client).1
              = [Status; DomainEvent]) by (by vm_compute).
  split; [exact H|]. intros [k Hk]. rewrite H in Hk. discriminate.
Qed.

End DispatchProofs.

(** ** Construction and the renewal strategy *)

Module ConstructionProofs.
Import Protocol X402 Client ProtocolSpec.

(** C5 (as amended): the constructor never fails, whatever the renewal
    strategy and schema version; with in-band renewal on a schema that is
    not version 2, each [renewal_reminder] or [payment_required] frame
    handled while a renew URL and a token are set makes the client emit the
    error [inband renewal requires v2 schema], start no renewal call and
    suspend nothing, and the client itself is left as it was (the session
    stays open). *)
Theorem inband_v1_reported_on_renewal
    (URL_pathname : jsstring → option jsstring)
    (URL_resolve : jsstring → jsstring → option jsstring)
    (JSON_parse : jsstring → option value)
    (cfg : StreamClientConfig) (event : value) (op : jsstring) (c : StreamClient)
    (raw : jsstring) (l : list Pending) :
  Client.new URL_pathname cfg
  = inr (mkClient cfg None None None (parseSchemaVersion URL_pathname (schemaPath cfg)))
  ∧ (renewMethod (config c) = inband → schemaVersion c ≠ v2 →
     present (renewUrl c) = true → present (currentToken c) = true →
     get event (js "op") = Some (VStr op) →
     op = js "renewal_reminder" ∨ op = js "payment_required" →
     handleX402 event c
     = ([Emitted (ev_error (js "inband renewal requires v2 schema"))], None)
     ∧ (JS.truthy raw = true → JSON_parse raw = Some event →
        isRecord (Some event) = true →
        step URL_resolve JSON_parse (InMessage (Some raw)) (mkSession c l)
        = (mkSession c l,
           [Emitted (ev_x402 event);
            Emitted (ev_error (js "inband renewal requires v2 schema"))]))).
Proof.
  split; [done|].
  intros Hmethod Hversion Hurl Htoken Hop Hkind.
  assert (Hhandle : handleX402 event c
            = ([Emitted (ev_error (js "inband renewal requires v2 schema"))], None)).
  { unfold handleX402. rewrite Hurl, Htoken, Hop, Hmethod. simpl.
    rewrite (bool_decide_true (schemaVersion c ≠ v2)) by done.
    by destruct Hkind as [-> | ->]. }
  split; [exact Hhandle|].
  intros Hraw Hparse Hrec. simpl. unfold onMessage, safeJsonParse, dispatch.
  rewrite Hraw, Hparse, (DispatchProofs.record_truthy _ Hrec).
  assert (Hx : isWsX402Event event = true).
  { unfold isWsX402Event. rewrite Hrec, Hop. simpl.
    by destruct Hkind as [-> | ->]. }
  by rewrite Hx, Hhandle.
Qed.

Lemma inband_v1_reported_on_renewal_witness :
  handleX402 Samples.reminder_frame Samples.inband_v1_client
  = ([Emitted (ev_error (js "inband renewal requires v2 schema"))], None).
Proof.
  apply (proj2 (inband_v1_reported_on_renewal Samples.no_url (λ _, Samples.no_url)
                  (λ _, None) Samples.inband_v1_config Samples.reminder_frame
                  (js "renewal_reminder") Samples.inband_v1_client [] [])).
  - reflexivity.
  - discriminate.
  - reflexivity.
  - reflexivity.
  - by vm_compute.
  - by left.
Defined.

(** C5 as stated fails: building a client with in-band renewal on a
    version-1 schema path returns a client, not an error. *)
Lemma inband_v1_construction_succeeds :
  renewMethod Samples.inband_v1_config = inband
  ∧ parseSchemaVersion Samples.no_url (schemaPath Samples.inband_v1_config) = v1
  ∧ (∃ c : StreamClient, Client.new Samples.no_url Samples.inband_v1_config = inr c)
  ∧ ¬ ∃ e : exn, Client.new Samples.no_url Samples.inband_v1_config = inl e.
Proof.
  split; [done|]. split; [by vm_compute|]. split.
  - by eexists.
  - by intros [e He].
Qed.

End ConstructionProofs.

(** ** The lease token *)

Module LeaseProofs.
Import Protocol X402 Client ProtocolSpec.

(** Case analysis on every conditional of the goal. *)
Local Ltac cases :=
  repeat (simpl;
          match goal with
          | |- context [if ?b then _ else _] => destruct b eqn:?
          | |- context [match ?x with _ => _ end] => destruct x eqn:?
          end);
  simpl.

Lemma silent_app (out1 out2 : list Output) : silent out1 → silent out2 → silent (out1 ++ out2).
Proof. intros [H1 H2] [H3 H4]. unfold silent. by rewrite !omap_app, H1, H2, H3, H4. Qed.

Lemma send_silent (m : ClientMsg) (c : StreamClient) : silent (send m c).
Proof. unfold send, silent. by cases. Qed.

Lemma watch_silent (call : WatchCall) (c : StreamClient) :
  currentToken (watch call c).1 = currentToken c ∧ silent (watch call c).2.
Proof.
  destruct call; simpl;
    unfold addMints, removeMints, addAccounts, removeAccounts, send, silent; by cases.
Qed.

Lemma applyOptionsAndWatchlists_silent (c : StreamClient) :
  silent (applyOptionsAndWatchlists c).
Proof.
  unfold applyOptionsAndWatchlists.
  repeat apply silent_app; cases; try apply send_silent; done.
Qed.

Lemma onOpen_silent (c : StreamClient) : silent (onOpen c).
Proof.
  unfold onOpen. apply (silent_app [_]); [done|].
  apply silent_app; [apply applyOptionsAndWatchlists_silent|apply send_silent].
Qed.

Lemma present_Some (o : option jsstring) : present o = true → o = Some (default [] o).
Proof. by destruct o. Qed.

(** A renewal started by [handleX402] is given the current token. *)
Lemma handleX402_token (event : value) (c : StreamClient) :
  omap lease_token (handleX402 event c).1 = []
  ∧ renewals_use (currentToken c) (handleX402 event c).1.
Proof.
  unfold handleX402, renewals_use.
  destruct (present (renewUrl c)); simpl; [|by split; [|intros t Ht; apply elem_of_nil in Ht]].
  destruct (present (currentToken c)) eqn:Htoken; simpl;
    [|by split; [|intros t Ht; apply elem_of_nil in Ht]].
  apply present_Some in Htoken.
  cases; (split; [done|]); intros t Ht; simpl in Ht;
    try (by apply elem_of_nil in Ht);
    apply list_elem_of_singleton in Ht; by subst t.
Qed.

Lemma dispatch_token (decoded : value) (c : StreamClient) :
  omap lease_token (dispatch decoded c).1 = []
  ∧ renewals_use (currentToken c) (dispatch decoded c).1.
Proof.
  unfold dispatch, renewals_use.
  destruct (falsy decoded); [by split; [|intros t Ht; apply elem_of_nil in Ht]|].
  destruct (isWsX402Event decoded).
  - destruct (handleX402_token decoded c) as [Hl Hr].
    destruct (handleX402 decoded c) as [out k]. simpl in *. by split.
  - cases; (split; [done|]); intros t Ht; by apply elem_of_nil in Ht.
Qed.

Lemma afterRenewHttp_token (r : exn + RenewResponse) (c : StreamClient) :
  omap renewal_token (afterRenewHttp r c).2 = []
  ∧ currentToken (afterRenewHttp r c).1
    = from_option Some (currentToken c) (last_lease (afterRenewHttp r c).2).
Proof. unfold afterRenewHttp, last_lease, send. by cases. Qed.

Lemma afterRenewInband_silent (r : exn + PaymentRequired) (c : StreamClient) :
  silent (afterRenewInband r c).1.
Proof. unfold afterRenewInband, silent. by cases. Qed.

Lemma afterCreatePayload_silent (p : PaymentRequiredV2Compat) (r : exn + value)
    (c : StreamClient) :
  silent (afterCreatePayload p r c).
Proof. unfold afterCreatePayload, silent, send. by cases. Qed.

Section Sessions.
Context (URL_resolve : jsstring → jsstring → option jsstring).
Context (JSON_parse : jsstring → option value).

Abbreviation step := (Client.step URL_resolve JSON_parse).
Abbreviation run := (Client.run URL_resolve JSON_parse).

Lemma connected_token (wsUrl token id : jsstring) (c : StreamClient) :
  omap renewal_token (connected URL_resolve wsUrl token id c).2 = []
  ∧ currentToken (connected URL_resolve wsUrl token id c).1
    = from_option Some (currentToken c)
        (last_lease (connected URL_resolve wsUrl token id c).2).
Proof. unfold connected, last_lease. by cases. Qed.

Lemma connectedNoSocket_token (wsUrl token id : jsstring) (e : exn) (c : StreamClient) :
  omap renewal_token (connectedNoSocket URL_resolve wsUrl token id e c).2 = []
  ∧ currentToken (connectedNoSocket URL_resolve wsUrl token id e c).1
    = from_option Some (currentToken c)
        (last_lease (connectedNoSocket URL_resolve wsUrl token id e c).2).
Proof. unfold connectedNoSocket, last_lease. by cases. Qed.

Lemma silent_token (current : option jsstring) (out : list Output) :
  silent out →
  renewals_use current out
  ∧ current = from_option Some current (last_lease out).
Proof.
  intros [Hl Hr]. unfold renewals_use, last_lease. rewrite Hl, Hr.
  split; [|done]. intros t Ht. by apply elem_of_nil in Ht.
Qed.

Lemma no_renewal_use (current : option jsstring) (out : list Output) :
  omap renewal_token out = [] → renewals_use current out.
Proof. intros H t Ht. rewrite H in Ht. by apply elem_of_nil in Ht. Qed.

(** The continuation of a suspended run starts no renewal call, and only
    the continuation of an HTTP renewal replaces the token. *)
Lemma resume_token (k : Pending) (r : exn + Settled) (c : StreamClient) :
  renewals_use (currentToken c) (resume k r c).1.1.2
  ∧ currentToken (resume k r c).1.1.1
    = from_option Some (currentToken c) (last_lease (resume k r c).1.1.2).
Proof.
  destruct k as [| |p], r as [e|[renewed|required|payload]]; unfold resume;
    first
      [ by apply silent_token
      | by (destruct (afterRenewHttp_token (inr renewed) c) as [Hr Ht];
            split; [apply no_renewal_use|])
      | by (pose proof (afterRenewInband_silent (inr required) c) as Hs;
            destruct (afterRenewInband (inr required) c); apply silent_token)
      | by apply silent_token, afterCreatePayload_silent ].
Qed.

(** One step: every renewal call it starts is given the token that is
    current before the step, and the token after the step is the last one
    announced by the step, or the old one when none was announced. *)
Lemma step_token (i : Input) (s : Session) :
  renewals_use (currentToken (client s)) (step i s).2
  ∧ currentToken (client (step i s).1)
    = from_option Some (currentToken (client s)) (last_lease (step i s).2).
Proof.
  destruct i as [wsUrl token id| |raw| |message| |call|n r|e|wsUrl token id e| |]; simpl.
  - destruct (connected_token wsUrl token id (client s)) as [Hr Ht].
    destruct (connected URL_resolve wsUrl token id (client s)) as [c' out].
    simpl in *. split; [by apply no_renewal_use|done].
  - destruct (ws (client s)); simpl.
    + by apply silent_token, onOpen_silent.
    + by apply silent_token.
  - unfold onMessage.
    destruct raw as [raw|]; [destruct (JS.truthy raw)|]; simpl;
      try (by apply silent_token).
    destruct (dispatch_token (safeJsonParse JSON_parse raw) (client s)) as [Hl Hr].
    destruct (dispatch _ _) as [out k]. simpl in *.
    split; [done|]. unfold last_lease. by rewrite Hl.
  - split; [by apply no_renewal_use|]. by destruct (ws (client s)).
  - by apply silent_token.
  - by apply silent_token.
  - destruct (watch_silent call (client s)) as [Ht Hs].
    destruct (watch call (client s)) as [c' out]. simpl in *.
    rewrite Ht. by apply silent_token.
  - destruct (inflight s !! n) as [k|]; [|by apply silent_token].
    pose proof (resume_token k r (client s)) as Hres.
    destruct (resume k r (client s)) as [[[c' out] k'] ok]. simpl in Hres.
    destruct ok; [done|]. by apply silent_token.
  - by apply silent_token.
  - destruct (connectedNoSocket_token wsUrl token id e (client s)) as [Hr Ht].
    destruct (connectedNoSocket URL_resolve wsUrl token id e (client s)) as [c' out].
    simpl in *. split; [by apply no_renewal_use|done].
  - by apply silent_token, onOpen_silent.
  - by apply silent_token.
Qed.

Lemma last_lease_app (l out : list Output) :
  last_lease (l ++ out) = from_option Some (last_lease l) (last_lease out).
Proof.
  unfold last_lease. rewrite omap_app.
  destruct (omap lease_token out) as [|x k _] using rev_ind.
  - by rewrite app_nil_r.
  - by rewrite app_assoc, !last_snoc.
Qed.

(** Along a run, the token held before each step is the one most recently
    announced, and each entry of the run records the outputs of its step. *)
Lemma run_token_log (inputs : list Input) (s : Session) (l : list Output)
    (before after : list (Session * Input * list Output))
    (e : Session * Input * list Output) :
  currentToken (client s) = last_lease l →
  run inputs s = before ++ e :: after →
  currentToken (client e.1.1) = last_lease (l ++ log before)
  ∧ e.2 = (step e.1.2 e.1.1).2.
Proof.
  revert s l before. induction inputs as [|i rest IH]; intros s l before Hinv Hrun.
  - by destruct before.
  - simpl in Hrun. destruct (Client.step URL_resolve JSON_parse i s) as [s' out] eqn:Hstep.
    destruct before as [|e0 before]; simpl in Hrun.
    + injection Hrun as <- _. simpl. rewrite Hstep, app_nil_r. done.
    + injection Hrun as <- Hrun.
      destruct (step_token i s) as [_ Htoken]. rewrite Hstep in Htoken. simpl in Htoken.
      destruct (IH s' (l ++ out) before) as [H1 H2]; [|done|].
      * by rewrite last_lease_app, <- Hinv.
      * split; [|done]. rewrite H1. unfold log. simpl. by rewrite app_assoc.
Qed.

End Sessions.

(** C8: a session holds one current token (the field [currentToken]), and
    in every run of a session from its construction, each renewal call
    (HTTP or in-band) is given the token that is current when the renewal
    is started, which is the token announced most recently by a connect or
    by a successful renewal; a token that has been replaced is therefore
    not the one given to a later renewal. *)
Theorem renewal_uses_current_token
    (URL_pathname : jsstring → option jsstring)
    (URL_resolve : jsstring → jsstring → option jsstring)
    (JSON_parse : jsstring → option value)
    (cfg : StreamClientConfig) (c0 : StreamClient) (inputs : list Input)
    (before after : list (Session * Input * list Output))
    (e : Session * Input * list Output) (t : jsstring) :
  Client.new URL_pathname cfg = inr c0 →
  Client.run URL_resolve JSON_parse inputs (mkSession c0 []) = before ++ e :: after →
  t ∈ omap renewal_token e.2 →
  currentToken (client e.1.1) = Some t
  ∧ last_lease (log before) = Some t
  ∧ ∀ t' : jsstring, t' ∈ omap renewal_token e.2 → t' = t.
Proof.
  intros Hnew Hrun Ht. injection Hnew as <-.
  destruct (λ H, run_token_log URL_resolve JSON_parse inputs _ [] before after e H Hrun)
    as [Hlog Hout]; [reflexivity|].
  destruct (step_token URL_resolve JSON_parse e.1.2 e.1.1) as [Huse _].
  rewrite <- Hout in Huse.
  pose proof (Huse t Ht) as Hcur.
  rewrite app_nil_l in Hlog.
  split; [done|]. split; [by rewrite <- Hlog|].
  intros t' Ht'. apply Huse in Ht'. congruence.
Qed.

Lemma renewal_uses_current_token_witness :
  let steps := Client.run Samples.resolve_concat Samples.parse_reminder
                 Samples.http_session_inputs
                 (mkSession (mkClient Samples.http_v2_config None None None v2) []) in
  last_lease (log (take 5 steps)) = Some (js "lease-2")
  ∧ omap renewal_token (default [] (snd <$> steps !! 5%nat)) = [js "lease-2"].
Proof.
  set (s0 := mkSession (mkClient Samples.http_v2_config None None None v2) []).
  set (steps := Client.run Samples.resolve_concat Samples.parse_reminder
                  Samples.http_session_inputs s0).
  simpl.
  assert (Hcalls : omap renewal_token (default [] (snd <$> steps !! 5%nat))
                   = [js "lease-2"]) by (by vm_compute).
  split; [|exact Hcalls].
  apply (renewal_uses_current_token Samples.no_url Samples.resolve_concat
           Samples.parse_reminder Samples.http_v2_config
           (mkClient Samples.http_v2_config None None None v2)
           Samples.http_session_inputs (take 5 steps) (drop 6 steps)
           (default (s0, InOpen, []) (steps !! 5%nat)) (js "lease-2")).
  - reflexivity.
  - vm_compute. reflexivity.
  - vm_compute. apply list_elem_of_here.
Defined.

End LeaseProofs.

(** ** More on the ring buffer *)

Module RingMore.
Import Ring RingSpec RingProofs.

(** X1: On a ring built by the constructor and used in any way, [toArray]
    after further pushes is the previous contents followed by the pushed
    items, cut to the last [capacity] of them. *)
Theorem ring_contents_after_pushes {T} (c : float) (rb0 : RingBuffer T)
    (cs : list call) (items : list T) :
  new c = inr rb0 →
  toArray (pushAll items (runAll cs rb0))
  = keep_last (N.to_nat (capacity rb0)) (toArray (runAll cs rb0) ++ items).
Proof.
  intros Hnew.
  destruct (repr_runAll cs rb0 [] (repr_new c rb0 Hnew)) as [l Hl].
  rewrite (toArray_repr _ _ (repr_pushAll items _ _ Hl)).
  by rewrite (toArray_repr _ _ Hl), capacity_runAll.
Qed.

Lemma ring_contents_after_pushes_witness :
  toArray (pushAll [4; 5]%nat (runAll [Push 1%nat; Push 2%nat; Push 3%nat]
                                 (Samples.empty_ring 3)))
  = [3; 4; 5]%nat.
Proof.
  rewrite (ring_contents_after_pushes 3%float (Samples.empty_ring 3)
             [Push 1%nat; Push 2%nat; Push 3%nat] [4; 5]%nat).
  - reflexivity.
  - vm_compute. reflexivity.
Defined.

(** X2: On such a ring, [isEmpty] holds exactly when [toArray] is empty,
    [isFull] exactly when [toArray] has [size] items, [clear] empties the
    ring, and no call changes [size]. *)
Theorem ring_full_empty_clear {T} (c : float) (rb0 : RingBuffer T) (cs : list call) :
  new c = inr rb0 →
  let rb := runAll cs rb0 in
  (isEmpty rb = true ↔ toArray rb = [])
  ∧ (isFull rb = true ↔ N.of_nat (List.length (toArray rb)) = size rb)
  ∧ toArray (clear rb) = [] ∧ iterate (clear rb) = []
  ∧ isEmpty (clear rb) = true
  ∧ size rb = size rb0.
Proof.
  intros Hnew rb.
  destruct (repr_runAll cs rb0 [] (repr_new c rb0 Hnew)) as [l Hl]. fold rb in Hl.
  rewrite (toArray_repr _ _ Hl).
  pose proof Hl as (Hcount & _).
  unfold isEmpty, isFull, size. rewrite Hcount.
  split; [|split; [|split; [|split; [|split]]]].
  - rewrite N.eqb_eq. destruct l; simpl; [done|]. split; [lia|done].
  - by rewrite N.eqb_eq.
  - by rewrite (toArray_repr _ _ (repr_clear _ _ Hl)).
  - by rewrite (iterate_repr _ _ (repr_clear _ _ Hl)).
  - done.
  - apply capacity_runAll.
Qed.

Lemma ring_full_empty_clear_witness :
  let rb := runAll [Push 1%nat; Push 2%nat] (Samples.empty_ring 2) in
  (isFull rb = true ↔ N.of_nat (List.length (toArray rb)) = size rb)
  ∧ toArray (clear rb) = [].
Proof.
  destruct (ring_full_empty_clear 2%float (Samples.empty_ring 2)
              [Push 1%nat; Push 2%nat]) as (_ & H2 & H3 & _).
  - vm_compute. reflexivity.
  - exact (conj H2 H3).
Defined.

(** X3: On such a ring the iterator yields what [toArray] returns, in the same
    order, and [length] is the number of those items. *)
Theorem ring_iterator_agrees_with_toArray {T} (c : float) (rb0 : RingBuffer T)
    (cs : list call) :
  new c = inr rb0 →
  let rb := runAll cs rb0 in
  iterate rb = toArray rb
  ∧ Ring.length rb = N.of_nat (List.length (toArray rb)).
Proof.
  intros Hnew rb.
  destruct (repr_runAll cs rb0 [] (repr_new c rb0 Hnew)) as [l Hl]. fold rb in Hl.
  rewrite (toArray_repr _ _ Hl), (iterate_repr _ _ Hl).
  split; [done|]. by destruct Hl as (Hcount & _).
Qed.

Lemma ring_iterator_agrees_with_toArray_witness :
  iterate (runAll [Push 1%nat; Push 2%nat; Push 3%nat; ToArray; Push 4%nat]
             (Samples.empty_ring 3))
  = [2; 3; 4]%nat.
Proof.
  destruct (ring_iterator_agrees_with_toArray 3%float (Samples.empty_ring 3)
              [Push 1%nat; Push 2%nat; Push 3%nat; ToArray; Push 4%nat]) as [H _].
  - vm_compute. reflexivity.
  - rewrite H. reflexivity.
Defined.

(** X4: A capacity strictly between 0 and 1 is accepted by the constructor
    and floored to 0. The ring then never stores anything: whatever is
    pushed, [toArray] and the iterator stay empty, [length] stays 0, and
    the ring is at once full and empty. *)
Theorem fractional_capacity_stores_nothing {T} (c : float) (rb0 : RingBuffer T)
    (cs : list call) :
  new c = inr rb0 → Math_floor c = 0%Z →
  let rb := runAll cs rb0 in
  toArray rb = [] ∧ iterate rb = [] ∧ Ring.length rb = 0%N
  ∧ isFull rb = true ∧ isEmpty rb = true.
Proof.
  intros Hnew Hfloor rb.
  assert (capacity rb0 = 0%N) as Hcap.
  { unfold new in Hnew. destruct (negb _ || _); [done|].
    destruct (_ <? _)%Z; [done|]. simplify_eq. simpl. by rewrite Hfloor. }
  destruct (repr_runAll cs rb0 [] (repr_new c rb0 Hnew)) as [l Hl]. fold rb in Hl.
  rewrite (toArray_repr _ _ Hl), (iterate_repr _ _ Hl).
  destruct Hl as (Hcount & Hle & _).
  assert (capacity rb = 0%N) as Hcap' by (unfold rb; by rewrite capacity_runAll).
  assert (count rb = 0%N) as Hzero by lia.
  unfold Ring.length, isFull, isEmpty. rewrite Hcap', Hzero.
  destruct l; [done|]. simpl in Hcount. lia.
Qed.

Lemma fractional_capacity_stores_nothing_witness :
  toArray (runAll [Push 1%nat; Push 2%nat] (Samples.empty_ring 0)) = [].
Proof.
  apply (fractional_capacity_stores_nothing 0.5%float (Samples.empty_ring 0)
           [Push 1%nat; Push 2%nat]).
  - vm_compute. reflexivity.
  - vm_compute. reflexivity.
Defined.

End RingMore.

(** ** More on the dashboard store *)

Module StoreMore.
Import Store StoreOps RingSpec RingProofs.

Lemma ring_new_shape {T} (c : float) (rb : Ring.RingBuffer T) :
  Ring.new c = inr rb →
  rb = Samples.empty_ring (Z.to_N (Math_floor c)).
Proof.
  unfold Ring.new. destruct (negb _ || _); [done|]. destruct (_ <? _)%Z; [done|].
  by intros [= <-].
Qed.

Lemma repr_empty_ring {T} (n : N) : repr (Samples.empty_ring (T:=T) n) [].
Proof.
  split; [done|]. split; [simpl; lia|]. simpl.
  intros Hc. exists 0%N. split; [done|]. split; [done|]. split; [|done].
  reflexivity.
Qed.

(** Pushing on a ring that holds the last [n] of [l], [n] being its
    capacity, gives a ring that holds the last [n] of [l ++ [x]]. *)
Lemma repr_push_last {T} (rb : Ring.RingBuffer T) (l : list T) (x : T) :
  repr rb (keep_last (N.to_nat (Ring.capacity rb)) l) →
  repr (Ring.push x rb) (keep_last (N.to_nat (Ring.capacity rb)) (l ++ [x])).
Proof.
  intros H. apply (repr_push x) in H. by rewrite keep_last_app_l in H.
Qed.

Lemma Array_slice_last {A} (count : Z) (l : list A) :
  (0 < count)%Z → Array_slice (- count) l = keep_last (Z.to_nat count) l.
Proof.
  intros Hc. unfold Array_slice, keep_last.
  destruct (Z.ltb_spec (- count) 0); [|lia]. f_equal. lia.
Qed.

Lemma Array_slice_zero {A} (l : list A) : Array_slice (- 0) l = l.
Proof. unfold Array_slice. simpl. by rewrite Z.min_l by lia. Qed.

Section Runs.
Context {WsSwapQuoteEvent WsPoolCreatedEvent WsPoolReservesEvent : Type}.
Context (notionalUsd : WsSwapQuoteEvent → option float).
Context (pool : WsPoolReservesEvent → jsstring).

Abbreviation Store :=
  (@Store.DashboardStore WsSwapQuoteEvent WsPoolCreatedEvent WsPoolReservesEvent).
Abbreviation Call :=
  (@StoreCall WsSwapQuoteEvent WsPoolCreatedEvent WsPoolReservesEvent).
Abbreviation run := (applyAll notionalUsd pool).

Implicit Types (st : Store) (calls : list Call).

Lemma run_snoc calls (call : Call) st :
  run (calls ++ [call]) st = apply notionalUsd pool call (run calls st).
Proof. unfold applyAll. by rewrite foldl_app. Qed.

(** What the constructor builds. *)
Lemma new_shape (config : StoreConfig) st :
  Store.new config = inr st →
  st = mkStore ∅ ∅
         (Samples.empty_ring (Ring.capacity (swaps st)))
         (Samples.empty_ring (Ring.capacity (swaps st)))
         (Samples.empty_ring (Ring.capacity (pools st))) ∅
         (mkStats 0 0 0%float 0 0 None)
         (Samples.empty_ring 1000) (Samples.empty_ring 1000)
         (default 300%float (cfgPriceHistoryLength config))
  ∧ Ring.capacity (swaps st)
    = Z.to_N (Math_floor (default 1000%float (cfgSwapHistoryLength config)))
  ∧ Ring.capacity (pools st)
    = Z.to_N (Math_floor (default 100%float (cfgPoolHistoryLength config))).
Proof.
  unfold Store.new. intros H.
  repeat match type of H with
         | match ?x with _ => _ end = _ => destruct x eqn:?; [done|]
         end.
  injection H as <-. simpl.
  repeat match goal with
         | E : Ring.new _ = inr _ |- _ => apply ring_new_shape in E; subst
         end.
  done.
Qed.

(** The three event rings hold the last items inserted. *)
Lemma event_rings calls (config : StoreConfig) st0 :
  Store.new config = inr st0 →
  let st := run calls st0 in
  repr (swaps st) (keep_last (N.to_nat (Ring.capacity (swaps st0))) (quotesOf calls))
  ∧ repr (swapAlerts st)
      (keep_last (N.to_nat (Ring.capacity (swaps st0))) (alertsOf calls))
  ∧ repr (pools st) (keep_last (N.to_nat (Ring.capacity (pools st0))) (poolsOf calls))
  ∧ Ring.capacity (swaps st) = Ring.capacity (swaps st0)
  ∧ Ring.capacity (swapAlerts st) = Ring.capacity (swaps st0)
  ∧ Ring.capacity (pools st) = Ring.capacity (pools st0).
Proof.
  intros Hnew. destruct (new_shape _ _ Hnew) as (Hst0 & _).
  induction calls as [|call calls IH] using rev_ind.
  - simpl. rewrite Hst0. simpl. repeat split; apply repr_empty_ring.
  - cbv zeta in *. rewrite run_snoc.
    destruct IH as (Hs & Ha & Hp & Cs & Ca & Cp).
    unfold quotesOf, alertsOf, poolsOf in *. rewrite !omap_app.
    destruct call as [now data|now1 now2 swap|now1 now2 swap|p|r]; simpl;
      rewrite ?app_nil_r.
    + unfold updatePrice.
      destruct (priceHistory _ !! _); simpl; [done|]. by destruct (Ring.new _).
    + assert (Hshape : ∀ x : Store,
        swaps (addSwapQuote notionalUsd now1 now2 swap x).1 = Ring.push swap (swaps x)
        ∧ swapAlerts (addSwapQuote notionalUsd now1 now2 swap x).1 = swapAlerts x
        ∧ pools (addSwapQuote notionalUsd now1 now2 swap x).1 = pools x).
      { intros x. unfold addSwapQuote.
        destruct (notionalUsd swap) as [n|]; [destruct (Number_isFinite n)|]; done. }
      destruct (Hshape (run calls st0)) as (-> & -> & ->).
      rewrite capacity_push. split; [|done].
      rewrite <- Cs. apply repr_push_last. by rewrite Cs.
    + rewrite capacity_push. split; [done|]. split; [|done].
      rewrite <- Ca. apply repr_push_last. by rewrite Ca.
    + rewrite capacity_push. split; [done|]. split; [done|]. split; [|done].
      rewrite <- Cp. apply repr_push_last. by rewrite Cp.
    + done.
Qed.

(** X5: [getRecentSwaps(count)] and [getRecentPools(count)] on a store built by
    the constructor: for [count >= 1] they return the last [count] items
    inserted, as far as the ring (of capacity [floor] of the configured
    history length) still holds them, oldest first; for [count = 0] they
    return everything the ring holds, because [slice(-0)] is [slice(0)]. *)
Theorem recent_items_are_last_inserted calls (config : StoreConfig) st0 (count : Z) :
  Store.new config = inr st0 →
  let st := run calls st0 in
  let swapCap := Z.to_nat (Math_floor (default 1000%float (cfgSwapHistoryLength config))) in
  let poolCap := Z.to_nat (Math_floor (default 100%float (cfgPoolHistoryLength config))) in
  ((0 < count)%Z →
     getRecentSwaps count st
     = keep_last (Z.to_nat count) (keep_last swapCap (quotesOf calls))
     ∧ getRecentPools count st
       = keep_last (Z.to_nat count) (keep_last poolCap (poolsOf calls)))
  ∧ getRecentSwaps 0 st = keep_last swapCap (quotesOf calls)
  ∧ getRecentPools 0 st = keep_last poolCap (poolsOf calls).
Proof.
  intros Hnew st swapCap poolCap.
  destruct (event_rings calls config st0 Hnew) as (Hs & _ & Hp & _).
  destruct (new_shape _ _ Hnew) as (_ & Cs & Cp).
  fold st in Hs, Hp. rewrite Cs in Hs. rewrite Cp in Hp.
  rewrite Z_N_nat in Hs, Hp. fold swapCap in Hs. fold poolCap in Hp.
  unfold getRecentSwaps, getRecentPools.
  rewrite (toArray_repr _ _ Hs), (toArray_repr _ _ Hp).
  split; [|split].
  - intros Hc. by rewrite !Array_slice_last.
  - apply Array_slice_zero.
  - apply Array_slice_zero.
Qed.

(** What [addSwapQuote] and [addSwapAlert] leave alone. *)
Lemma addSwapQuote_frame (now1 now2 : Z) (swap : WsSwapQuoteEvent) st :
  let st' := (addSwapQuote notionalUsd now1 now2 swap st).1 in
  swapTimestamps st' = Ring.push now1 (swapTimestamps st)
  ∧ alertTimestamps st' = alertTimestamps st
  ∧ totalSwaps (stats st') = (totalSwaps (stats st) + 1)%N
  ∧ totalSwapAlerts (stats st') = totalSwapAlerts (stats st)
  ∧ alertsPerMinute (stats st') = alertsPerMinute (stats st)
  ∧ swapsPerMinute (stats st') = recentCount now2 (Ring.push now1 (swapTimestamps st))
  ∧ prices st' = prices st ∧ priceHistory st' = priceHistory st
  ∧ priceHistoryLength st' = priceHistoryLength st.
Proof.
  unfold addSwapQuote.
  destruct (notionalUsd swap) as [n|]; [destruct (Number_isFinite n)|]; done.
Qed.

Lemma recentCount_le (now : Z) (rb : Ring.RingBuffer Z) (l : list Z) :
  repr rb l → (recentCount now rb ≤ N.of_nat (List.length l))%N.
Proof.
  intros H. unfold recentCount, recent. rewrite (toArray_repr _ _ H).
  pose proof (length_filter (λ t : Z, (now - 60000 < t)%Z) l). lia.
Qed.

(** The two timestamp rings and the counters, on a store built by the
    constructor. *)
Lemma rate_rings calls (config : StoreConfig) st0 :
  Store.new config = inr st0 →
  let st := run calls st0 in
  ∃ ls la : list Z,
    repr (swapTimestamps st) ls ∧ Ring.capacity (swapTimestamps st) = 1000%N
    ∧ repr (alertTimestamps st) la ∧ Ring.capacity (alertTimestamps st) = 1000%N
    ∧ (swapsPerMinute (stats st) ≤ N.of_nat (List.length ls))%N
    ∧ (alertsPerMinute (stats st) ≤ N.of_nat (List.length la))%N
    ∧ (List.length ls ≤ List.length (quotesOf calls))%nat
    ∧ (List.length la ≤ List.length (alertsOf calls))%nat
    ∧ totalSwaps (stats st) = N.of_nat (List.length (quotesOf calls))
    ∧ totalSwapAlerts (stats st) = N.of_nat (List.length (alertsOf calls)).
Proof.
  intros Hnew. destruct (new_shape _ _ Hnew) as (Hst0 & _).
  induction calls as [|call calls IH] using rev_ind.
  - exists [], []. simpl. rewrite Hst0. simpl.
    split_and!; try apply repr_empty_ring; lia.
  - cbv zeta in *. rewrite run_snoc.
    destruct IH as (ls & la & Hs & Cs & Ha & Ca & Rs & Ra & Ls & La & Ts & Ta).
    unfold quotesOf, alertsOf in *. rewrite !omap_app, !length_app.
    destruct call as [now data|now1 now2 swap|now1 now2 swap|p|r]; simpl.
    + exists ls, la. unfold updatePrice.
      destruct (priceHistory _ !! _); simpl;
        [|destruct (Ring.new _); simpl]; split_and!; try done; lia.
    + destruct (addSwapQuote_frame now1 now2 swap (run calls st0))
        as (-> & -> & -> & -> & -> & -> & _).
      pose proof (repr_push now1 _ _ Hs) as Hs'.
      exists (keep_last (N.to_nat (Ring.capacity (swapTimestamps (run calls st0))))
                (ls ++ [now1])), la.
      rewrite capacity_push.
      pose proof (recentCount_le now2 _ _ Hs').
      assert (List.length (keep_last (N.to_nat (Ring.capacity
                (swapTimestamps (run calls st0)))) (ls ++ [now1])) ≤ List.length ls + 1)%nat.
      { unfold keep_last. rewrite length_drop, length_app. simpl. lia. }
      split_and!; try done; lia.
    + pose proof (repr_push now1 _ _ Ha) as Ha'.
      exists ls, (keep_last (N.to_nat (Ring.capacity (alertTimestamps (run calls st0))))
                    (la ++ [now1])).
      rewrite capacity_push.
      pose proof (recentCount_le now2 _ _ Ha').
      assert (List.length (keep_last (N.to_nat (Ring.capacity
                (alertTimestamps (run calls st0)))) (la ++ [now1])) ≤ List.length la + 1)%nat.
      { unfold keep_last. rewrite length_drop, length_app. simpl. lia. }
      split_and!; try done; lia.
    + exists ls, la. split_and!; try done; lia.
    + exists ls, la. split_and!; try done; lia.
Qed.

(** X6: On a store built by the constructor, whatever is inserted and at
    whatever rate, the two per-minute rates never exceed 1000 (the capacity
    of the timestamp rings) nor the matching total. *)
Theorem rates_saturate_at_ring_capacity calls (config : StoreConfig) st0 :
  Store.new config = inr st0 →
  let s := getStats (run calls st0) in
  (swapsPerMinute s ≤ 1000)%N ∧ (alertsPerMinute s ≤ 1000)%N
  ∧ (swapsPerMinute s ≤ totalSwaps s)%N
  ∧ (alertsPerMinute s ≤ totalSwapAlerts s)%N.
Proof.
  intros Hnew.
  destruct (rate_rings calls config st0 Hnew)
    as (ls & la & Hs & Cs & Ha & Ca & Rs & Ra & Ls & La & Ts & Ta).
  destruct Hs as (Hcs & Hles & _). destruct Ha as (Hca & Hlea & _).
  unfold getStats. cbv zeta. lia.
Qed.

(** X7: The totals count the calls: [totalSwaps] is the number of
    [addSwapQuote] calls and [totalSwapAlerts] the number of [addSwapAlert]
    calls since construction; and a call that is not an [addSwapQuote] with
    a finite [notionalUsd] leaves the notional total and the largest swap
    as they were. *)
Theorem totals_count_calls calls (config : StoreConfig) st0 (call : Call) st :
  Store.new config = inr st0 →
  totalSwaps (getStats (run calls st0)) = N.of_nat (List.length (quotesOf calls))
  ∧ totalSwapAlerts (getStats (run calls st0)) = N.of_nat (List.length (alertsOf calls))
  ∧ (match call with
     | AddSwapQuote _ _ swap => from_option Number_isFinite false (notionalUsd swap) = false
     | _ => True
     end →
     totalNotionalUsd (getStats (apply notionalUsd pool call st))
     = totalNotionalUsd (getStats st)
     ∧ largestSwapUsd (getStats (apply notionalUsd pool call st))
       = largestSwapUsd (getStats st)).
Proof.
  intros Hnew.
  destruct (rate_rings calls config st0 Hnew)
    as (ls & la & _ & _ & _ & _ & _ & _ & _ & _ & Ts & Ta).
  split; [done|]. split; [done|].
  destruct call as [now data|now1 now2 swap|now1 now2 swap|p|r]; simpl.
  - intros _. unfold updatePrice.
    destruct (priceHistory _ !! _); simpl; [done|]. by destruct (Ring.new _).
  - unfold addSwapQuote.
    destruct (notionalUsd swap) as [n|]; simpl; [|done].
    by intros ->.
  - done.
  - done.
  - done.
Qed.

Lemma pointsOf_snoc (key : jsstring) calls (call : Call) :
  pointsOf key (calls ++ [call])
  = pointsOf key calls
    ++ match call with
       | UpdatePrice now data =>
           if bool_decide (pairKey data = key)
           then [mkPricePoint (price data) now] else []
       | _ => []
       end.
Proof.
  unfold pointsOf. rewrite omap_app. f_equal.
  destruct call as [now data| | | |]; simpl; try done.
  by case_bool_decide.
Qed.

(** The per-pair history rings, on a store built by the constructor with a
    history length that [RingBuffer] accepts. *)
Lemma price_rings calls (config : StoreConfig) st0 (rb0 : Ring.RingBuffer PricePoint)
    (key : jsstring) :
  Store.new config = inr st0 →
  Ring.new (default 300%float (cfgPriceHistoryLength config)) = inr rb0 →
  let st := run calls st0 in
  priceHistoryLength st = default 300%float (cfgPriceHistoryLength config)
  ∧ match priceHistory st !! key with
    | Some rb =>
        repr rb (keep_last (N.to_nat (Ring.capacity rb0)) (pointsOf key calls))
        ∧ Ring.capacity rb = Ring.capacity rb0
    | None => pointsOf key calls = []
    end.
Proof.
  intros Hnew Hrb0. destruct (new_shape _ _ Hnew) as (Hst0 & _).
  cbv zeta. revert key.
  induction calls as [|call calls IH] using rev_ind; intros key.
  - simpl. rewrite Hst0. simpl. by rewrite lookup_empty.
  - rewrite run_snoc, pointsOf_snoc.
    destruct (IH key) as (Hlen & Hkey).
    destruct call as [now data|now1 now2 swap|now1 now2 swap|p|r]; simpl.
    + unfold updatePrice.
      destruct (priceHistory (run calls st0) !! pairKey data) as [rb|] eqn:Hrb.
      * simpl. split; [done|].
        case_bool_decide as Hk.
        -- subst key. rewrite lookup_insert_eq. rewrite Hrb in Hkey.
           destruct Hkey as (Hrepr & Hcap). rewrite capacity_push.
           split; [|done]. rewrite <- Hcap. apply repr_push_last. by rewrite Hcap.
        -- rewrite lookup_insert_ne by done. rewrite app_nil_r. done.
      * rewrite Hlen, Hrb0. simpl. split; [done|].
        case_bool_decide as Hk.
        -- subst key. rewrite lookup_insert_eq. rewrite Hrb in Hkey.
           rewrite Hkey, capacity_push. split; [|done].
           apply repr_push_last. unfold keep_last. simpl.
           by apply (repr_new (default 300%float (cfgPriceHistoryLength config))).
        -- rewrite lookup_insert_ne by done. rewrite app_nil_r. done.
    + destruct (addSwapQuote_frame now1 now2 swap (run calls st0))
        as (_ & _ & _ & _ & _ & _ & _ & -> & ->).
      by rewrite app_nil_r.
    + by rewrite app_nil_r.
    + by rewrite app_nil_r.
    + by rewrite app_nil_r.
Qed.

(** X8: With a history length that [RingBuffer] accepts, the history of a pair
    is made of the points of the [updatePrice] calls for that very pair, in
    call order, cut to the last [floor(priceHistoryLength)] of them; calls
    for other pairs and the other insertions do not touch it, and a pair
    never updated has the empty history. *)
Theorem price_history_keeps_last_points calls (config : StoreConfig) st0
    (rb0 : Ring.RingBuffer PricePoint) (key : jsstring) :
  Store.new config = inr st0 →
  Ring.new (default 300%float (cfgPriceHistoryLength config)) = inr rb0 →
  getPriceHistory key (run calls st0)
  = keep_last (Z.to_nat (Math_floor (default 300%float (cfgPriceHistoryLength config))))
      (pointsOf key calls).
Proof.
  intros Hnew Hrb0.
  destruct (price_rings calls config st0 rb0 key Hnew Hrb0) as (_ & Hkey).
  assert (N.to_nat (Ring.capacity rb0)
          = Z.to_nat (Math_floor (default 300%float (cfgPriceHistoryLength config))))
    as Hcap.
  { rewrite (ring_new_shape _ _ Hrb0). simpl. lia. }
  unfold getPriceHistory.
  destruct (priceHistory (run calls st0) !! key) as [rb|].
  - destruct Hkey as (Hrepr & _). rewrite <- Hcap. by apply toArray_repr.
  - by rewrite Hkey.
Qed.

(** X9: The constructor does not check [priceHistoryLength]. With a length that
    [RingBuffer] refuses (zero, negative, not finite, too large), the store
    is built all the same, and then every [updatePrice] throws the ring's
    error after it has stored the price: no [price:update] is emitted, the
    price is readable with [getPrice], and every history stays empty. *)
Theorem bad_history_length_throws_on_update calls (config : StoreConfig) st0
    (e : exn) (key : jsstring) (now : Z) (data : PriceData) :
  Store.new config = inr st0 →
  Ring.new (T:=PricePoint) (default 300%float (cfgPriceHistoryLength config)) = inl e →
  let st := run calls st0 in
  getPriceHistory key st = []
  ∧ updatePrice now data st
    = (mkStore (<[pairKey data :=
                    mkPriceData (pairKey data) (pairLabel data) (price data) (dex data)
                      (slot data) (computeChangePct (prices st !! pairKey data) data)]>
                  (prices st))
         (priceHistory st) (swaps st) (swapAlerts st) (pools st) (reserves st)
         (stats st) (swapTimestamps st) (alertTimestamps st) (priceHistoryLength st),
       [], Some e).
Proof.
  intros Hnew He. destruct (new_shape _ _ Hnew) as (Hst0 & _). cbv zeta.
  assert (priceHistoryLength (run calls st0)
          = default 300%float (cfgPriceHistoryLength config)
          ∧ priceHistory (run calls st0) = ∅) as (Hlen & Hhist).
  { induction calls as [|call calls IH] using rev_ind.
    - simpl. rewrite Hst0. done.
    - rewrite run_snoc. destruct IH as (Hlen & Hhist).
      destruct call as [now' data'|now1 now2 swap|now1 now2 swap|p|r]; simpl;
        try done.
      + unfold updatePrice. by rewrite Hhist, lookup_empty, Hlen, He.
      + by destruct (addSwapQuote_frame now1 now2 swap (run calls st0))
          as (_ & _ & _ & _ & _ & _ & _ & -> & ->). }
  split.
  - unfold getPriceHistory. by rewrite Hhist, lookup_empty.
  - unfold updatePrice. by rewrite Hhist, lookup_empty, Hlen, He.
Qed.

Lemma SFltb_trans (a b c : spec_float) :
  SFltb a b = true → SFltb b c = true → SFltb a c = true.
Proof.
  unfold SFltb, SFcompare.
  destruct a as [sa|sa| |sa ma ea], b as [sb|sb| |sb mb eb], c as [sc|sc| |sc mc ec];
    try done; try destruct sa; try destruct sb; try destruct sc; try done;
    change (Pos.compare_cont Eq) with Pos.compare;
    destruct (Z.compare_spec ea eb), (Z.compare_spec eb ec), (Z.compare_spec ea ec);
    try done; try lia;
    destruct (Pos.compare_spec ma mb), (Pos.compare_spec mb mc),
      (Pos.compare_spec ma mc); simpl; try done; lia.
Qed.

Lemma SFltb_irrefl (a : spec_float) : SFltb a a = false.
Proof.
  unfold SFltb, SFcompare.
  destruct a as [sa|sa| |sa ma ea]; try done; destruct sa; try done;
    change (Pos.compare_cont Eq) with Pos.compare;
    by rewrite Z.compare_refl, Pos.compare_refl.
Qed.

Lemma ltb_trans (x y z : float) :
  (x <? y)%float = true → (y <? z)%float = true → (x <? z)%float = true.
Proof. rewrite !FloatAxioms.ltb_spec. apply SFltb_trans. Qed.

Lemma ltb_irrefl (x : float) : (x <? x)%float = false.
Proof. rewrite FloatAxioms.ltb_spec. apply SFltb_irrefl. Qed.

Lemma notionalsOf_snoc calls (call : Call) :
  notionalsOf notionalUsd (calls ++ [call])
  = notionalsOf notionalUsd calls
    ++ match call with
       | AddSwapQuote _ _ swap =>
           match notionalUsd swap with
           | Some n => if Number_isFinite n then [n] else []
           | None => []
           end
       | _ => []
       end.
Proof.
  unfold notionalsOf. rewrite omap_app. f_equal.
  destruct call as [|now1 now2 swap| | |]; simpl; try done.
  destruct (notionalUsd swap) as [n|]; [|done]. by destruct (Number_isFinite n).
Qed.

Lemma addSwapQuote_largest (now1 now2 : Z) (swap : WsSwapQuoteEvent) st :
  largestSwapUsd (stats (addSwapQuote notionalUsd now1 now2 swap st).1)
  = match notionalUsd swap with
    | Some n =>
        if Number_isFinite n then
          match largestSwapUsd (stats st) with
          | None => Some n
          | Some l => if (l <? n)%float then Some n else Some l
          end
        else largestSwapUsd (stats st)
    | None => largestSwapUsd (stats st)
    end.
Proof.
  unfold addSwapQuote.
  destruct (notionalUsd swap) as [n|]; [destruct (Number_isFinite n)|]; done.
Qed.

(** X10: On a store built by the constructor, [largestSwapUsd] is undefined
    exactly as long as no quote with a finite [notionalUsd] was added;
    afterwards it is one of those finite notionals, and none of them is
    greater. *)
Theorem largest_swap_is_maximum calls (config : StoreConfig) st0 :
  Store.new config = inr st0 →
  match largestSwapUsd (getStats (run calls st0)) with
  | None => notionalsOf notionalUsd calls = []
  | Some m =>
      m ∈ notionalsOf notionalUsd calls
      ∧ Number_isFinite m = true
      ∧ ∀ n, n ∈ notionalsOf notionalUsd calls → (m <? n)%float = false
  end.
Proof.
  intros Hnew. destruct (new_shape _ _ Hnew) as (Hst0 & _).
  assert (match largestSwapUsd (stats (run calls st0)) with
          | None => notionalsOf notionalUsd calls = []
          | Some m =>
              m ∈ notionalsOf notionalUsd calls
              ∧ ∀ n, n ∈ notionalsOf notionalUsd calls → (m <? n)%float = false
          end) as Hinv.
  { induction calls as [|call calls IH] using rev_ind.
    - simpl. rewrite Hst0. done.
    - rewrite run_snoc, notionalsOf_snoc.
      destruct call as [now data|now1 now2 swap|now1 now2 swap|p|r]; simpl.
      + unfold updatePrice. rewrite app_nil_r.
        destruct (priceHistory _ !! _); simpl; [done|]. by destruct (Ring.new _).
      + rewrite addSwapQuote_largest.
        destruct (notionalUsd swap) as [n|]; [|by rewrite app_nil_r].
        destruct (Number_isFinite n); [|by rewrite app_nil_r].
        destruct (largestSwapUsd (stats (run calls st0))) as [l|].
        * destruct IH as (Hin & Hmax).
          destruct (l <? n)%float eqn:Hln.
          -- split; [apply elem_of_app; right; apply list_elem_of_singleton; done|].
             intros x [Hx|Hx%list_elem_of_singleton]%elem_of_app.
             ++ destruct (n <? x)%float eqn:Hnx; [|done].
                pose proof (Hmax x Hx) as Hc.
                by rewrite (ltb_trans _ _ _ Hln Hnx) in Hc.
             ++ subst x. apply ltb_irrefl.
          -- split; [apply elem_of_app; by left|].
             intros x [Hx|Hx%list_elem_of_singleton]%elem_of_app; [by apply Hmax|].
             by subst x.
        * rewrite IH. simpl. split; [apply list_elem_of_here|].
          intros x Hx%list_elem_of_singleton. subst x. apply ltb_irrefl.
      + by rewrite app_nil_r.
      + by rewrite app_nil_r.
      + by rewrite app_nil_r. }
  unfold getStats.
  destruct (largestSwapUsd (stats (run calls st0))) as [m|]; [|done].
  destruct Hinv as (Hin & Hmax). split; [done|]. split; [|done].
  unfold notionalsOf in Hin. apply list_elem_of_omap in Hin as (call & _ & Hcall).
  destruct call as [|now1 now2 swap| | |]; try done.
  destruct (notionalUsd swap) as [n|]; [|done].
  destruct (Number_isFinite n) eqn:Hfin; [|done]. by simplify_eq.
Qed.

End Runs.

Lemma recent_items_are_last_inserted_witness :
  getRecentSwaps 2
    (applyAll (λ _ : nat, None) (λ _ : unit, [])
       [AddSwapQuote 1 1 10%nat; AddSwapQuote 2 2 20%nat; AddSwapQuote 3 3 30%nat]
       Samples.numbered_store)
  = [20; 30]%nat.
Proof.
  pose proof (@recent_items_are_last_inserted nat unit unit (λ _ : nat, None)
                (λ _ : unit, [])
                [AddSwapQuote 1 1 10%nat; AddSwapQuote 2 2 20%nat; AddSwapQuote 3 3 30%nat]
                (mkStoreConfig None None None) Samples.numbered_store 2) as H.
  destruct H as [H _]; [vm_compute; reflexivity|].
  destruct H as [H _]; [done|]. rewrite H. reflexivity.
Defined.

Lemma rates_saturate_at_ring_capacity_witness :
  (swapsPerMinute
     (getStats (applyAll (λ _ : nat, None) (λ _ : unit, [])
                  [AddSwapQuote 1 1 10%nat; AddSwapQuote 2 2 20%nat]
                  Samples.numbered_store)) ≤ 1000)%N.
Proof.
  apply (@rates_saturate_at_ring_capacity nat unit unit (λ _ : nat, None)
           (λ _ : unit, [])
           [AddSwapQuote 1 1 10%nat; AddSwapQuote 2 2 20%nat]
           (mkStoreConfig None None None) Samples.numbered_store).
  vm_compute. reflexivity.
Defined.

Lemma totals_count_calls_witness :
  totalSwaps
    (getStats (applyAll (λ _ : nat, None) (λ _ : unit, [])
                 [AddSwapQuote 1 1 10%nat; AddSwapAlert 2 2 20%nat; AddSwapQuote 3 3 30%nat]
                 Samples.numbered_store))
  = 2%N.
Proof.
  apply (@totals_count_calls nat unit unit (λ _ : nat, None) (λ _ : unit, [])
           [AddSwapQuote 1 1 10%nat; AddSwapAlert 2 2 20%nat; AddSwapQuote 3 3 30%nat]
           (mkStoreConfig None None None) Samples.numbered_store
           (AddSwapAlert 0 0 0%nat) Samples.numbered_store).
  vm_compute. reflexivity.
Defined.

Lemma price_history_keeps_last_points_witness :
  getPriceHistory (js "SOL/USDC")
    (applyAll (λ _ : nat, None) (λ _ : unit, [])
       [UpdatePrice 1 (Samples.sample_price 10); UpdatePrice 2 (Samples.sample_price 11);
        UpdatePrice 3 (Samples.sample_price 12)]
       (Samples.history_store 2.5))
  = [mkPricePoint 11 2; mkPricePoint 12 3].
Proof.
  rewrite (@price_history_keeps_last_points nat unit unit (λ _ : nat, None)
             (λ _ : unit, [])
             [UpdatePrice 1 (Samples.sample_price 10);
              UpdatePrice 2 (Samples.sample_price 11);
              UpdatePrice 3 (Samples.sample_price 12)]
             (mkStoreConfig (Some 2.5%float) None None) (Samples.history_store 2.5)
             (Samples.empty_ring 2) (js "SOL/USDC")).
  - vm_compute. reflexivity.
  - vm_compute. reflexivity.
  - vm_compute. reflexivity.
Defined.

Lemma bad_history_length_throws_on_update_witness :
  (updatePrice 1 (Samples.sample_price 10) (Samples.history_store 0)).2
  = Some (Error (js "RingBuffer capacity must be a positive number")).
Proof.
  pose proof (@bad_history_length_throws_on_update nat unit unit (λ _ : nat, None)
                (λ _ : unit, []) [] (mkStoreConfig (Some 0%float) None None)
                (Samples.history_store 0)
                (Error (js "RingBuffer capacity must be a positive number"))
                (js "SOL/USDC") 1 (Samples.sample_price 10)) as H.
  destruct H as [_ H]; [vm_compute; reflexivity|vm_compute; reflexivity|].
  simpl in H. rewrite H. reflexivity.
Defined.

Lemma largest_swap_is_maximum_witness :
  largestSwapUsd
    (getStats (applyAll (λ n : nat, Some (PrimFloat.of_uint63 (Uint63.of_Z (Z.of_nat n))))
                 (λ _ : unit, [])
                 [AddSwapQuote 1 1 10%nat; AddSwapQuote 2 2 30%nat; AddSwapQuote 3 3 20%nat]
                 Samples.numbered_store))
  ≠ None.
Proof.
  pose proof (@largest_swap_is_maximum nat unit unit
                (λ n : nat, Some (PrimFloat.of_uint63 (Uint63.of_Z (Z.of_nat n))))
                (λ _ : unit, [])
                [AddSwapQuote 1 1 10%nat; AddSwapQuote 2 2 30%nat; AddSwapQuote 3 3 20%nat]
                (mkStoreConfig None None None) Samples.numbered_store) as H.
  intros Hnone. rewrite Hnone in H.
  discriminate H. vm_compute. reflexivity.
Defined.

End StoreMore.

(** ** The stream client: sockets, exceptions, watch lists *)

Module ClientMore.
Import JS Protocol X402 Client WatchSpec ClientSpec.

Lemma startsWith_prefix (p s : jsstring) :
  startsWith p s = true ↔ ∃ s', s = p ++ s'.
Proof.
  revert s. induction p as [|c p IH]; intros s; simpl.
  - split; [by exists s|done].
  - destruct s as [|d s]; [split; [done|by intros [? ?]]|].
    rewrite andb_true_iff, bool_decide_eq_true, IH. split.
    + intros [-> [s' ->]]. by exists s'.
    + intros [s' Hs]. simplify_eq. split; [done|by exists s'].
Qed.

(** X11: The version is read off the path alone. A path that does not begin
    with [http://] or [https://] is [v2] exactly when it begins with [/v2/],
    whatever the URL parser would say of it; an absolute URL that the parser
    refuses is [v1]; and the path that [buildRenewUrl] builds for a version
    reads back as that version. *)
Theorem schema_version_of_path (URL_pathname : jsstring → option jsstring)
    (p id : jsstring) (version : X402SchemaVersion) :
  (startsWith (js "http://") p = false → startsWith (js "https://") p = false →
   (parseSchemaVersion URL_pathname p = v2 ↔ startsWith (js "/v2/") p = true))
  ∧ (startsWith (js "http://") p = true ∨ startsWith (js "https://") p = true →
     URL_pathname p = None → parseSchemaVersion URL_pathname p = v1)
  ∧ parseSchemaVersion URL_pathname
      (js "/" ++ versionName version ++ js "/renew/stream/" ++ id) = version.
Proof.
  split; [|split].
  - intros H1 H2. unfold parseSchemaVersion. rewrite H1, H2. cbn [negb andb].
    destruct (startsWith (js "/v1/") p) eqn:Hv1.
    + split; [done|]. intros Hv2. exfalso.
      apply startsWith_prefix in Hv1 as [s1 ->].
      apply startsWith_prefix in Hv2 as [s2 Hs]. done.
    + by destruct (startsWith (js "/v2/") p).
  - intros Habs Hnone. unfold parseSchemaVersion. rewrite Hnone.
    assert (∃ s', p = 104%N :: s') as [s' ->].
    { destruct Habs as [H|H]; apply startsWith_prefix in H as [s' ->]; by eexists. }
    by destruct (negb _ && negb _).
  - by destruct version.
Qed.


Lemma send_no_throw (e : exn) (m : ClientMsg) (c : StreamClient) : Thrown e ∉ send m c.
Proof.
  destruct (WatchProofs.send_cases m c) as [[_ ->]|[_ ->]].
  - by intros ?%list_elem_of_singleton.
  - apply not_elem_of_nil.
Qed.

(** Case analysis on every conditional of the goal or of a hypothesis
    about membership in an output list. *)
Local Ltac split_outputs H :=
  repeat first
    [ apply elem_of_nil in H; destruct H
    | apply elem_of_cons in H; destruct H as [H|H]; [try done|]
    | apply elem_of_app in H; destruct H as [H|H] ].

Lemma watch_ws (call : WatchCall) (c : StreamClient) : ws (watch call c).1 = ws c.
Proof.
  destruct call; simpl;
    unfold addMints, removeMints, addAccounts, removeAccounts;
    repeat case_bool_decide; try done;
    try (destruct (mergeList _ _)); try (destruct (subtractList _ _));
    by repeat case_bool_decide.
Qed.

Lemma watch_outputs (call : WatchCall) (c : StreamClient) :
  (watch call c).2 = [] ∨ ∃ m, (watch call c).2 = send m (watch call c).1.
Proof.
  destruct call; simpl;
    unfold addMints, removeMints, addAccounts, removeAccounts;
    repeat case_bool_decide; auto;
    try (destruct (mergeList _ _)); try (destruct (subtractList _ _));
    repeat case_bool_decide; simpl; eauto.
Qed.

(** What the frame handler puts out before its first [await]: events and
    calls only. *)
Lemma handleX402_outputs (event : value) (c : StreamClient) (o : Output) :
  o ∈ (handleX402 event c).1 → (∃ x, o = Emitted x) ∨ (∃ x, o = Called x).
Proof.
  unfold handleX402.
  repeat (match goal with
          | |- context [if ?b then _ else _] => destruct b
          | |- context [match ?x with _ => _ end] => destruct x
          end; simpl);
    intros H; split_outputs H; subst; eauto.
Qed.

Lemma dispatch_outputs (decoded : value) (c : StreamClient) (o : Output) :
  o ∈ (dispatch decoded c).1 → (∃ x, o = Emitted x) ∨ (∃ x, o = Called x).
Proof.
  unfold dispatch.
  destruct (falsy decoded); simpl; [by intros ?%elem_of_nil|].
  destruct (isWsX402Event decoded).
  - pose proof (handleX402_outputs decoded c o) as Ho.
    destruct (handleX402 decoded c) as [out k]. simpl in *.
    intros [->|H]%elem_of_cons; eauto.
  - destruct (isWsStatusEvent decoded), (isWsEvent decoded); simpl;
      intros H; split_outputs H; subst; eauto.
Qed.

Lemma afterRenewInband_outputs (r : exn + PaymentRequired) (c : StreamClient)
    (o : Output) :
  o ∈ (afterRenewInband r c).1 → (∃ x, o = Emitted x) ∨ (∃ x, o = Called x).
Proof.
  unfold afterRenewInband, caught.
  repeat (match goal with
          | |- context [if ?b then _ else _] => destruct b
          | |- context [match ?x with _ => _ end] => destruct x
          end; simpl);
    intros H; split_outputs H; subst; eauto.
Qed.

(** What a continuation puts out: events, calls, and frames written with
    [send] on the client it returns, whose socket is the one it was given. *)
Lemma resume_outputs (k : Pending) (r : exn + Settled) (c : StreamClient) (o : Output) :
  o ∈ (resume k r c).1.1.2 →
  ws (resume k r c).1.1.1 = ws c
  ∧ ((∃ x, o = Emitted x) ∨ (∃ x, o = Called x)
     ∨ ∃ m, o ∈ send m (resume k r c).1.1.1).
Proof.
  assert (∀ r' : exn + PaymentRequired,
            o ∈ (let '(out, k') := afterRenewInband r' c in ((c, out, k'), true)).1.1.2 →
            (∃ x, o = Emitted x) ∨ (∃ x, o = Called x)) as Hinband.
  { intros r'. pose proof (afterRenewInband_outputs r' c o) as Ho.
    by destruct (afterRenewInband r' c). }
  assert (∀ p (r' : exn + value),
            o ∈ afterCreatePayload p r' c →
            (∃ x, o = Emitted x) ∨ (∃ m, o ∈ send m c)) as Hpayload.
  { intros p r'. unfold afterCreatePayload, caught.
    repeat (match goal with
            | |- context [if ?b then _ else _] => destruct b
            | |- context [match ?x with _ => _ end] => destruct x
            end; simpl);
      intros H; try (split_outputs H; subst; by eauto). }
  destruct k as [| |p], r as [e|[renewed|required|payload]]; unfold resume;
    try (by intros ?%elem_of_nil).
  - simpl. intros H. split_outputs H. subst. eauto.
  - simpl. intros H. split_outputs H; [subst; eauto|]. split; [done|]. eauto.
  - intros H. split; [by destruct (afterRenewInband _ c)|].
    destruct (Hinband (inl e) H); eauto.
  - intros H. split; [by destruct (afterRenewInband _ c)|].
    destruct (Hinband (inr required) H); eauto.
  - intros H. destruct (Hpayload p (inl e) H); eauto.
  - intros H. destruct (Hpayload p (inr payload) H); eauto.
Qed.

Lemma filter_none (P : jsstring → Prop) `{!∀ x, Decision (P x)} (l : list jsstring) :
  (∀ x, x ∈ l → ¬ P x) → filter P l = [].
Proof.
  induction l as [|x l IH]; intros Hall; [done|].
  rewrite filter_cons, decide_False by (apply Hall, list_elem_of_here).
  apply IH. intros y Hy. apply Hall. by apply elem_of_cons; right.
Qed.

(** X14: Repeating a watch-list call changes nothing: the second of two equal
    calls in a row finds an empty delta, sends no frame and leaves the
    client as the first call left it. *)
Theorem watch_call_idempotent (call : WatchCall) (c : StreamClient) :
  watch call (watch call c).1 = ((watch call c).1, []).
Proof.
  pose proof (WatchProofs.watch_sends_exact_delta call c) as H1.
  set (c1 := (watch call c).1) in *.
  pose proof (WatchProofs.watch_sends_exact_delta call c1) as H2.
  assert (delta call c1 = []) as Hd.
  { destruct H1 as (_ & Hsame & _ & Hmove & _).
    destruct (decide (delta call c = [])) as [Hempty|Hne].
    - destruct (Hsame Hempty) as [_ ->]. exact Hempty.
    - specialize (Hmove Hne).
      destruct call as [l|l|l|l]; unfold delta in *; simpl in *;
        (rewrite filter_none; [done|]); intros v Hv; rewrite Hmove;
        rewrite WatchProofs.first_occurrences_elem, list_elem_of_filter.
      + intros Hnot. apply Hnot.
        destruct (decide (v ∈ default [] (watchMints (config c)))); auto.
      + intros [Hin Hnot]. apply Hnot. auto.
      + intros Hnot. apply Hnot.
        destruct (decide (v ∈ default [] (watchAccounts (config c)))); auto.
      + intros [Hin Hnot]. apply Hnot. auto. }
  destruct H2 as (_ & Hsame & _).
  destruct (Hsame Hd) as [Hout Hpost].
  destruct (watch call c1) as [c2 out2]. simpl in *. by subst.
Qed.

Lemma trimStart_idem (s : jsstring) : trimStart (trimStart s) = trimStart s.
Proof.
  induction s as [|c s IH]; [done|]. simpl.
  destruct (is_whitespace c) eqn:Hc; [done|]. simpl. by rewrite Hc.
Qed.

Lemma trimStart_cases (s : jsstring) :
  trimStart s = [] ∨ ∃ c t, trimStart s = c :: t ∧ is_whitespace c = false.
Proof.
  induction s as [|c s IH]; [by left|]. simpl.
  destruct (is_whitespace c) eqn:Hc; [done|]. right. by exists c, s.
Qed.

Lemma trimStart_snoc (u : jsstring) (c : N) :
  is_whitespace c = false → ∃ u', trimStart (u ++ [c]) = u' ++ [c].
Proof.
  intros Hc. induction u as [|d u IH]; simpl.
  - rewrite Hc. by exists [].
  - destruct (is_whitespace d); [done|]. by exists (d :: u).
Qed.

Lemma trim_idem (s : jsstring) : trim (trim s) = trim s.
Proof.
  unfold trim.
  destruct (trimStart_cases s) as [->|(c & t & -> & Hc)]; [done|].
  assert (∃ t', trimEnd (c :: t) = c :: t') as [t' Ht'].
  { unfold trimEnd. rewrite reverse_cons.
    destruct (trimStart_snoc (reverse t) c Hc) as [u' ->].
    rewrite reverse_app. by eexists. }
  rewrite Ht'. simpl trimStart. rewrite Hc, <- Ht'.
  unfold trimEnd. by rewrite reverse_involutive, trimStart_idem.
Qed.

Lemma normalizeList_clean (l : list jsstring) (v : jsstring) :
  v ∈ normalizeList l → v ≠ [] ∧ trim v = v.
Proof.
  unfold normalizeList. intros Hv.
  apply list_elem_of_In, filter_In in Hv as [Hin Hv]. split; [by destruct v|].
  apply list_elem_of_In, list_elem_of_fmap in Hin as (x & -> & _). apply trim_idem.
Qed.

Lemma first_occurrences_NoDup (l : list jsstring) : NoDup (first_occurrences l).
Proof.
  induction l as [|v l IH]; simpl; [constructor|].
  constructor; [|by apply NoDup_filter].
  rewrite list_elem_of_filter. by intros [? _].
Qed.

(** X15: The frames of the watch-list calls carry clean items. Whatever the
    caller passes, the items of an [addMints], [removeMints], [addAccounts]
    or [removeAccounts] frame are non-empty, free of leading and trailing
    white space, and pairwise distinct; and the frame is never empty. *)
Theorem watch_frames_carry_clean_items (call : WatchCall) (c : StreamClient)
    (m : ClientMsg) :
  Sent m ∈ (watch call c).2 →
  ∃ d, m = message call d ∧ d ≠ [] ∧ NoDup d ∧ ∀ v, v ∈ d → v ≠ [] ∧ trim v = v.
Proof.
  intros Hm.
  destruct (WatchProofs.watch_sends_exact_delta call c) as ([Hout|[Hd Hout]] & _);
    rewrite Hout in Hm; [by apply elem_of_nil in Hm|].
  apply list_elem_of_singleton in Hm. simplify_eq.
  exists (delta call c). split; [done|]. split; [done|].
  split; [destruct call; apply first_occurrences_NoDup|].
  intros v Hv.
  destruct call as [l|l|l|l]; unfold delta in Hv;
    apply WatchProofs.first_occurrences_elem, list_elem_of_filter in Hv as [_ Hv];
    by apply normalizeList_clean in Hv.
Qed.

Section Sessions.
Context (URL_resolve : jsstring → jsstring → option jsstring).
Context (JSON_parse : jsstring → option value).

Abbreviation step := (Client.step URL_resolve JSON_parse).
Abbreviation run := (Client.run URL_resolve JSON_parse).
Abbreviation final := (Client.final URL_resolve JSON_parse).

Lemma run_step (inputs : list Input) (s s0 : Session) (i : Input) (out : list Output) :
  (s0, i, out) ∈ run inputs s → out = (step i s0).2.
Proof.
  revert s. induction inputs as [|j inputs IH]; intros s; simpl.
  - by intros ?%elem_of_nil.
  - destruct (Client.step URL_resolve JSON_parse j s) as [s' out'] eqn:Hstep.
    intros [H|H]%elem_of_cons; [|by apply (IH s')].
    simplify_eq. by rewrite Hstep.
Qed.


(** Every output of a step, classified. *)
Lemma step_outputs (i : Input) (s : Session) (o : Output) :
  o ∈ (step i s).2 →
  (∃ x, o = Emitted x) ∨ (∃ x, o = Called x)
  ∨ (∃ m, o ∈ send m (client (step i s).1)
          ∧ (i ≠ InOpen → ws (client (step i s).1) = ws (client s)))
  ∨ (∃ e, o = Thrown e ∧ connect_throws URL_resolve i (client s) e).
Proof.
  destruct i as [wsUrl token id| |raw| |message| |call|n r|e|wsUrl token id e| |]; simpl.
  - unfold connected, stream_mismatch, renew_url_invalid.
    case_bool_decide as Hid; simpl.
    + intros H. split_outputs H. subst o. right. right. right. eauto.
    + destruct (buildRenewUrl _ _ _ _) eqn:Hurl; simpl.
      * intros H. split_outputs H. subst o. eauto.
      * intros H. split_outputs H; subst o; [eauto|].
        right. right. right. eexists. split; [done|]. right.
        split; [by destruct (decide (id = streamId (config (client s))))|done].
  - destruct (ws (client s)); simpl; [|by intros ?%elem_of_nil].
    unfold onOpen. intros H.
    apply elem_of_cons in H as [->|H]; [eauto|].
    right. right. left.
    apply elem_of_app in H as [H|H]; [|eexists; split; [exact H|done]].
    unfold applyOptionsAndWatchlists in H.
    repeat (apply elem_of_app in H as [H|H]);
      repeat (match type of H with
              | context [if ?b then _ else _] => destruct b
              | context [match ?x with _ => _ end] => destruct x
              end);
      try (by apply elem_of_nil in H); (eexists; split; [exact H|done]).
  - unfold onMessage.
    destruct raw as [raw|]; [|by intros ?%elem_of_nil].
    destruct (truthy raw); [|by intros ?%elem_of_nil].
    pose proof (dispatch_outputs (safeJsonParse JSON_parse raw) (client s) o) as Ho.
    destruct (dispatch _ _) as [out k]. simpl in *.
    intros H. destruct (Ho H); eauto.
  - intros H. split_outputs H. subst. eauto.
  - intros H. split_outputs H. subst. eauto.
  - by intros ?%elem_of_nil.
  - pose proof (watch_outputs call (client s)) as Ho.
    pose proof (watch_ws call (client s)) as Hws.
    destruct (watch call (client s)) as [c' out]. simpl in *.
    destruct Ho as [->|[m ->]]; [by intros ?%elem_of_nil|].
    intros H. right. right. left. eauto.
  - destruct (inflight s !! n) as [k|]; simpl; [|by intros ?%elem_of_nil].
    pose proof (resume_outputs k r (client s) o) as Ho.
    destruct (resume k r (client s)) as [[[c' out] k'] ok]. simpl in *.
    destruct ok; simpl; [|by intros ?%elem_of_nil].
    intros H. destruct (Ho H) as (Hws & [?|[?|[m Hm]]]); eauto.
    right. right. left. exists m. eauto.
  - intros H. split_outputs H. subst o. right. right. right. eauto.
  - unfold connectedNoSocket, stream_mismatch, renew_url_invalid.
    case_bool_decide as Hid; simpl.
    + intros H. split_outputs H. subst o. right. right. right. eauto.
    + assert (id = streamId (config (client s))) as Hsame
        by (by destruct (decide (id = streamId (config (client s))))).
      destruct (buildRenewUrl _ _ _ _) eqn:Hurl; simpl.
      * intros H. split_outputs H; subst o; [eauto|].
        right. right. right. eexists. split; [done|]. right. right. done.
      * intros H. split_outputs H; subst o; [eauto|].
        right. right. right. eexists. split; [done|]. right. left. done.
  - unfold onOpen. intros H.
    apply elem_of_cons in H as [->|H]; [eauto|].
    right. right. left.
    apply elem_of_app in H as [H|H]; [|eexists; split; [exact H|done]].
    unfold applyOptionsAndWatchlists in H.
    repeat (apply elem_of_app in H as [H|H]);
      repeat (match type of H with
              | context [if ?b then _ else _] => destruct b
              | context [match ?x with _ => _ end] => destruct x
              end);
      try (by apply elem_of_nil in H); (eexists; split; [exact H|done]).
  - intros H. split_outputs H. subst. eauto.
Qed.





(** X13: Only [connect()] throws, and this is when. A step throws [e]
    exactly when it is a call of [connect()] in which the schema request
    rejects with [e], the schema names another stream, the renewal URL
    cannot be built, or the socket constructor throws [e]. So in any run
    of a session an exception reaches the caller only from [connect()]:
    handling a frame, an event of a socket, settling a renewal,
    [disconnect()] and the watch-list calls report errors as [error]
    events or not at all. *)
Theorem only_connect_throws (inputs : list Input) (s : Session) :
  (∀ i e, Thrown e ∈ (step i s).2 ↔ connect_throws URL_resolve i (client s) e)
  ∧ (∀ s0 i out e,
       (s0, i, out) ∈ run inputs s → Thrown e ∈ out →
       connect_throws URL_resolve i (client s0) e).
Proof.
  assert (∀ s0 i e, Thrown e ∈ (step i s0).2 → connect_throws URL_resolve i (client s0) e)
    as Honly.
  { intros s0 i e He.
    destruct (step_outputs i s0 _ He) as [[? ?]|[[? ?]|[(m' & Hsend & _)|Hthrown]]];
      try done.
    - by apply send_no_throw in Hsend.
    - destruct Hthrown as (e' & [= <-] & Hwhy). exact Hwhy. }
  split.
  - intros i e. split; [apply Honly|].
    destruct i as [wsUrl token id| |raw| |message| |call|n r|e'|wsUrl token id e'| |];
      simpl; try done.
    + unfold connected, stream_mismatch, renew_url_invalid.
      intros [[Hid ->]|(Hid & Hurl & ->)].
      * rewrite bool_decide_true by done. apply list_elem_of_here.
      * rewrite bool_decide_false by (by intros ?). simpl. rewrite Hurl.
        simpl. apply list_elem_of_further, list_elem_of_here.
    + intros ->. apply list_elem_of_here.
    + unfold connectedNoSocket, stream_mismatch, renew_url_invalid.
      intros [[Hid ->]|[(Hid & Hurl & ->)|(Hid & Hurl & ->)]].
      * rewrite bool_decide_true by done. apply list_elem_of_here.
      * rewrite bool_decide_false by (by intros ?). simpl. rewrite Hurl.
        simpl. apply list_elem_of_further, list_elem_of_here.
      * rewrite bool_decide_false by (by intros ?). simpl.
        destruct (buildRenewUrl _ _ _ _); [|done].
        simpl. apply list_elem_of_further, list_elem_of_here.
  - intros s0 i out e Hrun He. rewrite (run_step _ _ _ _ _ Hrun) in He.
    by apply Honly.
Qed.

Lemma final_cons (i : Input) (inputs : list Input) (s : Session) :
  final (i :: inputs) s = final inputs (step i s).1.
Proof. done. Qed.

(** X16: What is added to the watch lists before the socket opens is not
    lost. While the socket exists but is not open, a sequence of watch-list
    calls sends nothing; the [open] event then emits [connected] and sends,
    in this order, the options if any, [setAccounts], [setPrograms] and
    [setMints] with the lists as the calls left them (each only when
    non-empty), and [getState] last. *)
Theorem watch_lists_replayed_on_open (calls : list WatchCall) (s : Session)
    (state : ReadyState) :
  ws (client s) = Some state → state ≠ OPEN →
  let s' := final (InWatch <$> calls) s in
  let cfg := config (client s') in
  Forall (λ r : Session * Input * list Output, r.2 = []) (run (InWatch <$> calls) s)
  ∧ (step InOpen s').2
    = Emitted ev_connected
      :: match options cfg with Some o => [Sent (msg_setOptions o)] | None => [] end
      ++ (if nonEmpty (watchAccounts cfg)
          then [Sent (msg_setAccounts (default [] (watchAccounts cfg)))] else [])
      ++ (if nonEmpty (watchPrograms cfg)
          then [Sent (msg_setPrograms (default [] (watchPrograms cfg)))] else [])
      ++ (if nonEmpty (watchMints cfg)
          then [Sent (msg_setMints (default [] (watchMints cfg)))] else [])
      ++ [Sent msg_getState].
Proof.
  intros Hws Hstate. cbv zeta.
  assert (Forall (λ r : Session * Input * list Output, r.2 = [])
            (run (InWatch <$> calls) s)
          ∧ ws (client (final (InWatch <$> calls) s)) = Some state) as [Hquiet Hws'].
  { revert s Hws. induction calls as [|call calls IH]; intros s Hws.
    - split; [constructor|done].
    - rewrite fmap_cons, final_cons. simpl.
      pose proof (watch_outputs call (client s)) as Ho.
      pose proof (watch_ws call (client s)) as Hw.
      destruct (watch call (client s)) as [c' out]. simpl in *.
      assert (out = []) as ->.
      { destruct Ho as [->|[m ->]]; [done|].
        destruct (WatchProofs.send_cases m c') as [[Hopen _]|[_ ->]]; [|done].
        rewrite Hw, Hws in Hopen. by simplify_eq. }
      destruct (IH (mkSession c' (inflight s))) as [Hq Hf].
      { simpl. by rewrite Hw. }
      split; [by constructor|done]. }
  split; [done|].
  simpl. rewrite Hws'. simpl. unfold onOpen, applyOptionsAndWatchlists, send. simpl.
  f_equal. by rewrite <- !app_assoc.
Qed.

(** X17: An in-band renewal, end to end. On an open session on a version-2
    schema with in-band renewal, a lease and a renewal URL, a
    [renewal_reminder] or [payment_required] frame starts [renewInband] with
    the URL and the lease; when that settles with a version-2 challenge
    whose requirements all name composite networks, [createPaymentPayload]
    is called with the challenge converted; and when that settles with a
    well-shaped version-2 payload, one [renew_inband] frame is sent with the
    first requirement of the challenge and the payload. The lease token is
    not replaced and no run stays suspended. *)
Theorem inband_renewal_end_to_end (c : StreamClient) (raw op url token : jsstring)
    (fields : gmap jsstring value) (p : PaymentRequiredV2Compat)
    (first : PaymentRequirementsV2Compat) (others : list PaymentRequirementsV2Compat)
    (payload : value) :
  ws c = Some OPEN → renewMethod (config c) = inband → schemaVersion c = v2 →
  renewUrl c = Some url → url ≠ [] → currentToken c = Some token → token ≠ [] →
  raw ≠ [] → JSON_parse raw = Some (VObj fields) →
  fields !! js "op" = Some (VStr op) →
  op = js "renewal_reminder" ∨ op = js "payment_required" →
  accepts p = first :: others →
  (∀ r, r ∈ accepts p → isNetworkV2 (network r) = true) →
  isPaymentPayload (Some payload) = true → versionIs 2 payload = true →
  let inputs := [InMessage (Some raw);
                 InSettle 0 (inr (SettledRequired (RequiredV2 p)));
                 InSettle 0 (inr (SettledPayload payload))] in
  (λ r : Session * Input * list Output, r.2) <$> run inputs (mkSession c [])
  = [[Emitted (ev_x402 (VObj fields)); Called (call_renewInband url token)];
     [Called (call_createPaymentPayload
                (mkCoreRequired 2 (resource p) (accepts p)
                   (match extensions p with
                    | Some x => if falsy x then None else Some x
                    | None => None
                    end)
                   (match error p with
                    | Some e => if truthy e then Some e else None
                    | None => None
                    end)))];
     [Sent (msg_renew_inband (inr first) payload)]]
  ∧ final inputs (mkSession c []) = mkSession c [].
Proof.
  intros Hws Hmethod Hversion Hurl Hurlne Htoken Htokenne Hraw Hparse Hop Hops
    Haccepts Hnetworks Hshape Hv2.
  assert (isWsX402Event (VObj fields) = true) as Hx402.
  { unfold isWsX402Event. simpl. rewrite Hop.
    destruct Hops as [-> | ->]; by vm_compute. }
  assert (handleX402 (VObj fields) c
          = ([Called (call_renewInband url token)], Some AwaitRenewInband)) as Hhandle.
  { unfold handleX402. rewrite Hurl, Htoken, Hmethod, Hversion. simpl. rewrite Hop.
    destruct url; [done|]. destruct token; [done|]. simpl.
    assert (bool_decide (op ≠ js "renewal_reminder")
            && bool_decide (op ≠ js "payment_required") = false) as ->; [|done].
    destruct Hops as [-> | ->]; by vm_compute. }
  assert (toCorePaymentRequired p
          = inr (mkCoreRequired 2 (resource p) (accepts p)
                   (match extensions p with
                    | Some x => if falsy x then None else Some x
                    | None => None
                    end)
                   (match error p with
                    | Some e => if truthy e then Some e else None
                    | None => None
                    end))) as Hcore.
  { unfold toCorePaymentRequired.
    by rewrite (NetworkProofs.mapRequirements_valid _ Hnetworks). }
  cbv zeta. unfold Client.final. simpl.
  unfold onMessage, safeJsonParse. destruct raw as [|r0 raw]; [done|]. cbn [truthy].
  rewrite Hparse. unfold dispatch. cbn [falsy]. rewrite Hx402, Hhandle. simpl.
  rewrite Haccepts. rewrite bool_decide_false by done.
  rewrite <- Haccepts, Hcore. simpl.
  rewrite Hshape, Hv2, Haccepts. simpl.
  unfold send. rewrite bool_decide_true by done. done.
Qed.

End Sessions.


Lemma only_connect_throws_witness :
  connect_throws Samples.resolve_concat
    (InConnected (js "wss://api.example/ws?t=lease-1") (js "lease-1") (js "new-mints"))
    (mkClient Samples.http_v2_config None None None v2)
    (Error (js "schema stream mismatch: expected token-ticker got new-mints")).
Proof.
  apply (proj2 (only_connect_throws Samples.resolve_concat Samples.parse_reminder
                  [InConnected (js "wss://api.example/ws?t=lease-1") (js "lease-1")
                     (js "new-mints")]
                  (mkSession (mkClient Samples.http_v2_config None None None v2) []))
           (mkSession (mkClient Samples.http_v2_config None None None v2) [])
           (InConnected (js "wss://api.example/ws?t=lease-1") (js "lease-1")
              (js "new-mints"))
           [Thrown (Error (js "schema stream mismatch: expected token-ticker got new-mints"))]).
  - vm_compute. apply list_elem_of_here.
  - apply list_elem_of_here.
Defined.

Lemma watch_lists_replayed_on_open_witness :
  (Client.step Samples.resolve_concat Samples.parse_reminder InOpen
     (Client.final Samples.resolve_concat Samples.parse_reminder
        (InWatch <$> [AddMints [js " mintB "]; AddAccounts [js "acct"]])
        (mkSession (mkClient Samples.http_v2_config (Some CONNECTING) None None v2) []))).2
  = [Emitted ev_connected; Sent (msg_setAccounts [js "acct"]);
     Sent (msg_setMints [js "mintA"; js "mintB"]); Sent msg_getState].
Proof.
  pose proof (watch_lists_replayed_on_open Samples.resolve_concat Samples.parse_reminder
                [AddMints [js " mintB "]; AddAccounts [js "acct"]]
                (mkSession (mkClient Samples.http_v2_config (Some CONNECTING) None None v2) [])
                CONNECTING) as H.
  destruct H as [_ H]; [reflexivity|done|].
  rewrite H. vm_compute. reflexivity.
Defined.

Lemma watch_frames_carry_clean_items_witness :
  ∃ d, msg_addMints [js "mintB"] = message (AddMints [js " mintB "; js "mintB"; js "  "]) d
       ∧ d ≠ [] ∧ NoDup d ∧ ∀ v, v ∈ d → v ≠ [] ∧ trim v = v.
Proof.
  apply (watch_frames_carry_clean_items
           (AddMints [js " mintB "; js "mintB"; js "  "])
           (mkClient Samples.http_v2_config (Some OPEN) None None v2)).
  vm_compute. apply list_elem_of_here.
Defined.

Lemma inband_renewal_end_to_end_witness :
  Client.final Samples.resolve_concat Samples.parse_reminder
    [InMessage (Some (js "reminder"));
     InSettle 0 (inr (SettledRequired (RequiredV2 Samples.mainnet_required)));
     InSettle 0 (inr (SettledPayload Samples.usdc_payload))]
    (mkSession Samples.inband_v2_client [])
  = mkSession Samples.inband_v2_client [].
Proof.
  apply (inband_renewal_end_to_end Samples.resolve_concat Samples.parse_reminder
           Samples.inband_v2_client (js "reminder") (js "renewal_reminder")
           (js "https://api.example/v2/renew/stream/token-ticker") (js "lease-1")
           {[ js "op" := VStr (js "renewal_reminder") ]} Samples.mainnet_required
           (mkRequirementsV2 (js "exact") (js "solana:mainnet") (js "1000000") (js "USDC")
              (js "payee") 60%float (VObj ∅))
           [] Samples.usdc_payload).
  - reflexivity.
  - reflexivity.
  - reflexivity.
  - reflexivity.
  - done.
  - reflexivity.
  - done.
  - done.
  - reflexivity.
  - vm_compute. reflexivity.
  - by left.
  - reflexivity.
  - intros r Hr. apply list_elem_of_singleton in Hr. subst r. vm_compute. reflexivity.
  - vm_compute. reflexivity.
  - vm_compute. reflexivity.
Defined.

End ClientMore.

(** ** The payment hook and the spend ledger *)

Module SpendProofs.
Import JS Protocol X402 Ledger Spend.

Lemma includes_unfold (needle s : jsstring) :
  includes needle s
  = startsWith needle s
    || match s with
       | [] => false
       | _ :: s' => includes needle s'
       end.
Proof. by destruct s. Qed.

Lemma includes_app (needle p r : jsstring) : includes needle (p ++ needle ++ r) = true.
Proof.
  induction p as [|c p IH].
  - rewrite includes_unfold. apply orb_true_iff. left.
    apply ClientMore.startsWith_prefix. by exists r.
  - simpl. rewrite IH. apply orb_true_r.
Qed.

Lemma indexOfString_unfold (needle s : jsstring) :
  indexOfString needle s
  = if startsWith needle s then 0%Z
    else match s with
         | [] => (-1)%Z
         | _ :: s' =>
             let r := indexOfString needle s' in if (r <? 0)%Z then (-1)%Z else (r + 1)%Z
         end.
Proof. by destruct s. Qed.

(** Where [indexOf] finds the needle, the needle is. *)
Lemma indexOfString_found (needle s : jsstring) :
  (0 ≤ indexOfString needle s)%Z →
  ∃ p r, s = p ++ needle ++ r
         ∧ Z.of_nat (List.length p) = indexOfString needle s.
Proof.
  induction s as [|d s IH]; rewrite indexOfString_unfold.
  - destruct (startsWith needle []) eqn:Hs; [|done].
    apply ClientMore.startsWith_prefix in Hs as [r Hr]. intros _. by exists [], r.
  - destruct (startsWith needle (d :: s)) eqn:Hs.
    + apply ClientMore.startsWith_prefix in Hs as [r Hr]. intros _. by exists [], r.
    + cbv zeta. destruct (indexOfString needle s <? 0)%Z eqn:Hneg; [done|].
      intros _. apply Z.ltb_ge in Hneg. destruct (IH Hneg) as (p & r & -> & Hlen).
      exists (d :: p), r. split; [done|]. simpl List.length. lia.
Qed.

Lemma split_nonempty (c : N) (s : jsstring) : split c s ≠ [].
Proof.
  destruct s as [|d s]; simpl; [done|].
  destruct (split c s); [done|]. by case_bool_decide.
Qed.

(** The first piece of [s.split(c)] is a prefix of [s] that ends at the
    end of [s] or before a separator. *)
Lemma split_head (c : N) (s : jsstring) :
  ∃ rest, s = default [] (head (split c s)) ++ rest
          ∧ (rest = [] ∨ ∃ r', rest = c :: r').
Proof.
  induction s as [|d s IH]; simpl.
  - exists []. auto.
  - destruct (split c s) as [|p ps] eqn:Hsplit; [by destruct (split_nonempty c s)|].
    simpl in IH. destruct IH as (rest & -> & Hrest).
    case_bool_decide as Hd; simpl.
    + subst d. exists (c :: p ++ rest). eauto.
    + exists rest. auto.
Qed.

Section Hook.
Context (URL_pathname_at_localhost : jsstring → option jsstring).

Abbreviation normalize := (normalizeResourcePath URL_pathname_at_localhost).
Abbreviation parseId := (parseSchemaStreamId URL_pathname_at_localhost).
Abbreviation record := (recordSchemaSpend URL_pathname_at_localhost).

(** X18: A payment made for a renewal is not counted by the hook. When the
    resource of the payment has a path that contains [/renew/], as every
    path built by [buildRenewUrl] does, [recordSchemaSpend] leaves the
    ledger as it is; such a payment reaches the totals only through the
    [renewed] event. *)
Theorem renewal_payments_not_counted (context : PaymentCreatedContext)
    (app : DashboardApp) (url streamId p r : jsstring) (version : X402SchemaVersion) :
  extractX402ResourceUrl context = Some url →
  normalize url = p ++ js "/renew/" ++ r
  ∨ normalize url = js "/" ++ versionName version ++ js "/renew/stream/" ++ streamId →
  record context app = app.
Proof.
  intros Hurl Hpath. unfold recordSchemaSpend. rewrite Hurl.
  destruct (truthy url); [|done]. simpl.
  unfold parseSchemaStreamId.
  assert (includes (js "/renew/") (normalize url) = true) as ->; [|done].
  destruct Hpath as [->| ->]; [apply includes_app|].
  replace (js "/" ++ versionName version ++ js "/renew/stream/" ++ streamId)
    with ((js "/" ++ versionName version) ++ js "/renew/" ++ (js "stream/" ++ streamId)).
  - apply includes_app.
  - by destruct version.
Qed.

(** X19: The stream a payment is counted against is read off the path of its
    resource: whenever [parseSchemaStreamId] returns a stream, it is one of
    the known stream identifiers, the path holds no [/renew/], and the
    identifier stands in the path right after the first [/schema/stream/],
    up to the next [/] or the end. *)
Theorem schema_stream_read_off_path (url id : jsstring) :
  parseId url = Some id →
  isStreamId id = true
  ∧ includes (js "/renew/") (normalize url) = false
  ∧ ∃ prefix rest,
      normalize url = prefix ++ js "/schema/stream/" ++ id ++ rest
      ∧ Z.of_nat (List.length prefix) = indexOfString (js "/schema/stream/") (normalize url)
      ∧ (rest = [] ∨ ∃ r', rest = 47%N :: r').
Proof.
  unfold parseSchemaStreamId. cbv zeta.
  destruct (includes (js "/renew/") (normalize url)); [done|].
  destruct (indexOfString (js "/schema/stream/") (normalize url) =? -1)%Z eqn:Hidx; [done|].
  apply Z.eqb_neq in Hidx.
  set (sliced := StoreOps.Array_slice _ _).
  destruct (truthy (default [] (head (split 47 sliced)))); [|done]. cbn [negb].
  destruct (isStreamId (default [] (head (split 47 sliced)))) eqn:Hknown; [|done].
  intros [= <-]. split; [done|]. split; [done|].
  assert (0 ≤ indexOfString (js "/schema/stream/") (normalize url))%Z as Hpos.
  { clear -Hidx. revert Hidx. generalize (normalize url) as s. intros s.
    induction s as [|d s IH]; rewrite indexOfString_unfold.
    - by destruct (startsWith _ []).
    - destruct (startsWith _ (d :: s)); [done|]. cbv zeta.
      destruct (indexOfString _ s <? 0)%Z eqn:Hneg; [done|].
      apply Z.ltb_ge in Hneg. lia. }
  destruct (indexOfString_found _ _ Hpos) as (prefix & r & Hpath & Hlen).
  assert (sliced = r) as Hsliced.
  { unfold sliced, StoreOps.Array_slice. rewrite <- Hlen.
    rewrite (proj2 (Z.ltb_ge _ _)) by lia.
    rewrite Hpath. rewrite !length_app.
    replace (Z.to_nat _) with (List.length prefix + List.length (js "/schema/stream/"))%nat
      by lia.
    rewrite <- drop_drop, drop_app_length. by rewrite drop_app_length. }
  destruct (split_head 47 sliced) as (rest & Hrest & Hend).
  exists prefix, rest. split; [|by split].
  rewrite Hpath. do 2 f_equal. by rewrite <- Hsliced.
Qed.

(** X20: A payment made for the schema of a known stream is counted once,
    against that stream. When the resource path is [/v1/schema/stream/<id>]
    or [/v2/schema/stream/<id>] with [<id>] a known stream and the selected
    requirements give a charge, the hook adds the amount of the charge to
    the total of [<id>], keeps the asset label the total already had (the
    asset of the charge when there was none), and touches neither the
    totals of other streams nor any pending charge. *)
Theorem schema_payment_counted_once (context : PaymentCreatedContext)
    (app : DashboardApp) (url id : jsstring) (version : X402SchemaVersion)
    (charge : X402PriceHint) :
  extractX402ResourceUrl context = Some url → url ≠ [] →
  normalize url = js "/" ++ versionName version ++ js "/schema/stream/" ++ id →
  id ∈ STREAM_IDS →
  parsePaymentCharge (selectedRequirements context) = Some charge →
  let app' := record context app in
  confirmedTotal id app' = (confirmedTotal id app + amountRaw charge)%Z
  ∧ spendAsset <$> spendTotals app' !! id
    = Some (from_option spendAsset (hintAsset charge) (spendTotals app !! id))
  ∧ (∀ s, s ≠ id → spendTotals app' !! s = spendTotals app !! s)
  ∧ pendingCharges app' = pendingCharges app.
Proof.
  intros Hurl Hne Hpath Hid Hcharge.
  assert (parseId url = Some id) as Hparse.
  { unfold parseSchemaStreamId. rewrite Hpath. clear -Hid.
    unfold STREAM_IDS in Hid. rewrite !fmap_cons in Hid.
    destruct version;
      repeat (apply elem_of_cons in Hid as [->|Hid]; [by vm_compute|]);
      by apply elem_of_nil in Hid. }
  cbv zeta. unfold recordSchemaSpend. rewrite Hurl.
  destruct url as [|c url]; [done|]. cbn [truthy negb].
  rewrite Hparse, Hcharge. unfold applySpendCharge, confirmedTotal. simpl.
  rewrite lookup_insert_eq. simpl.
  split; [by destruct (spendTotals app !! id)|]. split; [done|]. split; [|done].
  intros s Hs. by rewrite lookup_insert_ne.
Qed.

End Hook.

(** X21: A charge hinted before a stream is disabled is never counted.
    [disableStream] drops the pending charge of the stream and leaves every
    total as it was; whatever the other streams do afterwards, a [renewed]
    event of the disabled stream then changes nothing. *)
Theorem disabled_stream_drops_pending (s : StreamId) (app : DashboardApp)
    (between : list (StreamId * WsX402Event)) (expiresAt : jsstring)
    (method : RenewMethod) :
  Forall (λ e, e.1 ≠ s) between →
  let app1 := disableStream s app in
  let app2 := handleAll between app1 in
  handleX402Event s (renewed expiresAt method) app2 = app2
  ∧ confirmedTotal s app2 = confirmedTotal s app
  ∧ spendTotals app1 = spendTotals app
  ∧ ∀ s', s' ≠ s → pendingCharges app1 !! s' = pendingCharges app !! s'.
Proof.
  intros Hbetween app1 app2.
  destruct (LedgerProofs.handleAll_other s between app1 Hbetween) as [Hp Ht].
  fold app2 in Hp, Ht.
  assert (pendingCharges app1 !! s = None) as Hnone by apply lookup_delete_eq.
  split; [apply LedgerProofs.renewed_unmatched; by rewrite Hp|].
  split; [unfold confirmedTotal; by rewrite Ht|]. split; [done|].
  intros s' Hs'. simpl. by rewrite lookup_delete_ne.
Qed.

Lemma renewal_payments_not_counted_witness :
  recordSchemaSpend Samples.no_url
    (mkContext
       (VObj {[ js "resource" :=
                  VObj {[ js "url" := VStr (js "/v2/renew/stream/token-ticker") ]} ]})
       VNull VNull)
    Samples.empty_app
  = Samples.empty_app.
Proof.
  apply (renewal_payments_not_counted Samples.no_url _ _
           (js "/v2/renew/stream/token-ticker") (js "token-ticker") [] [] v2).
  - vm_compute. reflexivity.
  - right. vm_compute. reflexivity.
Defined.

Lemma schema_stream_read_off_path_witness :
  isStreamId (js "swap-quotes") = true.
Proof.
  apply (schema_stream_read_off_path Samples.no_url
           (js "/v1/schema/stream/swap-quotes/extra") (js "swap-quotes")).
  vm_compute. reflexivity.
Defined.

Lemma schema_payment_counted_once_witness :
  confirmedTotal (js "token-ticker")
    (recordSchemaSpend Samples.no_url
       (mkContext
          (VObj {[ js "resource" :=
                     VObj {[ js "url" := VStr (js "/v2/schema/stream/token-ticker") ]} ]})
          Samples.usdc_requirement VNull)
       Samples.empty_app)
  = 1000000%Z.
Proof.
  apply (schema_payment_counted_once Samples.no_url
           (mkContext
              (VObj {[ js "resource" :=
                         VObj {[ js "url" := VStr (js "/v2/schema/stream/token-ticker") ]} ]})
              Samples.usdc_requirement VNull)
           Samples.empty_app (js "/v2/schema/stream/token-ticker") (js "token-ticker") v2
           (mkPriceHint 1000000 (js "USDC"))).
  - vm_compute. reflexivity.
  - done.
  - vm_compute. reflexivity.
  - vm_compute. do 5 apply list_elem_of_further. apply list_elem_of_here.
  - vm_compute. reflexivity.
Defined.

Lemma disabled_stream_drops_pending_witness :
  let app := handleX402Event (js "token-ticker") Samples.sample_reminder Samples.empty_app in
  confirmedTotal (js "token-ticker")
    (handleAll [(js "new-mints", Samples.sample_renewed)]
       (disableStream (js "token-ticker") app))
  = confirmedTotal (js "token-ticker") app.
Proof.
  intros app.
  apply (disabled_stream_drops_pending (js "token-ticker") app
           [(js "new-mints", Samples.sample_renewed)] [] http).
  constructor; [done|constructor].
Defined.

End SpendProofs.

(** ** Pair keys *)

Module MintsProofs.
Import JS Mints.

Lemma split_cons (c d : N) (s : jsstring) :
  ∃ p ps, split c s = p :: ps
          ∧ split c (d :: s) = if bool_decide (d = c) then [] :: p :: ps else (d :: p) :: ps.
Proof.
  simpl. destruct (split c s) as [|p ps] eqn:Hs; [by destruct (SpendProofs.split_nonempty c s)|].
  by exists p, ps.
Qed.

Lemma split_absent (c : N) (s : jsstring) : c ∉ s → split c s = [s].
Proof.
  induction s as [|d s IH]; [done|].
  intros [Hd Hs]%not_elem_of_cons.
  destruct (split_cons c d s) as (p & ps & Hsplit & ->).
  rewrite bool_decide_false by done. rewrite (IH Hs) in Hsplit. by simplify_eq.
Qed.

Lemma split_app (c : N) (b q : jsstring) :
  c ∉ b → split c (b ++ c :: q) = b :: split c q.
Proof.
  induction b as [|d b IH].
  - intros _. simpl app. destruct (split_cons c c q) as (p & ps & -> & ->).
    by rewrite bool_decide_true.
  - intros [Hd Hb]%not_elem_of_cons. simpl app.
    destruct (split_cons c d (b ++ c :: q)) as (p & ps & Hsplit & ->).
    rewrite bool_decide_false by done. rewrite (IH Hb) in Hsplit. by simplify_eq.
Qed.

Lemma split_one (c : N) (s q : jsstring) : split c s = [q] → s = q ∧ c ∉ q.
Proof.
  revert q. induction s as [|d s IH]; intros q.
  - simpl. intros [= <-]. split; [done|apply not_elem_of_nil].
  - destruct (split_cons c d s) as (p & ps & Hsplit & ->).
    case_bool_decide as Hd; [done|].
    intros [= <- ->]. destruct (IH p Hsplit) as [-> Hp].
    split; [done|]. by apply not_elem_of_cons.
Qed.

Lemma split_two (c : N) (s b q : jsstring) :
  split c s = [b; q] → s = b ++ c :: q ∧ (c ∉ b) ∧ (c ∉ q).
Proof.
  revert b. induction s as [|d s IH]; intros b; [done|].
  destruct (split_cons c d s) as (p & ps & Hsplit & ->).
  case_bool_decide as Hd.
  - intros [= <- -> ->]. subst d. destruct (split_one c s q Hsplit) as [-> Hq].
    split; [done|]. split; [apply not_elem_of_nil|done].
  - intros [= <- ->]. destruct (IH p Hsplit) as (-> & Hp & Hq).
    split; [done|]. split; [by apply not_elem_of_cons|done].
Qed.

(** X22: [parsePairKey] inverts [pairKey], on exactly the keys that [pairKey]
    builds from two non-empty mints without [/]: a string parses to the
    pair [(b, q)] if and only if it is [pairKey(b, q)] with [b] and [q]
    non-empty and free of [/]; every other string gives [null]. *)
Theorem pair_key_round_trip (value b q : jsstring) :
  parsePairKey value = Some (mkMintPair b q)
  ↔ value = pairKey b q ∧ b ≠ [] ∧ q ≠ [] ∧ (47%N ∉ b) ∧ (47%N ∉ q).
Proof.
  unfold parsePairKey, pairKey. split.
  - destruct (split 47 value) as [|b' [|q' [|]]] eqn:Hsplit; try done.
    destruct (split_two _ _ _ _ Hsplit) as (-> & Hb & Hq).
    destruct b' as [|x b']; [done|]. destruct q' as [|y q']; [done|].
    simpl. intros [= <- <-]. done.
  - intros (-> & Hb & Hq & Hsb & Hsq).
    change (js "/" ++ q) with (47%N :: q).
    rewrite (split_app _ _ _ Hsb), (split_absent _ _ Hsq).
    destruct b; [done|]. by destruct q.
Qed.

End MintsProofs.

(** ** The format of price hints *)

Module HintProofs.
Import JS Ledger.

(** Two spellings of the same string, up to the nesting of [++]. *)
Local Ltac same_string :=
  rewrite <- ?app_assoc; simpl; rewrite <- ?app_assoc; vm_compute; reflexivity.

Lemma split_ws_aux_word (u rest cur : jsstring) (b : bool) :
  Forall (λ c, is_whitespace c = false) u →
  u ≠ [] ∨ b = false →
  split_ws_aux (u ++ rest) cur b = split_ws_aux rest (reverse u ++ cur) false.
Proof.
  intros Hu. revert cur b. induction Hu as [|c u Hc Hu IH]; intros cur b Hb.
  - by destruct Hb as [?| ->].
  - simpl. rewrite Hc, IH by auto. by rewrite reverse_cons, <- app_assoc.
Qed.

Lemma split_ws_two (u w : jsstring) :
  Forall (λ c, is_whitespace c = false) u → Forall (λ c, is_whitespace c = false) w →
  u ≠ [] → w ≠ [] →
  split_ws (u ++ 32%N :: w) = [u; w].
Proof.
  intros Hu Hw Hune Hwne. unfold split_ws.
  rewrite (split_ws_aux_word u _ [] false Hu) by auto.
  rewrite app_nil_r. simpl. rewrite reverse_involutive. f_equal.
  rewrite <- (app_nil_r w) at 1.
  rewrite (split_ws_aux_word w [] [] true Hw) by auto.
  simpl. by rewrite app_nil_r, reverse_involutive.
Qed.

Lemma trim_edges (c d : N) (t : jsstring) :
  is_whitespace c = false → is_whitespace d = false →
  trim (c :: t ++ [d]) = c :: t ++ [d].
Proof.
  intros Hc Hd. unfold trim. simpl trimStart. rewrite Hc.
  unfold trimEnd. change (c :: t ++ [d]) with ((c :: t) ++ [d]).
  rewrite (reverse_app (c :: t) [d]).
  change (reverse [d] ++ reverse (c :: t)) with (d :: reverse (c :: t)).
  simpl trimStart. rewrite Hd.
  change (d :: reverse (c :: t)) with (reverse [d] ++ reverse (c :: t)).
  by rewrite <- reverse_app, reverse_involutive.
Qed.

(** One [key=value] part, once the key is known to hold no [=]. *)
Lemma split_part (key value : jsstring) :
  61%N ∉ key → 61%N ∉ value → split 61 (key ++ 61%N :: value) = [key; value].
Proof.
  intros Hk Hv. by rewrite MintsProofs.split_app, MintsProofs.split_absent.
Qed.

Lemma scanPart_amount (acc : option jsstring * option jsstring) (key v : jsstring) :
  key = js "amount" ∨ key = js "maxAmount" → 61%N ∉ v → v ≠ [] →
  scanPart acc (key ++ 61%N :: v) = (Some v, acc.2).
Proof.
  intros Hkey Hv Hne. unfold scanPart. destruct acc as [amount asset].
  rewrite split_part; [|destruct Hkey as [-> | ->]; compute_done|done].
  destruct v as [|c v]; [done|].
  destruct Hkey as [-> | ->]; by vm_compute.
Qed.

Lemma scanPart_asset (acc : option jsstring * option jsstring) (v : jsstring) :
  61%N ∉ v → v ≠ [] →
  scanPart acc (js "asset" ++ 61%N :: v) = (acc.1, Some v).
Proof.
  intros Hv Hne. unfold scanPart. destruct acc as [amount asset].
  rewrite split_part; [|compute_done|done].
  destruct v as [|c v]; [done|]. by vm_compute.
Qed.

(** X23: The hint format. For an amount [a] that [BigInt] reads as [n] and an
    asset [x], both non-empty and free of white space and of [=], the hints
    [amount=a asset=x] and [asset=x maxAmount=a] both parse to [n] of [x]:
    the order of the two parts is free and [maxAmount] stands for [amount].
    A hint with only one of the two parts does not parse. *)
Theorem price_hint_format (a x : jsstring) (n : Z) :
  a ≠ [] → x ≠ [] →
  Forall (λ c, is_whitespace c = false ∧ c ≠ 61%N) (a ++ x) →
  BigInt a = Some n →
  parsePriceHint (js "amount=" ++ a ++ js " asset=" ++ x) = Some (mkPriceHint n x)
  ∧ parsePriceHint (js "asset=" ++ x ++ js " maxAmount=" ++ a) = Some (mkPriceHint n x)
  ∧ parsePriceHint (js "amount=" ++ a) = None
  ∧ parsePriceHint (js "asset=" ++ x) = None.
Proof.
  intros Ha Hx Hclean Hbig.
  apply Forall_app in Hclean as [Hca Hcx].
  assert (Forall (λ c, is_whitespace c = false) a) as Hwa
    by (eapply Forall_impl; [exact Hca|by intros ? [? _]]).
  assert (Forall (λ c, is_whitespace c = false) x) as Hwx
    by (eapply Forall_impl; [exact Hcx|by intros ? [? _]]).
  assert (61%N ∉ a) as Hea.
  { intros Hin. by destruct (proj1 (Forall_forall _ _) Hca _ Hin). }
  assert (61%N ∉ x) as Hex.
  { intros Hin. by destruct (proj1 (Forall_forall _ _) Hcx _ Hin). }
  destruct (exists_last Ha) as (a' & da & ->).
  destruct (exists_last Hx) as (x' & dx & ->).
  assert (is_whitespace da = false) as Hda.
  { apply Forall_app in Hwa as [_ Hd]. by inversion Hd. }
  assert (is_whitespace dx = false) as Hdx.
  { apply Forall_app in Hwx as [_ Hd]. by inversion Hd. }
  assert (∀ key : jsstring, Forall (λ c, is_whitespace c = false) key →
            ∀ v : jsstring, Forall (λ c, is_whitespace c = false) v →
            Forall (λ c, is_whitespace c = false) (key ++ 61%N :: v)) as Hpart.
  { intros key Hkey v Hv. apply Forall_app. split; [done|]. by constructor. }
  assert (Forall (λ c, is_whitespace c = false) (js "amount")) as Hw1
    by (by repeat constructor).
  assert (Forall (λ c, is_whitespace c = false) (js "maxAmount")) as Hw2
    by (by repeat constructor).
  assert (Forall (λ c, is_whitespace c = false) (js "asset")) as Hw3
    by (by repeat constructor).
  assert (61%N ∉ js "amount") as He1 by compute_done.
  assert (61%N ∉ js "maxAmount") as He2 by compute_done.
  assert (61%N ∉ js "asset") as He3 by compute_done.
  unfold parsePriceHint.
  split; [|split; [|split]].
  - replace (js "amount=" ++ (a' ++ [da]) ++ js " asset=" ++ x' ++ [dx])
      with (97%N :: (js "mount=" ++ (a' ++ [da]) ++ js " asset=" ++ x') ++ [dx])
      by same_string.
    rewrite trim_edges by done.
    replace (97%N :: (js "mount=" ++ (a' ++ [da]) ++ js " asset=" ++ x') ++ [dx])
      with ((js "amount" ++ 61%N :: (a' ++ [da]))
            ++ 32%N :: (js "asset" ++ 61%N :: (x' ++ [dx])))
      by same_string.
    rewrite split_ws_two by (auto; by destruct (js "amount")).
    change (foldl scanPart ?acc [?p1; ?p2]) with (scanPart (scanPart acc p1) p2).
    rewrite (scanPart_amount _ (js "amount")) by auto.
    rewrite scanPart_asset by auto. cbn [fst snd].
    assert (truthy (a' ++ [da]) = true) as -> by (by destruct a').
    assert (truthy (x' ++ [dx]) = true) as -> by (by destruct x').
    simpl. by rewrite Hbig.
  - replace (js "asset=" ++ (x' ++ [dx]) ++ js " maxAmount=" ++ a' ++ [da])
      with (97%N :: (js "sset=" ++ (x' ++ [dx]) ++ js " maxAmount=" ++ a') ++ [da])
      by same_string.
    rewrite trim_edges by done.
    replace (97%N :: (js "sset=" ++ (x' ++ [dx]) ++ js " maxAmount=" ++ a') ++ [da])
      with ((js "asset" ++ 61%N :: (x' ++ [dx]))
            ++ 32%N :: (js "maxAmount" ++ 61%N :: (a' ++ [da])))
      by same_string.
    rewrite split_ws_two by (auto; by destruct (js "asset")).
    change (foldl scanPart ?acc [?p1; ?p2]) with (scanPart (scanPart acc p1) p2).
    rewrite (scanPart_asset (None, None)) by auto.
    rewrite (scanPart_amount _ (js "maxAmount")) by auto. cbn [fst snd].
    assert (truthy (a' ++ [da]) = true) as -> by (by destruct a').
    assert (truthy (x' ++ [dx]) = true) as -> by (by destruct x').
    simpl. by rewrite Hbig.
  - replace (js "amount=" ++ a' ++ [da])
      with (97%N :: (js "mount=" ++ a') ++ [da]) by same_string.
    rewrite trim_edges by done.
    replace (97%N :: (js "mount=" ++ a') ++ [da])
      with ((js "amount" ++ 61%N :: (a' ++ [da])) ++ []) by same_string.
    unfold split_ws. rewrite split_ws_aux_word by auto.
    rewrite app_nil_r. cbn [split_ws_aux]. rewrite reverse_involutive.
    change (foldl scanPart ?acc [?p1]) with (scanPart acc p1).
    by rewrite (scanPart_amount _ (js "amount")) by auto.
  - replace (js "asset=" ++ x' ++ [dx])
      with (97%N :: (js "sset=" ++ x') ++ [dx]) by same_string.
    rewrite trim_edges by done.
    replace (97%N :: (js "sset=" ++ x') ++ [dx])
      with ((js "asset" ++ 61%N :: (x' ++ [dx])) ++ []) by same_string.
    unfold split_ws. rewrite split_ws_aux_word by auto.
    rewrite app_nil_r. cbn [split_ws_aux]. rewrite reverse_involutive.
    change (foldl scanPart ?acc [?p1]) with (scanPart acc p1).
    by rewrite scanPart_asset by auto.
Qed.

Lemma price_hint_format_witness :
  parsePriceHint (js "asset=USDC maxAmount=500") = Some (mkPriceHint 500 (js "USDC")).
Proof.
  apply (price_hint_format (js "500") (js "USDC") 500).
  - done.
  - done.
  - repeat (constructor; [split; [reflexivity|done]|]). constructor.
  - vm_compute. reflexivity.
Defined.

End HintProofs.

(** ** The payment guards *)

Module GuardProofs.
Import JS Protocol.

(** A number equal to a finite number has its sign and its exponent. *)
Lemma SFeqb_exponent (s : bool) (m' : positive) (e' : Z) (a : spec_float) :
  SFeqb a (S754_finite s m' e') = true →
  ∃ m0, a = S754_finite s m0 e'.
Proof.
  unfold SFeqb, SFcompare.
  destruct a as [sa|sa| |sa ma ea]; try done.
  - by destruct s.
  - by destruct sa.
  - destruct sa, s; try done.
    + destruct (Z.compare_spec ea e'); try done. subst. by eexists.
    + destruct (Z.compare_spec ea e'); try done. subst. by eexists.
Qed.

Lemma not_one_and_two (x : float) :
  (x =? 1)%float = true → (x =? 2)%float = true → False.
Proof.
  rewrite !FloatAxioms.eqb_spec.
  replace (Prim2SF 1) with (S754_finite false 4503599627370496 (-52))
    by (vm_compute; reflexivity).
  replace (Prim2SF 2) with (S754_finite false 4503599627370496 (-51))
    by (vm_compute; reflexivity).
  intros [m1 H1]%SFeqb_exponent [m2 H2]%SFeqb_exponent.
  rewrite H1 in H2. by injection H2.
Qed.

Lemma versions_exclusive (v : value) :
  versionIs 1 v = true → versionIs 2 v = true → False.
Proof.
  unfold versionIs. destruct (get v (js "x402Version")) as [[| |x| | |]|]; try done.
  apply not_one_and_two.
Qed.

(** X24: the version number selects the guard. A value that passes
    [isPaymentRequired] passes the version-2 guard exactly when its
    [x402Version] is 2, and the version-1 guard exactly when it is 1, never
    both; the same holds of [isPaymentPayload]. And in a challenge that
    passes the version-2 guard, [accepts] is an array whose every element
    has a string [network] that [isNetworkV2] accepts. *)
Theorem version_selects_guard (v : value) :
  (isPaymentRequired (Some v) = true →
   (versionIs 2 v = true ↔ isPaymentRequiredV2 (Some v) = true)
   ∧ (versionIs 1 v = true ↔ isPaymentRequiredV1 (Some v) = true))
  ∧ (isPaymentPayload (Some v) = true →
     (versionIs 2 v = true ↔ isPaymentPayloadV2 (Some v) = true)
     ∧ (versionIs 1 v = true ↔ isPaymentPayloadV1 (Some v) = true))
  ∧ (isPaymentRequiredV2 (Some v) = true →
     ∃ items, get v (js "accepts") = Some (VArr items)
              ∧ ∀ item, item ∈ items →
                  ∃ network, get item (js "network") = Some (VStr network)
                             ∧ isNetworkV2 network = true).
Proof.
  assert (isPaymentRequiredV1 (Some v) = true → versionIs 1 v = true) as Hr1.
  { unfold isPaymentRequiredV1. destruct v; try done.
    by intros [[? _]%andb_true_iff _]%andb_true_iff. }
  assert (isPaymentRequiredV2 (Some v) = true → versionIs 2 v = true) as Hr2.
  { unfold isPaymentRequiredV2. destruct v; try done.
    rewrite !andb_true_iff. naive_solver. }
  assert (isPaymentPayloadV1 (Some v) = true → versionIs 1 v = true) as Hp1.
  { unfold isPaymentPayloadV1. destruct v; try done.
    rewrite !andb_true_iff. naive_solver. }
  assert (isPaymentPayloadV2 (Some v) = true → versionIs 2 v = true) as Hp2.
  { unfold isPaymentPayloadV2. destruct v; try done.
    rewrite !andb_true_iff. naive_solver. }
  pose proof (versions_exclusive v) as Hex.
  split; [|split].
  - unfold isPaymentRequired. intros [H1|H2]%orb_true_iff.
    + split; split; auto; intros H; exfalso; auto.
    + split; split; auto; intros H; exfalso; auto.
  - unfold isPaymentPayload. intros [H1|H2]%orb_true_iff.
    + split; split; auto; intros H; exfalso; auto.
    + split; split; auto; intros H; exfalso; auto.
  - unfold isPaymentRequiredV2. destruct v as [| | | | |fields]; try done.
    rewrite !andb_true_iff. intros ((((_ & _) & Harr) & _) & _).
    unfold arrayOf in Harr.
    destruct (get (VObj fields) (js "accepts")) as [[| | | |items|]|]; try done.
    exists items. split; [done|]. intros item Hitem.
    rewrite forallb_forall in Harr. apply list_elem_of_In, Harr in Hitem.
    unfold isPaymentRequirementsV2 in Hitem. destruct item; try done.
    rewrite !andb_true_iff in Hitem.
    destruct Hitem as ((((((_ & Hnet) & _) & _) & _) & _) & _).
    destruct (get _ (js "network")) as [[| | |network| |]|]; try done.
    by exists network.
Qed.

End GuardProofs.
